(** * Shader resolution (renderer_vulkan/tr_findshader.c)

    A shallow embedding of the shader registry of the Vulkan renderer:
    the name hash, the index over the shader text, the cache of shader
    objects and the remap operation, with the properties the design
    document states about them.

    The loader of the shader files ([ScanAndLoadShaderFiles], with
    [BuildSingleLargeBuffer] and [Shader_DoSimpleCheck]) works on the file
    system and only hands the text it has built to
    [SetShaderTextHashTableSizes]; it is modelled by itself, after the
    registry, and a state of the registry holds that text, or none. *)

From Stdlib Require Import ZArith Lia Ascii String.
From stdpp Require Import gmap strings list.

Open Scope Z_scope.

(** ** C data: characters, strings, machine integers *)

(** A C string is the [string] of the characters before its terminator.
    A [char] is signed, as on the x86 targets of the engine. *)
Definition char_val (c : ascii) : Z :=
  let n := Z.of_N (N_of_ascii c) in
  if n <? 128 then n else n - 256.

(** Two's complement wrap-around of a [bits]-wide signed integer. *)
Definition wrap (bits : Z) (z : Z) : Z :=
  (z + 2 ^ (bits - 1)) mod 2 ^ bits - 2 ^ (bits - 1).

(** An [int] has 32 bits, a [long] 64 (the LP64 targets of the engine). *)
Definition wrap_int (z : Z) : Z := wrap 32 z.
Definition wrap_long (z : Z) : Z := wrap 64 z.

Definition INT_MAX : Z := 2147483647.

Definition is_upper (c : ascii) : bool :=
  (65 <=? Z.of_N (N_of_ascii c)) && (Z.of_N (N_of_ascii c) <=? 90).

Definition is_lower (c : ascii) : bool :=
  (97 <=? Z.of_N (N_of_ascii c)) && (Z.of_N (N_of_ascii c) <=? 122).

(** [tolower] of <ctype.h> in the "C" locale. *)
Definition tolower (c : ascii) : ascii :=
  if is_upper c then ascii_of_N (N_of_ascii c + 32) else c.

Definition toupper (c : ascii) : ascii :=
  if is_lower c then ascii_of_N (N_of_ascii c - 32) else c.

(** Modelled from the spec: [Q_stricmp] is declared in a header that is not
    part of the file; the design document says names are compared
    case-insensitively.  As in the engine's string library, letters are
    folded to upper case before they are compared, and the result is the
    sign of the first difference (0 when there is none). *)
Fixpoint Q_stricmp (s1 s2 : string) : Z :=
  match s1, s2 with
  | EmptyString, EmptyString => 0
  | EmptyString, String c2 _ => if char_val (toupper c2) <? 0 then 1 else -1
  | String c1 _, EmptyString => if char_val (toupper c1) <? 0 then -1 else 1
  | String c1 r1, String c2 r2 =>
      if Ascii.eqb c1 c2 then Q_stricmp r1 r2
      else if Ascii.eqb (toupper c1) (toupper c2) then Q_stricmp r1 r2
      else if char_val (toupper c1) <? char_val (toupper c2) then -1 else 1
  end.

(** Modelled from the spec: [MAX_QPATH] comes from the engine's shared
    header; it is the "maximum name length" of the design document. *)
Definition MAX_QPATH : Z := 64.

Definition MAX_SHADERTEXT_HASH : Z := 2048.
Definition FILE_HASH_SIZE : Z := 1024.

(** The platform's path separator, [PATH_SEP] of the shared header:
    a backslash on Windows, a forward slash elsewhere. *)
Class Platform := { PATH_SEP : ascii }.

Definition path_sep_ok `{Platform} : Prop :=
  PATH_SEP = "/"%char \/ PATH_SEP = "\"%char.

(** ** The hash function *)

Section Hash.
Context `{Platform}.

(** The [while] loop of [generateHashValue]: [fname] is what is left of the
    name from position [i] on, [hash] the accumulator. *)
Fixpoint hash_loop (fname : string) (i : Z) (hash : Z) : Z :=
  match fname with
  | EmptyString => hash
  | String c rest =>
      let letter := tolower c in
      if Ascii.eqb letter "."%char then hash
      else
        let letter := if Ascii.eqb letter "\"%char then "/"%char else letter in
        let letter := if Ascii.eqb letter PATH_SEP then "/"%char else letter in
        hash_loop rest (wrap_int (i + 1))
                  (wrap_long (hash + char_val letter * (i + 119)))
  end.

Definition hash_fold (hash : Z) : Z :=
  Z.lxor (Z.lxor hash (Z.shiftr hash 10)) (Z.shiftr hash 20).

Definition generateHashValue (fname : string) (size : Z) : Z :=
  let hash := hash_loop fname 0 0 in
  let hash := hash_fold hash in
  let hash := Z.land hash (size - 1) in
  wrap_int hash.

End Hash.

(** ** Data model *)

(** [float] values are only stored and handed on by this file; a value is
    kept as its IEEE-754 bit pattern. *)
Definition float : Type := Z.

(** An [image_t *] that is not null: images are made by the image loader,
    and this file only passes them on. *)
Definition image_t : Type := nat.

(** What this file needs to know of the stage list of a shader: who filled
    it.  The stages themselves belong to the parser and to the back end. *)
Inductive stages_t : Type :=
  | NoStages
  | ParsedStages (text : string)
  | DefaultShadingCmds (name : string) (image : image_t).

(** A shader object.  A [shader_t *] is [None] (the null pointer) or
    [Some a], the place [a] of the object in the store of shader objects. *)
Record shader_t : Type := mk_shader {
  name : string;
  lightmapIndex : Z;
  index : Z;
  defaultShader : bool;
  remappedShader : option nat;
  timeOffset : float;
  next : option nat;
  stages : stages_t
}.

Definition set_next (n : option nat) (s : shader_t) : shader_t :=
  mk_shader (name s) (lightmapIndex s) (index s) (defaultShader s)
            (remappedShader s) (timeOffset s) n (stages s).

Definition set_remappedShader (r : option nat) (s : shader_t) : shader_t :=
  mk_shader (name s) (lightmapIndex s) (index s) (defaultShader s)
            r (timeOffset s) (next s) (stages s).

Definition set_timeOffset (t : float) (s : shader_t) : shader_t :=
  mk_shader (name s) (lightmapIndex s) (index s) (defaultShader s)
            (remappedShader s) t (next s) (stages s).

Definition set_defaultShader (b : bool) (s : shader_t) : shader_t :=
  mk_shader (name s) (lightmapIndex s) (index s) b
            (remappedShader s) (timeOffset s) (next s) (stages s).

Definition set_stages (g : stages_t) (s : shader_t) : shader_t :=
  mk_shader (name s) (lightmapIndex s) (index s) (defaultShader s)
            (remappedShader s) (timeOffset s) (next s) g.

Definition set_index (i : Z) (s : shader_t) : shader_t :=
  mk_shader (name s) (lightmapIndex s) i (defaultShader s)
            (remappedShader s) (timeOffset s) (next s) (stages s).

Inductive printLevel : Type := PRINT_ALL | PRINT_DEVELOPER | PRINT_WARNING.

(** The lines this file hands to [ri.Printf], one constructor per format
    string, with the arguments of the format. *)
Inductive message : Type :=
  | Msg_name_is_null
  | Msg_invalid_lightmap_index (name : string) (lightmapIndex : Z)
  | Msg_print_shader (name : string)
  | Msg_ParseShader_had_errors (name : string)
  | Msg_name_exceeds_MAX_QPATH
  | Msg_remap_not_found (name : string)
  | Msg_handle_out_of_range (h : Z).

(** The state the file works on: its four statics ([hashTable],
    [shaderTextHashTable], [s_shaderText] and the block the index lives
    in), the [tr] globals and the cvar it reads, the store of shader
    objects, the shader under construction ([shader] of tr_shader.c) and
    the lines printed so far. *)
Record state : Type := mk_state {
  heap : list shader_t;
  hashTable : gmap Z nat;
  shader : shader_t;
  tr_defaultShader : option nat;
  tr_numLightmaps : Z;
  tr_shaders : list nat;
  s_shaderText : option string;
  shaderTextHashTable : gmap Z nat;
  hashMem : list (option string);
  r_printShaders : Z;
  printed : list (printLevel * message)
}.

Definition with_heap (h : list shader_t) (st : state) : state :=
  mk_state h (hashTable st) (shader st) (tr_defaultShader st)
           (tr_numLightmaps st) (tr_shaders st) (s_shaderText st)
           (shaderTextHashTable st) (hashMem st) (r_printShaders st)
           (printed st).

Definition with_hashTable (t : gmap Z nat) (st : state) : state :=
  mk_state (heap st) t (shader st) (tr_defaultShader st)
           (tr_numLightmaps st) (tr_shaders st) (s_shaderText st)
           (shaderTextHashTable st) (hashMem st) (r_printShaders st)
           (printed st).

Definition with_shader (s : shader_t) (st : state) : state :=
  mk_state (heap st) (hashTable st) s (tr_defaultShader st)
           (tr_numLightmaps st) (tr_shaders st) (s_shaderText st)
           (shaderTextHashTable st) (hashMem st) (r_printShaders st)
           (printed st).

Definition with_tr_shaders (l : list nat) (st : state) : state :=
  mk_state (heap st) (hashTable st) (shader st) (tr_defaultShader st)
           (tr_numLightmaps st) l (s_shaderText st)
           (shaderTextHashTable st) (hashMem st) (r_printShaders st)
           (printed st).

Definition with_index (t : gmap Z nat) (m : list (option string))
    (st : state) : state :=
  mk_state (heap st) (hashTable st) (shader st) (tr_defaultShader st)
           (tr_numLightmaps st) (tr_shaders st) (s_shaderText st)
           t m (r_printShaders st) (printed st).

Definition with_printed (l : list (printLevel * message)) (st : state)
    : state :=
  mk_state (heap st) (hashTable st) (shader st) (tr_defaultShader st)
           (tr_numLightmaps st) (tr_shaders st) (s_shaderText st)
           (shaderTextHashTable st) (hashMem st) (r_printShaders st) l.

(** ** Commands

    A command runs on a state and gives a result and the next state, or
    nothing: [None] stands for a run that does not return (a read through
    a null or wild pointer, a write outside a block, a loop that does not
    end). *)
Definition M (A : Type) : Type := state -> option (A * state).

Definition ret {A : Type} (a : A) : M A := fun st => Some (a, st).

Definition bind {A B : Type} (m : M A) (k : A -> M B) : M B :=
  fun st => match m st with
            | Some (a, st') => k a st'
            | None => None
            end.

Definition fault {A : Type} : M A := fun _ => None.

Definition gets {A : Type} (f : state -> A) : M A := fun st => Some (f st, st).

Definition modify (f : state -> state) : M unit := fun st => Some (tt, f st).

Notation "'let*' x := m 'in' k" := (bind m (fun x => k))
  (at level 10, x name, m at level 100, k at level 200).
Notation "m >>> k" := (bind m (fun _ => k))
  (at level 62, right associativity).

(** [ri.Printf (level, ...)] *)
Definition Printf (level : printLevel) (msg : message) : M unit :=
  modify (fun st => with_printed (printed st ++ [(level, msg)]) st).

(** Reading through a [shader_t *]. *)
Definition deref (sh : option nat) : M shader_t :=
  fun st => match sh with
            | None => None
            | Some a => match heap st !! a with
                        | Some s => Some (s, st)
                        | None => None
                        end
            end.

(** Writing through a [shader_t *]. *)
Definition store (sh : option nat) (f : shader_t -> shader_t) : M unit :=
  fun st => match sh with
            | None => None
            | Some a => match heap st !! a with
                        | Some s => Some (tt, with_heap (<[a := f s]> (heap st)) st)
                        | None => None
                        end
            end.

(** ** Collaborators

    The tokenizer, the brace skipper, the shader parser, the image loader
    and the C library's [atof] are used by this file and defined elsewhere.
    A cursor into the shader text (a [const char *]) is the text from the
    cursor on. *)
Inductive wrapClampMode : Type := GL_REPEAT | GL_CLAMP.

Class Collaborators := {
  (** [R_ParseExt (&p, allowLineBreaks)]: the token, and where [p] is left *)
  R_ParseExt : string -> bool -> string * string;
  (** [SkipBracedSection (&p, depth)]: its result, and where [p] is left *)
  SkipBracedSection : string -> Z -> bool * string;
  (** [ParseShader (&text)]: whether the definition at the cursor parsed *)
  ParseShader : string -> bool;
  (** [R_FindImageFile (name, mipmap, allowPicmip, glWrapClampMode)] *)
  R_FindImageFile : string -> bool -> bool -> wrapClampMode -> option image_t;
  atof : string -> float
}.

(** Modelled from the spec: the lighting modes *screen-space*,
    *per-vertex-color* and *none* of the data model, which the renderer's
    header (not part of the file) defines as negative constants below
    every lightmap slot. *)
Definition LIGHTMAP_2D : Z := -4.
Definition LIGHTMAP_BY_VERTEX : Z := -3.
Definition LIGHTMAP_WHITEIMAGE : Z := -2.
Definition LIGHTMAP_NONE : Z := -1.

(** [strrchr]: the place of the last [c] in [s]. *)
Fixpoint strrchr (s : string) (c : ascii) : option nat :=
  match s with
  | EmptyString => None
  | String x rest =>
      match strrchr rest c with
      | Some k => Some (S k)
      | None => if Ascii.eqb x c then Some O else None
      end
  end.

Fixpoint strn (n : nat) (s : string) : string :=
  match n, s with
  | S n', String c rest => String c (strn n' rest)
  | _, _ => EmptyString
  end.

(** Modelled from the spec: [Q_strncpyz (dest, src, destsize)] of the
    engine's string library copies at most [destsize - 1] characters. *)
Definition Q_strncpyz (src : string) (destsize : Z) : string :=
  strn (Z.to_nat (destsize - 1)) src.

(** Modelled from the spec: [R_StripExtension (in, out, destsize)] is not
    part of the file; "strip any extension from name".  As in the engine's
    string library, the extension starts at the last '.', when no '/'
    follows it, and the result is cut to the size of the destination. *)
Definition R_StripExtension (inp : string) (destsize : Z) : string :=
  let destsize :=
    match strrchr inp "."%char with
    | Some dot =>
        match strrchr inp "/"%char with
        | Some slash =>
            if (slash <? dot)%nat then Z.min destsize (Z.of_nat dot + 1)
            else destsize
        | None => Z.min destsize (Z.of_nat dot + 1)
        end
    | None => destsize
    end in
  Q_strncpyz inp destsize.

Definition empty_shader : shader_t :=
  mk_shader EmptyString 0 0 false None 0 None NoStages.

(** ** The shader registry *)

Section Registry.
Context `{Platform} `{Collaborators}.

(** The chain walk shared by the three lookups: from [sh] along [next] to
    the first object that passes [test].  A chain cannot be longer than the
    store, which bounds the walk; a walk that would be longer does not
    end. *)
Fixpoint walk_chain (test : shader_t -> bool) (fuel : nat)
    (hp : list shader_t) (sh : option nat) : option (option nat) :=
  match sh with
  | None => Some None
  | Some a =>
      match fuel with
      | O => None
      | S fuel' =>
          match hp !! a with
          | None => None
          | Some s =>
              if test s then Some (Some a)
              else walk_chain test fuel' hp (next s)
          end
      end
  end.

Definition find_in_chain (test : shader_t -> bool) (hash : Z)
    : M (option nat) :=
  fun st =>
    match walk_chain test (length (heap st)) (heap st)
                     (hashTable st !! hash) with
    | Some r => Some (r, st)
    | None => None
    end.

(** Modelled from the spec: [R_SetTheShader (name, lightmapIndex)] of
    tr_shader.c starts the shader under construction: everything cleared,
    then the name (a [char [MAX_QPATH]]) and the lighting mode set. *)
Definition R_SetTheShader (name : string) (lightmapIndex : Z) : M unit :=
  modify (with_shader
            (mk_shader (Q_strncpyz name MAX_QPATH) lightmapIndex 0 false
                       None 0 None NoStages)).

(** Modelled from the spec: [R_SetDefaultShader] and [setDefaultShader]
    of tr_shader.c "mark the pending object as default-flagged".  (The
    comment in the cache walk speaks of the lighting mode of such an object
    as [LIGHTMAP_NONE]; whatever mode it is left with, the cache walk
    matches it by its flag.) *)
Definition R_SetDefaultShader : M unit :=
  modify (fun st => with_shader (set_defaultShader true (shader st)) st).

Definition setDefaultShader : M unit :=
  modify (fun st => with_shader (set_defaultShader true (shader st)) st).

(** Modelled from the spec: [R_CreateDefaultShadingCmds (name, image)]
    "synthesizes a minimal shading description" from the image. *)
Definition R_CreateDefaultShadingCmds (name : string) (image : image_t)
    : M unit :=
  modify (fun st =>
            with_shader (set_stages (DefaultShadingCmds name image)
                                    (shader st)) st).

(** The call [ParseShader (&shaderText)]: the parser fills the stages of
    the shader under construction from the text at the cursor and reports
    success. *)
Definition call_ParseShader (shaderText : string) : M bool :=
  modify (fun st =>
     with_shader (set_stages (ParsedStages shaderText) (shader st)) st) >>>
  ret (ParseShader shaderText).

(** *** The index over the shader text *)

(** The [for] loop of [FindShaderInShaderText] over
    [shaderTextHashTable[hash][i]], [i = 0, 1, ...]: [bucket] is the block
    from [shaderTextHashTable[hash]] on.  A null entry ends the loop; a
    read past the end of the block faults. *)
Fixpoint bucket_walk (shadername : string) (bucket : list (option string))
    : option (option string) :=
  match bucket with
  | [] => None
  | None :: _ => Some None
  | Some p :: rest =>
      let '(token, p') := R_ParseExt p true in
      if Q_stricmp token shadername =? 0 then Some (Some p')
      else bucket_walk shadername rest
  end.

(** The [while (1)] loop of [FindShaderInShaderText] over the whole text.
    Every round that goes on has read a token, so the length of the text
    bounds the rounds of a tokenizer that moves forward. *)
Fixpoint linear_scan (fuel : nat) (p : string) (shadername : string)
    : option (option string) :=
  match fuel with
  | O => None
  | S fuel' =>
      let '(token, p1) := R_ParseExt p true in
      match token with
      | EmptyString => Some None
      | _ =>
          if Q_stricmp token shadername =? 0 then Some (Some p1)
          else
            let '(_, p2) := SkipBracedSection p1 0 in
            linear_scan fuel' p2 shadername
      end
  end.

Definition FindShaderInShaderText (shadername : string)
    : M (option string) :=
  fun st =>
    let hash := generateHashValue shadername MAX_SHADERTEXT_HASH in
    match shaderTextHashTable st !! hash with
    | None => None
    | Some base =>
        match bucket_walk shadername (drop base (hashMem st)) with
        | None => None
        | Some (Some p) => Some (Some p, st)
        | Some None =>
            match s_shaderText st with
            | None => Some (None, st)
            | Some text =>
                match linear_scan (S (String.length text)) text shadername with
                | Some r => Some (r, st)
                | None => None
                end
            end
        end
    end.

(** [shaderTextHashTableSizes[hash]]: an index outside the array faults. *)
Definition array_get {A : Type} (l : list A) (i : Z) : option A :=
  if i <? 0 then None else l !! Z.to_nat i.

(** First loop of [SetShaderTextHashTableSizes]: count the definitions of
    each bucket, and all of them. *)
Fixpoint count_pass (fuel : nat) (p : string) (sizes : list nat)
    (size : nat) : option (list nat * nat) :=
  match fuel with
  | O => None
  | S fuel' =>
      let '(token, p1) := R_ParseExt p true in
      match token with
      | EmptyString => Some (sizes, size)
      | _ =>
          let hash := generateHashValue token MAX_SHADERTEXT_HASH in
          match array_get sizes hash with
          | None => None
          | Some n =>
              let sizes := <[Z.to_nat hash := S n]> sizes in
              let size := S size in
              let '(_, p2) := SkipBracedSection p1 0 in
              count_pass fuel' p2 sizes size
          end
      end
  end.

(** The [for] loop that cuts the block into one array per bucket:
    [shaderTextHashTable[i] = hashMem; hashMem += sizes[i] + 1]. *)
Fixpoint assign_buckets (sizes : list nat) (i : Z) (hashMem_at : nat)
    (table : gmap Z nat) : gmap Z nat :=
  match sizes with
  | [] => table
  | n :: rest =>
      assign_buckets rest (i + 1) (hashMem_at + (n + 1))%nat
                     (<[i := hashMem_at]> table)
  end.

(** Second loop: write the cursor of each definition into the next free
    slot of its bucket.  A write outside the block faults. *)
Fixpoint fill_pass (fuel : nat) (p : string) (table : gmap Z nat)
    (sizes : list nat) (mem : list (option string))
    : option (list (option string)) :=
  match fuel with
  | O => None
  | S fuel' =>
      let oldp := p in
      let '(token, p1) := R_ParseExt p true in
      match token with
      | EmptyString => Some mem
      | _ =>
          let hash := generateHashValue token MAX_SHADERTEXT_HASH in
          match table !! hash, array_get sizes hash with
          | Some base, Some n =>
              if (base + n <? length mem)%nat then
                let mem := <[(base + n)%nat := Some oldp]> mem in
                let sizes := <[Z.to_nat hash := S n]> sizes in
                let '(_, p2) := SkipBracedSection p1 0 in
                fill_pass fuel' p2 table sizes mem
              else None
          | _, _ => None
          end
      end
  end.

(** [SetShaderTextHashTableSizes]: the block from [ri.Hunk_Alloc] comes
    zeroed, every slot a null cursor.  The function is called once the
    text has been built. *)
Definition SetShaderTextHashTableSizes : M unit :=
  fun st =>
    match s_shaderText st with
    | None => None
    | Some text =>
        let zeroes := replicate (Z.to_nat MAX_SHADERTEXT_HASH) O in
        match count_pass (S (String.length text)) text zeroes O with
        | None => None
        | Some (shaderTextHashTableSizes, size) =>
            let size := (size + Z.to_nat MAX_SHADERTEXT_HASH)%nat in
            let hashMem := replicate size None in
            let table :=
              assign_buckets shaderTextHashTableSizes 0 O
                             (shaderTextHashTable st) in
            match fill_pass (S (String.length text)) text table zeroes
                            hashMem with
            | None => None
            | Some mem => Some (tt, with_index table mem st)
            end
        end
    end.

(** *** The cache of shader objects *)

Definition R_ClearShaderHashTable : M unit :=
  modify (with_hashTable ∅).

Definition R_UpdateShaderHashTable (newShader : option nat) : M unit :=
  let* s := deref newShader in
  let hash := generateHashValue (name s) FILE_HASH_SIZE in
  let* head := gets (fun st => hashTable st !! hash) in
  store newShader (set_next head) >>>
  match newShader with
  | Some a => modify (fun st => with_hashTable (<[hash := a]> (hashTable st)) st)
  | None => modify (fun st => with_hashTable (delete hash (hashTable st)) st)
  end.

(** Modelled from the spec: [FinishShader] of tr_shader.c.  "Finalize and
    insert the new object at the head of its cache bucket chain
    (most-recent-first), assign it the next stable index, and return it":
    the shader under construction becomes a new object of the store, gets
    the next place of [tr.shaders] as its index, and is entered in the
    cache by [R_UpdateShaderHashTable]. *)
Definition FinishShader : M (option nat) :=
  let* pending := gets shader in
  let* numShaders := gets (fun st => length (tr_shaders st)) in
  let* newShader := gets (fun st => length (heap st)) in
  modify (fun st =>
    with_heap (heap st ++ [set_index (Z.of_nat numShaders) pending]) st) >>>
  modify (fun st => with_tr_shaders (tr_shaders st ++ [newShader]) st) >>>
  R_UpdateShaderHashTable (Some newShader) >>>
  ret (Some newShader).

(** Modelled from the spec: [R_GetShaderByHandle] of tr_shader.c gives
    "the handle-wrapped object": the entry of [tr.shaders] for a handle in
    range, the default shader (with a warning) otherwise. *)
Definition R_GetShaderByHandle (hShader : Z) : M (option nat) :=
  let* l := gets tr_shaders in
  if (hShader <? 0) || (Z.of_nat (length l) <=? hShader) then
    Printf PRINT_WARNING (Msg_handle_out_of_range hShader) >>>
    gets tr_defaultShader
  else
    match l !! Z.to_nat hShader with
    | Some a => ret (Some a)
    | None => fault
    end.

(** The test of the cache walk of [R_FindShader]:
    [0 == Q_stricmp (sh->name, strippedName) &&
     (sh->lightmapIndex == lightmapIndex || sh->defaultShader)]. *)
Definition already_loaded (strippedName : string) (mode : Z)
    (sh : shader_t) : bool :=
  (Q_stricmp (name sh) strippedName =? 0)
  && ((lightmapIndex sh =? mode) || defaultShader sh).

(** The test of the cache walk of [R_RegisterShaderFromImage]:
    [(sh->lightmapIndex == lightmapIndex || sh->defaultShader) &&
     !Q_stricmp (sh->name, name)]. *)
Definition already_loaded_image (given : string) (mode : Z)
    (sh : shader_t) : bool :=
  ((lightmapIndex sh =? mode) || defaultShader sh)
  && (Q_stricmp (name sh) given =? 0).

(** The test of the walks of [RE_RemapShader]:
    [Q_stricmp (sh->name, strippedName) == 0]. *)
Definition same_name (strippedName : string) (sh : shader_t) : bool :=
  Q_stricmp (name sh) strippedName =? 0.

(** The two tests on [lightmapIndex] at the head of [R_FindShader]: the
    lighting mode the rest of the function works with. *)
Definition clamp_lightmapIndex (name : string) (lightmapIndex : Z) : M Z :=
  let* numLightmaps := gets tr_numLightmaps in
  if (lightmapIndex >=? 0) && (lightmapIndex >=? numLightmaps) then
    ret LIGHTMAP_BY_VERTEX
  else if lightmapIndex <? LIGHTMAP_2D then
    Printf PRINT_WARNING (Msg_invalid_lightmap_index name lightmapIndex) >>>
    ret LIGHTMAP_BY_VERTEX
  else ret lightmapIndex.

(** The second half of [R_FindShader], after the cache had no object for
    the name: define the shader from the shader text, or from an image of
    that name, or as the default, and enter it. *)
Definition load_shader (name strippedName : string) (lightmapIndex : Z)
    (mipRawImage : bool) : M (option nat) :=
  R_SetTheShader strippedName lightmapIndex >>>
  let* shaderText := FindShaderInShaderText strippedName in
  match shaderText with
  | Some shaderText =>
      let* printShaders := gets r_printShaders in
      (if printShaders =? 0 then ret tt
       else Printf PRINT_ALL (Msg_print_shader name)) >>>
      let* ok := call_ParseShader shaderText in
      (if ok then ret tt
       else R_SetDefaultShader >>>
            Printf PRINT_WARNING
                   (Msg_ParseShader_had_errors strippedName)) >>>
      FinishShader
  | None =>
      let image :=
        R_FindImageFile name mipRawImage mipRawImage
                        (if mipRawImage then GL_REPEAT else GL_CLAMP) in
      match image with
      | Some image => R_CreateDefaultShadingCmds name image
      | None => setDefaultShader
      end >>>
      FinishShader
  end.

Definition R_FindShader (name : option string) (lightmapIndex : Z)
    (mipRawImage : bool) : M (option nat) :=
  match name with
  | None =>
      Printf PRINT_WARNING Msg_name_is_null >>>
      gets tr_defaultShader
  | Some name =>
      let* lightmapIndex := clamp_lightmapIndex name lightmapIndex in
      let strippedName := R_StripExtension name MAX_QPATH in
      let hash := generateHashValue strippedName FILE_HASH_SIZE in
      let* sh :=
        find_in_chain (already_loaded strippedName lightmapIndex) hash in
      match sh with
      | Some a => ret (Some a)
      | None => load_shader name strippedName lightmapIndex mipRawImage
      end
  end.

Definition RE_RegisterShader (name : string) : M Z :=
  if Z.of_nat (String.length name) >=? MAX_QPATH then
    Printf PRINT_ALL Msg_name_exceeds_MAX_QPATH >>>
    ret 0
  else
    let* sh := R_FindShader (Some name) LIGHTMAP_2D true in
    let* s := deref sh in
    if defaultShader s then ret 0 else ret (index s).

Definition RE_RegisterShaderNoMip (name : string) : M Z :=
  if Z.of_nat (String.length name) >=? MAX_QPATH then
    Printf PRINT_ALL Msg_name_exceeds_MAX_QPATH >>>
    ret 0
  else
    let* sh := R_FindShader (Some name) LIGHTMAP_2D false in
    let* s := deref sh in
    if defaultShader s then ret 0 else ret (index s).

Definition R_RegisterShaderFromImage (name : string) (lightmapIndex : Z)
    (image : image_t) (mipRawImage : bool) : M Z :=
  let hash := generateHashValue name FILE_HASH_SIZE in
  let* sh :=
    find_in_chain (already_loaded_image name lightmapIndex) hash in
  match sh with
  | Some a =>
      let* s := deref (Some a) in
      ret (index s)
  | None =>
      R_SetTheShader name lightmapIndex >>>
      R_CreateDefaultShadingCmds name image >>>
      let* sh := FinishShader in
      let* s := deref sh in
      ret (index s)
  end.

(** The second loop of [RE_RemapShader]: every object of the chain from
    [sh] on whose name is [strippedName] gets [sh2] as its remap, or no
    remap when it is [sh2] itself. *)
Fixpoint remap_chain (strippedName : string) (sh2 : option nat)
    (fuel : nat) (hp : list shader_t) (sh : option nat)
    : option (list shader_t) :=
  match sh with
  | None => Some hp
  | Some a =>
      match fuel with
      | O => None
      | S fuel' =>
          match hp !! a with
          | None => None
          | Some s =>
              let hp :=
                if same_name strippedName s then
                  if bool_decide (sh = sh2) then
                    <[a := set_remappedShader None s]> hp
                  else <[a := set_remappedShader sh2 s]> hp
                else hp in
              remap_chain strippedName sh2 fuel' hp (next s)
          end
      end
  end.

(** The first half of [RE_RemapShader]: the object [sh2] the names are
    remapped to.  The cache is asked for the stripped target name alone,
    whatever the lighting mode; when that gives nothing but the default
    shader, [R_FindShader] is asked, and its handle looked up. *)
Definition remap_target (newShaderName : string) : M (option nat) :=
  let* default := gets tr_defaultShader in
  let sh2 := default in
  let strippedName := R_StripExtension newShaderName MAX_QPATH in
  let hash := generateHashValue strippedName FILE_HASH_SIZE in
  let* sh := find_in_chain (same_name strippedName) hash in
  let sh2 := match sh with Some a => Some a | None => sh2 end in
  if bool_decide (sh2 = default) then
    let* sh := R_FindShader (Some newShaderName) 0 true in
    let* s := deref sh in
    let h := if defaultShader s then 0 else index s in
    let* sh2 := R_GetShaderByHandle h in
    let* default := gets tr_defaultShader in
    (if bool_decide (sh2 = default) || bool_decide (sh2 = None) then
       Printf PRINT_WARNING (Msg_remap_not_found newShaderName)
     else ret tt) >>>
    ret sh2
  else ret sh2.

Definition RE_RemapShader (shaderName newShaderName : string)
    (timeOffset : option string) : M unit :=
  let* sh2 := remap_target newShaderName in
  let strippedName := R_StripExtension shaderName MAX_QPATH in
  let hash := generateHashValue strippedName FILE_HASH_SIZE in
  (fun st =>
     match remap_chain strippedName sh2 (length (heap st)) (heap st)
                       (hashTable st !! hash) with
     | Some hp => Some (tt, with_heap hp st)
     | None => None
     end) >>>
  match timeOffset with
  | Some t => store sh2 (set_timeOffset (atof t))
  | None => ret tt
  end.

End Registry.

(** ** Names that the hash cannot tell apart *)

(** Two names differ only in letter case: the same length, and at each
    place the same character once case is dropped. *)
Inductive differ_only_in_case : string -> string -> Prop :=
  | case_end : differ_only_in_case EmptyString EmptyString
  | case_step (c1 c2 : ascii) (r1 r2 : string) :
      tolower c1 = tolower c2 ->
      differ_only_in_case r1 r2 ->
      differ_only_in_case (String c1 r1) (String c2 r2).

Definition is_separator `{Platform} (c : ascii) : Prop :=
  c = "/"%char \/ c = "\"%char \/ c = PATH_SEP.

(** Two names differ only in the style of their path separators. *)
Inductive differ_only_in_separators `{Platform} : string -> string -> Prop :=
  | sep_end : differ_only_in_separators EmptyString EmptyString
  | sep_same (c : ascii) (r1 r2 : string) :
      differ_only_in_separators r1 r2 ->
      differ_only_in_separators (String c r1) (String c r2)
  | sep_swap (c1 c2 : ascii) (r1 r2 : string) :
      is_separator c1 -> is_separator c2 ->
      differ_only_in_separators r1 r2 ->
      differ_only_in_separators (String c1 r1) (String c2 r2).

Fixpoint has_char (c : ascii) (s : string) : bool :=
  match s with
  | EmptyString => false
  | String x rest => Ascii.eqb x c || has_char c rest
  end.

(** The letter the loop of [generateHashValue] adds for the character [c]:
    none at the '.' that ends the loop. *)
Definition hash_letter `{Platform} (c : ascii) : option ascii :=
  let letter := tolower c in
  if Ascii.eqb letter "."%char then None
  else
    let letter := if Ascii.eqb letter "\"%char then "/"%char else letter in
    let letter := if Ascii.eqb letter PATH_SEP then "/"%char else letter in
    Some letter.

(** ** The definitions of the shader text *)

(** A definition as the loops over the text meet it: the cursor in front
    of its name, the name token, and the cursor behind the name token
    (where the braced body starts). *)
Record definition_t : Type := mk_definition {
  def_at : string;
  def_name : string;
  def_body : string
}.

Section Definitions.
Context `{Platform} `{Collaborators}.

(** The definitions from the cursor [p] on, in the order of the text, as
    the three loops ([SetShaderTextHashTableSizes] twice, the scan of
    [FindShaderInShaderText]) step through them: read a name, stop at the
    empty token, skip a braced section. *)
Fixpoint definitions (fuel : nat) (p : string) : option (list definition_t) :=
  match fuel with
  | O => None
  | S fuel' =>
      let '(token, p1) := R_ParseExt p true in
      match token with
      | EmptyString => Some []
      | _ =>
          let '(_, p2) := SkipBracedSection p1 0 in
          match definitions fuel' p2 with
          | Some rest => Some (mk_definition p token p1 :: rest)
          | None => None
          end
      end
  end.

Definition bucket_of (d : definition_t) : Z :=
  generateHashValue (def_name d) MAX_SHADERTEXT_HASH.

(** The definitions of [ds] whose name hashes to bucket [b], in the order
    of the text. *)
Definition bucket_defs (ds : list definition_t) (b : Z) : list definition_t :=
  filter (fun d => bucket_of d = b) ds.

(** The first definition of [ds] whose name is [shadername], up to case. *)
Fixpoint find_definition (shadername : string) (ds : list definition_t)
    : option definition_t :=
  match ds with
  | [] => None
  | d :: rest =>
      if Q_stricmp (def_name d) shadername =? 0 then Some d
      else find_definition shadername rest
  end.

(** The tokenizer moves forward: a token that is not empty has been read
    from the text, and no call moves the cursor back. *)
Definition tokenizer_advances : Prop :=
  forall p b token p',
    R_ParseExt p b = (token, p') ->
    (String.length p' <= String.length p)%nat
    /\ (token <> EmptyString -> (String.length p' < String.length p)%nat).

Definition skipper_advances : Prop :=
  forall p depth ok p',
    SkipBracedSection p depth = (ok, p') ->
    (String.length p' <= String.length p)%nat.

End Definitions.

(** Number of buckets of the index. *)
Definition buckets : nat := Z.to_nat MAX_SHADERTEXT_HASH.

(** Where the array of bucket [i] starts in the block, for the counts
    [sizes]: each bucket before it takes its count and one more slot. *)
Fixpoint bucket_base (sizes : list nat) (i : nat) : nat :=
  match i, sizes with
  | S i', n :: rest => (n + 1 + bucket_base rest i')%nat
  | _, _ => O
  end.

(** The counts of the first loop for the definitions [ds]. *)
Definition bucket_sizes `{Platform} (ds : list definition_t) : list nat :=
  (fun i : nat => length (filter (fun d => @bucket_of _ d = Z.of_nat i) ds))
    <$> seq 0 buckets.

(** The block while the second loop runs, for the final counts [sizes]
    and the definitions [done] entered so far: slot [k] of bucket [i]
    holds the cursor of the [k]-th definition of that bucket, or null. *)
Definition index_inv `{Platform} (sizes : list nat) (done : list definition_t)
    (mem : list (option string)) : Prop :=
  length mem = bucket_base sizes buckets
  /\ forall i k n,
       (i < buckets)%nat -> sizes !! i = Some n -> (k <= n)%nat ->
       mem !! (bucket_base sizes i + k)%nat
       = Some (def_at <$> @bucket_defs _ done (Z.of_nat i) !! k).

(** The state holds the text [text], whose definitions are [ds], and the
    index that [SetShaderTextHashTableSizes] builds for it. *)
Definition indexed `{Platform} `{Collaborators} (st : state) (text : string)
    (ds : list definition_t) : Prop :=
  s_shaderText st = Some text
  /\ definitions (S (String.length text)) text = Some ds
  /\ index_inv (bucket_sizes ds) ds (hashMem st)
  /\ forall i, (i < buckets)%nat ->
       shaderTextHashTable st !! Z.of_nat i
       = Some (bucket_base (bucket_sizes ds) i).

(** ** The shape of the cache *)

(** [chain_from hp a b]: the walk along [next] from the object at [a]
    reaches the object at [b] (after no step, or more). *)
Inductive chain_from (hp : list shader_t) : nat -> nat -> Prop :=
  | chain_here (a : nat) (s : shader_t) :
      hp !! a = Some s -> chain_from hp a a
  | chain_next (a c b : nat) (s : shader_t) :
      hp !! a = Some s -> next s = Some c -> chain_from hp c b ->
      chain_from hp a b.

(** [b] comes after [a] in the chain of [a]. *)
Definition behind (hp : list shader_t) (a b : nat) : Prop :=
  exists s c, hp !! a = Some s /\ next s = Some c /\ chain_from hp c b.

(** The object at [a] is in the chain of bucket [b] of the cache. *)
Definition cached (st : state) (b : Z) (a : nat) : Prop :=
  exists h, hashTable st !! b = Some h /\ chain_from (heap st) h a.

(** Objects are only ever entered at the head of a chain, so a [next]
    points at an older object. *)
Definition heap_ok (hp : list shader_t) : Prop :=
  forall a s c, hp !! a = Some s -> next s = Some c -> (c < a)%nat.

Definition table_ok (st : state) : Prop :=
  forall b h, hashTable st !! b = Some h -> (h < length (heap st))%nat.

(** No object stands in front of a default-flagged object of the same
    name. *)
Definition default_first (hp : list shader_t) : Prop :=
  forall a b sa sb,
    behind hp a b -> hp !! a = Some sa -> hp !! b = Some sb ->
    defaultShader sb = true -> Q_stricmp (name sa) (name sb) <> 0.

(** An object is in the chain of the bucket its name hashes to. *)
Definition bucket_ok `{Platform} (st : state) : Prop :=
  forall b a s,
    cached st b a -> heap st !! a = Some s ->
    generateHashValue (name s) FILE_HASH_SIZE = b.

Record registry_ok `{Platform} (st : state) : Prop := mk_registry_ok {
  ok_heap : heap_ok (heap st);
  ok_table : table_ok st;
  ok_default_first : default_first (heap st);
  ok_bucket : bucket_ok st
}.

(** What a call leaves alone besides the store, the cache and the handle
    table. *)
Definition same_world (st st' : state) : Prop :=
  tr_defaultShader st' = tr_defaultShader st
  /\ tr_numLightmaps st' = tr_numLightmaps st
  /\ s_shaderText st' = s_shaderText st
  /\ shaderTextHashTable st' = shaderTextHashTable st
  /\ hashMem st' = hashMem st
  /\ r_printShaders st' = r_printShaders st.

(** The cache, the store and the handle table are as they were. *)
Definition same_registry (st st' : state) : Prop :=
  heap st' = heap st /\ hashTable st' = hashTable st
  /\ tr_shaders st' = tr_shaders st.

(** ** A small world to run the functions in

    A tokenizer that cuts the text at white space, the brace skipper over
    it, a parser that accepts a definition that opens with a brace, an
    image loader that knows one image, and a state with the default shader
    and a text of three definitions. *)
Definition is_space (c : ascii) : bool := Z.of_N (N_of_ascii c) <=? 32.

Fixpoint skip_space (p : string) : string :=
  match p with
  | String c rest => if is_space c then skip_space rest else p
  | EmptyString => EmptyString
  end.

Fixpoint read_word (p : string) : string * string :=
  match p with
  | String c rest =>
      if is_space c then (EmptyString, p)
      else let '(w, q) := read_word rest in (String c w, q)
  | EmptyString => (EmptyString, EmptyString)
  end.

Definition word_ParseExt (p : string) (allowLineBreaks : bool)
    : string * string :=
  read_word (skip_space p).

Fixpoint word_skip (fuel : nat) (p : string) (depth : Z) : bool * string :=
  match fuel with
  | O => (depth =? 0, p)
  | S fuel' =>
      let '(token, p) := word_ParseExt p true in
      let depth :=
        if String.eqb token "{" then depth + 1
        else if String.eqb token "}" then depth - 1
        else depth in
      if (depth =? 0) || (Nat.eqb (String.length p) 0) then (depth =? 0, p)
      else word_skip fuel' p depth
  end.

Definition word_SkipBracedSection (p : string) (depth : Z) : bool * string :=
  word_skip (S (String.length p)) p depth.

Definition posix : Platform := {| PATH_SEP := "/"%char |}.

Definition example_collaborators : Collaborators := {|
  R_ParseExt := word_ParseExt;
  SkipBracedSection := word_SkipBracedSection;
  ParseShader := fun text =>
    match skip_space text with
    | String "{" _ => true
    | _ => false
    end;
  R_FindImageFile := fun given _ _ _ =>
    if String.eqb given "wall.tga" then Some 7%nat else None;
  atof := fun text => if String.eqb text "1.5" then 1069547520 else 0
|}.

Definition default_shader_object : shader_t :=
  mk_shader "<default>" LIGHTMAP_NONE 0 false None 0 None NoStages.

(** The statics as the C run time leaves them, and the default shader in
    place: no shader text, no index. *)
Definition boot_state : state :=
  mk_state [default_shader_object]
           {[ @generateHashValue posix "<default>" FILE_HASH_SIZE := O ]}
           empty_shader (Some O) 1 [O] None ∅ [] 0 [].

Definition example_text : string :=
  "textures/glass { map a } models/metal { { x } } bad/one x".

(** The state once the text is in place. *)
Definition example_text_state : state :=
  mk_state [default_shader_object]
           {[ @generateHashValue posix "<default>" FILE_HASH_SIZE := O ]}
           empty_shader (Some O) 1 [O] (Some example_text) ∅ [] 0 [].

(** The state once the text is indexed. *)
Definition example_state : state :=
  match @SetShaderTextHashTableSizes posix example_collaborators
          example_text_state with
  | Some (_, st) => st
  | None => boot_state
  end.

(** The state a command leaves, for a command that returns. *)
Definition state_after {A : Type} (m : M A) (st : state) : state :=
  match m st with
  | Some (_, st') => st'
  | None => st
  end.

(** ** What the pieces of [R_FindShader] compute *)

(** The lighting mode [R_FindShader] works with, for [numLightmaps]
    lightmaps and the mode asked for. *)
Definition effective_mode (numLightmaps mode : Z) : Z :=
  if (mode >=? 0) && (mode >=? numLightmaps) then LIGHTMAP_BY_VERTEX
  else if mode <? LIGHTMAP_2D then LIGHTMAP_BY_VERTEX
  else mode.

(** The lines the tests on the lighting mode print. *)
Definition clamp_warning (given : string) (numLightmaps mode : Z)
    : list (printLevel * message) :=
  if (mode >=? 0) && (mode >=? numLightmaps) then []
  else if mode <? LIGHTMAP_2D then
    [(PRINT_WARNING, Msg_invalid_lightmap_index given mode)]
  else [].

(** The state after the tests on the lighting mode. *)
Definition clamp_state (given : string) (mode : Z) (st : state) : state :=
  match clamp_warning given (tr_numLightmaps st) mode with
  | [] => st
  | w => with_printed (printed st ++ w) st
  end.

(** The state [FinishShader] leaves: the shader under construction is the
    new last object of the store and the head of the chain of its bucket. *)
Definition finished `{Platform} (st : state) : state :=
  let newShader := length (heap st) in
  let s := set_index (Z.of_nat (length (tr_shaders st))) (shader st) in
  let hash := generateHashValue (name s) FILE_HASH_SIZE in
  mk_state (heap st ++ [set_next (hashTable st !! hash) s])
           (<[hash := newShader]> (hashTable st))
           (shader st) (tr_defaultShader st) (tr_numLightmaps st)
           (tr_shaders st ++ [newShader]) (s_shaderText st)
           (shaderTextHashTable st) (hashMem st) (r_printShaders st)
           (printed st).



(** Two objects that differ at most in their remap reference and their
    time offset, and two stores of such objects. *)
Definition same_links (s s' : shader_t) : Prop :=
  name s' = name s /\ next s' = next s
  /\ defaultShader s' = defaultShader s
  /\ lightmapIndex s' = lightmapIndex s /\ index s' = index s.

Definition same_shape (hp hp' : list shader_t) : Prop :=
  Forall2 same_links hp hp'.

(** The remap reference [RE_RemapShader] gives the object at [a] for the
    target [sh2]. *)
Definition remap_of (sh2 : option nat) (a : nat) : option nat :=
  if bool_decide (Some a = sh2) then None else sh2.

(** The example state after [R_FindShader] has been asked for a name that
    has neither a definition nor an image. *)
Definition example_missing_state : state :=
  state_after (@R_FindShader posix example_collaborators
                 (Some "missing.tga") 0 true) example_state.

(** The example state after [R_FindShader] has made a shader from the
    image "wall.tga". *)
Definition example_wall_state : state :=
  state_after (@R_FindShader posix example_collaborators
                 (Some "wall.tga") 0 true) example_state.


(** ** Runs of the operations

    The operations on the cache that the file exports, as a caller may
    string them together. *)
Inductive call : Type :=
  | Call_R_FindShader (given : option string) (mode : Z) (mip : bool)
  | Call_RE_RegisterShader (given : string)
  | Call_RE_RegisterShaderNoMip (given : string)
  | Call_R_RegisterShaderFromImage (given : string) (mode : Z)
      (image : image_t) (mip : bool)
  | Call_RE_RemapShader (shaderName newShaderName : string)
      (offset : option string)
  | Call_R_ClearShaderHashTable.

Definition run_call `{Platform} `{Collaborators} (c : call) : M unit :=
  match c with
  | Call_R_FindShader given mode mip => R_FindShader given mode mip >>> ret tt
  | Call_RE_RegisterShader given => RE_RegisterShader given >>> ret tt
  | Call_RE_RegisterShaderNoMip given =>
      RE_RegisterShaderNoMip given >>> ret tt
  | Call_R_RegisterShaderFromImage given mode image mip =>
      R_RegisterShaderFromImage given mode image mip >>> ret tt
  | Call_RE_RemapShader shaderName newShaderName offset =>
      RE_RemapShader shaderName newShaderName offset
  | Call_R_ClearShaderHashTable => R_ClearShaderHashTable
  end.

Fixpoint run_calls `{Platform} `{Collaborators} (cs : list call) : M unit :=
  match cs with
  | [] => ret tt
  | c :: rest => run_call c >>> run_calls rest
  end.

(** The name of a shader made from an image fits the name field of a
    shader object. *)
Definition name_fits (c : call) : Prop :=
  match c with
  | Call_R_RegisterShaderFromImage given _ _ _ =>
      Z.of_nat (String.length given) < MAX_QPATH
  | _ => True
  end.

(** Every object of the store [hp] is an object of [hp'], at the same
    place and with the same name, links, flag, lighting mode and index. *)
Definition objects_kept (hp hp' : list shader_t) : Prop :=
  forall a s, hp !! a = Some s ->
              exists s', hp' !! a = Some s' /\ same_links s s'.

(** ** The loader of the shader files

    [ScanAndLoadShaderFiles] reads the shader files through the imports
    of the renderer, checks each one with [Shader_DoSimpleCheck], joins
    them with [BuildSingleLargeBuffer] into the one text that the rest of
    the file works on, and has [SetShaderTextHashTableSizes] index it. *)

(** What the loader uses and this file does not define: the file system
    of the engine, the compressor of the text and the line counter of
    the tokenizer. *)
Class Imports := {
  (** [ri.FS_ListFiles (directory, extension, &numfiles)]: the names it
      has found, [numfiles] of them, or null *)
  FS_ListFiles : string -> string -> option (list string);
  (** [ri.FS_ReadFile (qpath, &buffer)]: the size it returns, and the
      buffer it has filled, or null *)
  FS_ReadFile : string -> Z * option string;
  (** [R_Compress (text)]: the text it leaves in the place of [text] *)
  R_Compress : string -> string;
  (** [R_GetCurrentParseLine ()]: the line that the parse session begun
      on the first text has reached with the cursor at the second *)
  R_GetCurrentParseLine : string -> string -> Z
}.

Definition MAX_SHADER_FILES : Z := 4096.

(** The lines the loader hands to [ri.Printf], one constructor per format
    string, and what it hands to [FunLogging]. *)
Inductive loader_message : Type :=
  | Msg_ScanAndLoadShaderFiles
  | Msg_no_shader_files_found
  | Msg_numShaderFiles_exceeds_MAX_SHADER_FILES
  | Msg_loading (filename : string)
  | Msg_missing_opening_brace (file shaderName : string) (shaderLine : Z)
  | Msg_found (token : string) (line : Z)
  | Msg_full_stop
  | Msg_missing_closing_brace (file shaderName : string) (shaderLine : Z).

Inductive loader_event : Type :=
  | Ev_Printf (level : printLevel) (msg : loader_message)
  | Ev_FunLogging (file text : string).

(** [ri.Error (ERR_DROP, "Couldn't load %s", filename)] *)
Inductive loader_error : Type :=
  | Err_could_not_load (filename : string).

Record loader_state : Type := mk_loader {
  statics : state;
  events : list loader_event
}.

(** A command of the loader returns, or is left through [ri.Error], or
    does not return (as a command of the registry that gives [None]). *)
Inductive outcome (A : Type) : Type :=
  | Returned (a : A) (ls : loader_state)
  | Dropped (err : loader_error) (ls : loader_state)
  | Faulted.
Arguments Returned {A} a ls.
Arguments Dropped {A} err ls.
Arguments Faulted {A}.

Definition L (A : Type) : Type := loader_state -> outcome A.

Definition Lret {A : Type} (a : A) : L A := fun ls => Returned a ls.

Definition Lbind {A B : Type} (m : L A) (k : A -> L B) : L B :=
  fun ls => match m ls with
            | Returned a ls' => k a ls'
            | Dropped err ls' => Dropped err ls'
            | Faulted => Faulted
            end.

Notation "'let+' x := m 'in' k" := (Lbind m (fun x => k))
  (at level 10, x name, m at level 100, k at level 200).
Notation "m >+> k" := (Lbind m (fun _ => k))
  (at level 62, right associativity).

Definition Lprintf (level : printLevel) (msg : loader_message) : L unit :=
  fun ls => Returned tt (mk_loader (statics ls)
                                   (events ls ++ [Ev_Printf level msg])).

Definition FunLogging (file : string) (text : string) : L unit :=
  fun ls => Returned tt (mk_loader (statics ls)
                                   (events ls ++ [Ev_FunLogging file text])).

Definition Error_drop {A : Type} (err : loader_error) : L A :=
  fun ls => Dropped err ls.

(** A command of the registry, run by the loader. *)
Definition lift {A : Type} (m : M A) : L A :=
  fun ls => match m (statics ls) with
            | Some (a, st) => Returned a (mk_loader st (events ls))
            | None => Faulted
            end.

Definition with_s_shaderText (text : option string) (st : state) : state :=
  mk_state (heap st) (hashTable st) (shader st) (tr_defaultShader st)
           (tr_numLightmaps st) (tr_shaders st) text
           (shaderTextHashTable st) (hashMem st) (r_printShaders st)
           (printed st).

(** *** The block of the text, byte by byte *)

Definition NUL : ascii := Ascii.zero.

(** [strlen] on the bytes from a place on: the number of bytes before the
    first terminator; a read past the end of the block faults. *)
Fixpoint c_strlen (bytes : list ascii) : option nat :=
  match bytes with
  | [] => None
  | c :: rest => if Ascii.eqb c NUL then Some O else S <$> c_strlen rest
  end.

(** Writing [bytes] into the block from place [dest] on; a write past the
    end of the block faults. *)
Definition poke (block : list ascii) (dest : nat) (bytes : list ascii)
    : option (list ascii) :=
  if (dest + length bytes <=? length block)%nat then
    Some (take dest block ++ bytes ++ drop (dest + length bytes) block)
  else None.

(** [strcat (dest, src)], with [dest] a place in the block: [src] and its
    terminator go where the string at [dest] ends. *)
Definition strcat (block : list ascii) (dest : nat) (src : string)
    : option (list ascii) :=
  match c_strlen (drop dest block) with
  | None => None
  | Some k => poke block (dest + k) (list_ascii_of_string src ++ [NUL])
  end.

(** The string at the start of the block. *)
Definition c_string (block : list ascii) : option string :=
  match c_strlen block with
  | Some k => Some (string_of_list_ascii (take k block))
  | None => None
  end.

Definition newline : string := String "010"%char EmptyString.

(** The [for] loop of [BuildSingleLargeBuffer], [n] running from
    [nShaderFiles - 1] down to 0; the argument of the loop is [n + 1]. *)
Fixpoint concat_buffers (buffers : list (option string)) (n1 : nat)
    (block : list ascii) (textEnd : nat) : option (list ascii) :=
  match n1 with
  | O => Some block
  | S n =>
      match buffers !! n with
      | None => None
      | Some None => concat_buffers buffers n block textEnd
      | Some (Some b) =>
          match strcat block textEnd b with
          | None => None
          | Some block =>
              match strcat block textEnd newline with
              | None => None
              | Some block =>
                  concat_buffers buffers n block
                                 (textEnd + (String.length b + 1))%nat
              end
          end
      end
  end.

(** [BuildSingleLargeBuffer (buffers, nShaderFiles, sum)]: the block from
    [ri.Hunk_Alloc] comes zeroed, [sum + nShaderFiles * 2] bytes of it;
    [s_shaderText] is the string at its start. *)
Definition BuildSingleLargeBuffer (buffers : list (option string))
    (nShaderFiles sum : Z) : M unit :=
  fun st =>
    let size := wrap_int (sum + wrap_int (nShaderFiles * 2)) in
    let block := replicate (Z.to_nat size) NUL in
    match poke block 0 [NUL] with
    | None => None
    | Some block =>
        match concat_buffers buffers (Z.to_nat nShaderFiles) block 0 with
        | None => None
        | Some block =>
            match c_string block with
            | Some text => Some (tt, with_s_shaderText (Some text) st)
            | None => None
            end
        end
    end.

Section Loader.
Context `{Platform} `{Collaborators} `{Imports}.

(** [token[0] != '{' || token[1] != '\0'] does not hold. *)
Definition is_opening_brace (token : string) : bool :=
  match token with
  | String c EmptyString => Ascii.eqb c "{"%char
  | _ => false
  end.

(** The [while (1)] loop of [Shader_DoSimpleCheck] on the file [file]
    whose text is [buffer], with the cursor at [p]: what it prints.  Every
    round reads a token that is not empty. *)
Fixpoint check_loop (fuel : nat) (file buffer p : string)
    : option (list loader_event) :=
  match fuel with
  | O => None
  | S fuel' =>
      let '(token, p) := R_ParseExt p true in
      match token with
      | EmptyString => Some []
      | _ =>
          let shaderName := Q_strncpyz token 64 in
          let shaderLine := R_GetCurrentParseLine buffer p in
          let '(token, p) := R_ParseExt p true in
          if is_opening_brace token then
            let '(closed, p) := SkipBracedSection p 1 in
            if closed then check_loop fuel' file buffer p
            else
              Some [Ev_Printf PRINT_WARNING
                      (Msg_missing_closing_brace file shaderName shaderLine)]
          else
            Some ([Ev_Printf PRINT_WARNING
                     (Msg_missing_opening_brace file shaderName shaderLine)]
                  ++ match token with
                     | EmptyString => []
                     | _ => [Ev_Printf PRINT_WARNING
                               (Msg_found token
                                  (R_GetCurrentParseLine buffer p))]
                     end
                  ++ [Ev_Printf PRINT_WARNING Msg_full_stop])
      end
  end.

Definition Shader_DoSimpleCheck (file : string) (p : string) : L unit :=
  fun ls =>
    match check_loop (S (String.length p)) file p p with
    | Some printed => Returned tt (mk_loader (statics ls) (events ls ++ printed))
    | None => Faulted
    end.

(** [snprintf (filename, sizeof (filename), "scripts/%s", shaderFile)]
    with [char filename[128]]. *)
Definition scripts_filename (shaderFile : string) : string :=
  strn 127 ("scripts/" +:+ shaderFile).

(** The loop of [ScanAndLoadShaderFiles] that loads and checks the
    files: [files] are [shaderFiles[i]], [shaderFiles[i + 1]], ... up to
    [numShaderFiles]. *)
Fixpoint load_files (files : list string) (i : nat)
    (buffers : list (option string)) (sum : Z)
    : L (list (option string) * Z) :=
  match files with
  | [] => Lret (buffers, sum)
  | shaderFile :: rest =>
      let filename := scripts_filename shaderFile in
      Lprintf PRINT_ALL (Msg_loading filename) >+>
      let '(filesize, buffer) := FS_ReadFile filename in
      if (i <? length buffers)%nat then
        let buffers := <[i := buffer]> buffers in
        match buffer with
        | None => Error_drop (Err_could_not_load filename)
        | Some p =>
            Shader_DoSimpleCheck filename p >+>
            load_files rest (S i) buffers (wrap_long (sum + filesize))
        end
      else fun _ => Faulted
  end.

Definition ScanAndLoadShaderFiles : L unit :=
  let buffers := replicate (Z.to_nat MAX_SHADER_FILES) None in
  let shaderFiles := FS_ListFiles "scripts" ".shader" in
  Lprintf PRINT_DEVELOPER Msg_ScanAndLoadShaderFiles >+>
  match shaderFiles with
  | None | Some [] => Lprintf PRINT_WARNING Msg_no_shader_files_found
  | Some shaderFiles =>
      let numShaderFiles := Z.of_nat (length shaderFiles) in
      let+ numShaderFiles :=
        if numShaderFiles >? MAX_SHADER_FILES then
          Lprintf PRINT_WARNING Msg_numShaderFiles_exceeds_MAX_SHADER_FILES
          >+> Lret MAX_SHADER_FILES
        else Lret numShaderFiles in
      let+ loaded :=
        load_files (take (Z.to_nat numShaderFiles) shaderFiles) O buffers 0 in
      let '(buffers, sum) := loaded in
      lift (BuildSingleLargeBuffer buffers numShaderFiles (wrap_int sum)) >+>
      let+ text := lift (gets s_shaderText) in
      match text with
      | None => fun _ => Faulted
      | Some text =>
          FunLogging "BuildSingleLargeBuffer.txt" text >+>
          let text := R_Compress text in
          lift (modify (with_s_shaderText (Some text))) >+>
          FunLogging "after_R_Compress.txt" text >+>
          lift SetShaderTextHashTableSizes
      end
  end.

End Loader.

(** The text [BuildSingleLargeBuffer] is to build from the first [n1]
    buffers: the last one first, a line feed after each, the null ones
    left out. *)
Fixpoint joined (buffers : list (option string)) (n1 : nat) : string :=
  match n1 with
  | O => EmptyString
  | S n =>
      match buffers !! n with
      | Some (Some b) => b +:+ newline +:+ joined buffers n
      | _ => joined buffers n
      end
  end.

(** A string of C holds no terminator. *)
Definition nul_free (s : string) : Prop := has_char NUL s = false.

(** The length of the first [n1] buffers together, the null ones left
    out. *)
Fixpoint text_size (buffers : list (option string)) (n1 : nat) : nat :=
  match n1 with
  | O => O
  | S n =>
      (match buffers !! n with
       | Some (Some b) => String.length b
       | _ => O
       end + text_size buffers n)%nat
  end.

(** The text the loader joins from the texts of the files, given in the
    order in which it has read them: the file read first comes last. *)
Fixpoint join_reversed (bufs : list string) : string :=
  match bufs with
  | [] => EmptyString
  | b :: rest => join_reversed rest +:+ b +:+ newline
  end.

(** The sizes of the files together. *)
Definition total_size (loaded : list (Z * string)) : Z :=
  foldr (fun r acc => fst r + acc) 0 loaded.

(** The file [shaderFile] of the list reads as [r]: [ri.FS_ReadFile]
    fills a buffer with the text [snd r], a string of C, and returns the
    size [fst r], which is not less than the length of that text. *)
Definition reads_as `{Imports} (shaderFile : string) (r : Z * string)
    : Prop :=
  FS_ReadFile (scripts_filename shaderFile) = (fst r, Some (snd r))
  /\ nul_free (snd r) /\ Z.of_nat (String.length (snd r)) <= fst r.

(** What [Shader_DoSimpleCheck] may print on a file: nothing, or the
    warning for one definition without an opening brace (with the token
    found in its place, when there is one), or the warning for one
    definition without a closing brace. *)
Definition one_defect (file : string) (log : list loader_event) : Prop :=
  log = []
  \/ (exists shaderName line,
        (String.length shaderName <= 63)%nat
        /\ (log = [Ev_Printf PRINT_WARNING
                     (Msg_missing_opening_brace file shaderName line);
                   Ev_Printf PRINT_WARNING Msg_full_stop]
            \/ exists token line',
                 token <> EmptyString /\ is_opening_brace token = false
                 /\ log = [Ev_Printf PRINT_WARNING
                             (Msg_missing_opening_brace file shaderName line);
                           Ev_Printf PRINT_WARNING (Msg_found token line');
                           Ev_Printf PRINT_WARNING Msg_full_stop]))
  \/ (exists shaderName line,
        (String.length shaderName <= 63)%nat
        /\ log = [Ev_Printf PRINT_WARNING
                    (Msg_missing_closing_brace file shaderName line)]).

(** ** A small file system to run the loader in

    Three shader files, a list of names as [ri.FS_ListFiles] may give it,
    a compressor that leaves the text as it is, and lines counted by the
    line feeds the cursor has passed. *)
Fixpoint count_lines (s : string) : Z :=
  match s with
  | EmptyString => 0
  | String c rest =>
      (if Ascii.eqb c "010"%char then 1 else 0) + count_lines rest
  end.

Definition example_imports (listing : option (list string)) : Imports := {|
  FS_ListFiles := fun directory extension =>
    if String.eqb directory "scripts" && String.eqb extension ".shader"
    then listing else None;
  FS_ReadFile := fun qpath =>
    if String.eqb qpath "scripts/glass.shader"
    then (24, Some "textures/glass { map a }"%string)
    else if String.eqb qpath "scripts/metal.shader"
    then (22, Some "models/metal { { x } }"%string)
    else if String.eqb qpath "scripts/bad.shader"
    then (9, Some "bad/one x"%string)
    else (-1, None);
  R_Compress := fun text => text;
  R_GetCurrentParseLine := fun buffer p =>
    1 + count_lines buffer - count_lines p
|}.

Definition example_listing : list string :=
  ["glass.shader"; "metal.shader"]%string.

Definition example_loaded : list (Z * string) :=
  [(24, "textures/glass { map a }"%string);
   (22, "models/metal { { x } }"%string)].

(** The definitions of the text of the small world. *)
Definition example_definitions : list definition_t :=
  match @definitions example_collaborators
          (S (String.length example_text)) example_text with
  | Some ds => ds
  | None => []
  end.

(** A state whose text holds white space only. *)
Definition example_blank_state : state :=
  with_s_shaderText (Some "   "%string) boot_state.

(** The example state after a shader "wall" has been made from an image. *)
Definition example_image_state : state :=
  state_after (@R_RegisterShaderFromImage posix "wall" 0 7%nat true)
              example_state.

(** The example state after [RE_RegisterShader] has been asked for
    "wall.tga". *)
Definition example_registered_state : state :=
  state_after (@RE_RegisterShader posix example_collaborators "wall.tga")
              example_state.

(** A run of calls on the example state. *)
Definition example_calls : list call :=
  [Call_R_FindShader (Some "wall.tga"%string) 0 true;
   Call_RE_RegisterShader "textures/glass";
   Call_R_RegisterShaderFromImage "sky" LIGHTMAP_2D 3%nat false;
   Call_RE_RemapShader "wall" "textures/glass" (Some "1.5"%string);
   Call_R_ClearShaderHashTable;
   Call_RE_RegisterShaderNoMip "wall.tga"].

Definition example_calls_state : state :=
  state_after (@run_calls posix example_collaborators example_calls)
              example_state.

(** The state with the shader "wall" after [R_FindShader] has been asked
    for "wall.jpg", of which there is no image file, in another mode. *)
Definition example_hidden_state : state :=
  state_after (@R_FindShader posix example_collaborators
                 (Some "wall.jpg"%string) LIGHTMAP_2D true)
              example_wall_state.

(** * Properties *)

(** ** Characters *)

Ltac each_ascii c :=
  destruct c as [[] [] [] [] [] [] [] []]; vm_compute; try reflexivity;
  try discriminate; try tauto.

Lemma tolower_toupper (c : ascii) : tolower (toupper c) = tolower c.
Proof. each_ascii c. Qed.

Lemma toupper_tolower (c : ascii) : toupper (tolower c) = toupper c.
Proof. each_ascii c. Qed.

Lemma toupper_eq_tolower_eq (c1 c2 : ascii) :
  toupper c1 = toupper c2 <-> tolower c1 = tolower c2.
Proof.
  split; intros E.
  - rewrite <- (tolower_toupper c1), E. apply tolower_toupper.
  - rewrite <- (toupper_tolower c1), E. apply toupper_tolower.
Qed.

Lemma ascii_eqb_true (a b : ascii) : Ascii.eqb a b = true <-> a = b.
Proof. apply Ascii.eqb_eq. Qed.

(** ** [Q_stricmp]: equality up to case *)

Lemma Q_stricmp_0_iff (s1 s2 : string) :
  Q_stricmp s1 s2 = 0 <-> differ_only_in_case s1 s2.
Proof.
  revert s2. induction s1 as [|c1 r1 IH]; intros [|c2 r2]; simpl.
  - split; [constructor | reflexivity].
  - split; [destruct (_ <? _); discriminate | inversion 1].
  - split; [destruct (_ <? _); discriminate | inversion 1].
  - destruct (Ascii.eqb c1 c2) eqn:E1.
    + apply Ascii.eqb_eq in E1. subst c2. rewrite IH. split.
      * intros. constructor; auto.
      * inversion 1; auto.
    + destruct (Ascii.eqb (toupper c1) (toupper c2)) eqn:E2.
      * apply Ascii.eqb_eq, toupper_eq_tolower_eq in E2. rewrite IH. split.
        -- intros. constructor; auto.
        -- inversion 1; auto.
      * split; [destruct (_ <? _); discriminate |].
        inversion 1 as [|? ? ? ? Hc Hr]; subst.
        apply toupper_eq_tolower_eq in Hc.
        rewrite Hc, Ascii.eqb_refl in E2. discriminate.
Qed.

Lemma differ_only_in_case_refl (s : string) : differ_only_in_case s s.
Proof. induction s; constructor; auto. Qed.

Lemma differ_only_in_case_sym (a b : string) :
  differ_only_in_case a b -> differ_only_in_case b a.
Proof. induction 1; constructor; auto. Qed.

Lemma differ_only_in_case_trans (a b c : string) :
  differ_only_in_case a b -> differ_only_in_case b c ->
  differ_only_in_case a c.
Proof.
  intros Hab. revert c. induction Hab; intros c Hbc; inversion Hbc; subst.
  - constructor.
  - constructor; [congruence | auto].
Qed.

Lemma Q_stricmp_refl (s : string) : Q_stricmp s s = 0.
Proof. apply Q_stricmp_0_iff, differ_only_in_case_refl. Qed.

Lemma Q_stricmp_sym (a b : string) : Q_stricmp a b = 0 -> Q_stricmp b a = 0.
Proof. rewrite !Q_stricmp_0_iff. apply differ_only_in_case_sym. Qed.

Lemma Q_stricmp_trans (a b c : string) :
  Q_stricmp a b = 0 -> Q_stricmp b c = 0 -> Q_stricmp a c = 0.
Proof. rewrite !Q_stricmp_0_iff. apply differ_only_in_case_trans. Qed.

(** ** The hash function *)

Lemma wrap_int_small (z : Z) : 0 <= z <= INT_MAX -> wrap_int z = z.
Proof.
  intros Hz. unfold wrap_int, wrap, INT_MAX in *.
  change (2 ^ (32 - 1)) with 2147483648. change (2 ^ 32) with 4294967296.
  rewrite Z.mod_small; lia.
Qed.

Lemma land_upper (a b : Z) : 0 <= b -> Z.land a b <= b.
Proof.
  intros Hb.
  assert (E : b - Z.land a b = Z.ldiff b (Z.land a b)).
  { apply Z.sub_nocarry_ldiff. apply Z.bits_inj'. intros n Hn.
    rewrite Z.ldiff_spec, Z.land_spec, Z.bits_0.
    destruct (Z.testbit a n), (Z.testbit b n); reflexivity. }
  assert (0 <= Z.ldiff b (Z.land a b)) by (apply Z.ldiff_nonneg; auto).
  lia.
Qed.

Section HashFacts.
Context `{Platform}.

Lemma hash_loop_step (c : ascii) (rest : string) (i hash : Z) :
  hash_loop (String c rest) i hash =
  match hash_letter c with
  | None => hash
  | Some letter =>
      hash_loop rest (wrap_int (i + 1))
                (wrap_long (hash + char_val letter * (i + 119)))
  end.
Proof.
  simpl. unfold hash_letter. destruct (Ascii.eqb (tolower c) "."); reflexivity.
Qed.

Lemma hash_letter_case (c1 c2 : ascii) :
  tolower c1 = tolower c2 -> hash_letter c1 = hash_letter c2.
Proof. unfold hash_letter. intros ->. reflexivity. Qed.

Lemma hash_letter_separator (c : ascii) :
  path_sep_ok -> is_separator c -> hash_letter c = Some "/"%char.
Proof.
  unfold path_sep_ok, is_separator, hash_letter.
  intros [-> | ->] [-> | [-> | ->]]; reflexivity.
Qed.

Lemma hash_loop_case (a b : string) :
  differ_only_in_case a b ->
  forall i hash, hash_loop a i hash = hash_loop b i hash.
Proof.
  induction 1 as [|c1 c2 r1 r2 Hc _ IH]; intros i hash; [reflexivity|].
  rewrite !hash_loop_step, (hash_letter_case _ _ Hc).
  destruct (hash_letter c2); auto.
Qed.

Lemma hash_loop_separators (a b : string) :
  path_sep_ok -> differ_only_in_separators a b ->
  forall i hash, hash_loop a i hash = hash_loop b i hash.
Proof.
  intros Hsep. induction 1 as [|c r1 r2 _ IH|c1 c2 r1 r2 H1 H2 _ IH];
    intros i hash; [reflexivity| |]; rewrite !hash_loop_step.
  - destruct (hash_letter c); auto.
  - rewrite (hash_letter_separator c1), (hash_letter_separator c2); auto.
Qed.

Lemma hash_loop_extension (stem ext : string) :
  has_char "."%char stem = false ->
  forall i hash,
    hash_loop (stem +:+ String "."%char ext) i hash = hash_loop stem i hash.
Proof.
  induction stem as [|c rest IH]; intros Hdot i hash.
  - reflexivity.
  - simpl in Hdot. apply orb_false_elim in Hdot as [_ Hrest].
    change (String c rest +:+ String "."%char ext)
      with (String c (rest +:+ String "."%char ext)).
    rewrite !hash_loop_step. destruct (hash_letter c); auto.
Qed.

Lemma generateHashValue_range (fname : string) (size : Z) :
  0 < size <= INT_MAX ->
  generateHashValue fname size
    = Z.land (hash_fold (hash_loop fname 0 0)) (size - 1)
  /\ 0 <= generateHashValue fname size < size.
Proof.
  intros Hs. unfold generateHashValue.
  set (h := hash_fold (hash_loop fname 0 0)).
  assert (0 <= Z.land h (size - 1)) by (apply Z.land_nonneg; lia).
  assert (Z.land h (size - 1) <= size - 1) by (apply land_upper; lia).
  rewrite wrap_int_small by lia. split; [reflexivity | lia].
Qed.

Lemma generateHashValue_stricmp (a b : string) (size : Z) :
  Q_stricmp a b = 0 -> generateHashValue a size = generateHashValue b size.
Proof.
  intros E. apply Q_stricmp_0_iff in E. unfold generateHashValue.
  rewrite (hash_loop_case a b E). reflexivity.
Qed.

(** C5.  A name and a table size fix the bucket (the hash is a function of
    them); names that differ only in letter case, only in the style of
    their path separators, or only by a suffix that starts at a '.' where
    the name had none, fall in the same bucket; and the accumulator is
    masked with [size - 1] at the end, which for a table size that fits an
    [int] leaves a bucket index in [0, size). *)
Theorem generateHashValue_bucket :
  path_sep_ok ->
  (forall a b size,
      differ_only_in_case a b ->
      generateHashValue a size = generateHashValue b size)
  /\ (forall a b size,
      differ_only_in_separators a b ->
      generateHashValue a size = generateHashValue b size)
  /\ (forall stem ext size,
      has_char "."%char stem = false ->
      generateHashValue (stem +:+ String "."%char ext) size
        = generateHashValue stem size)
  /\ (forall fname size,
      exists h,
        generateHashValue fname size = wrap_int (Z.land h (size - 1))
        /\ (0 < size <= INT_MAX ->
            generateHashValue fname size = Z.land h (size - 1)
            /\ 0 <= generateHashValue fname size < size)).
Proof.
  intros Hsep. repeat split.
  - intros a b size E. unfold generateHashValue.
    rewrite (hash_loop_case a b E). reflexivity.
  - intros a b size E. unfold generateHashValue.
    rewrite (hash_loop_separators a b Hsep E). reflexivity.
  - intros stem ext size E. unfold generateHashValue.
    rewrite (hash_loop_extension stem ext E). reflexivity.
  - intros fname size. exists (hash_fold (hash_loop fname 0 0)).
    split; [reflexivity|]. apply generateHashValue_range.
Qed.

End HashFacts.

(** ** Commands *)

Lemma bind_Some {A B : Type} (m : M A) (k : A -> M B) (st : state)
    (r : B * state) :
  bind m k st = Some r <->
  exists a st', m st = Some (a, st') /\ k a st' = Some r.
Proof.
  unfold bind. destruct (m st) as [[a st']|].
  - split; [eauto | intros (? & ? & [= <- <-] & ?); assumption].
  - split; [discriminate | intros (? & ? & ? & _); discriminate].
Qed.

Lemma bind_run {A B : Type} (m : M A) (k : A -> M B) (st st' : state)
    (a : A) :
  m st = Some (a, st') -> bind m k st = k a st'.
Proof. unfold bind. intros ->. reflexivity. Qed.

(** ** Strings cut to size *)

Lemma strn_length (n : nat) (s : string) :
  (String.length (strn n s) <= n)%nat.
Proof.
  revert s. induction n as [|n IH]; intros [|c r]; simpl; try lia.
  specialize (IH r). lia.
Qed.

Lemma strn_all (n : nat) (s : string) :
  (String.length s <= n)%nat -> strn n s = s.
Proof.
  revert s. induction n as [|n IH]; intros [|c r]; simpl; intros Hl;
    try reflexivity; try lia.
  rewrite IH by lia. reflexivity.
Qed.

Lemma R_StripExtension_length (inp : string) (destsize : Z) :
  Z.of_nat (String.length (R_StripExtension inp destsize))
    <= Z.max 0 (destsize - 1).
Proof.
  unfold R_StripExtension, Q_strncpyz.
  destruct (strrchr inp ".") as [dot|]; [destruct (strrchr inp "/") as [slash|];
    [destruct (slash <? dot)%nat|]|];
    match goal with |- context [strn ?n inp] => pose proof (strn_length n inp) end;
    lia.
Qed.

Lemma Q_strncpyz_stripped (inp : string) :
  Q_strncpyz (R_StripExtension inp MAX_QPATH) MAX_QPATH
    = R_StripExtension inp MAX_QPATH.
Proof.
  unfold Q_strncpyz at 1. apply strn_all.
  pose proof (R_StripExtension_length inp MAX_QPATH). unfold MAX_QPATH in *.
  lia.
Qed.

Lemma Q_strncpyz_short (src : string) (destsize : Z) :
  Z.of_nat (String.length src) < destsize -> Q_strncpyz src destsize = src.
Proof. intros Hl. unfold Q_strncpyz. apply strn_all. lia. Qed.

(** ** Walking a chain *)

Section RegistryFacts.
Context `{Platform} `{Collaborators}.

Lemma walk_chain_found (test : shader_t -> bool) (fuel : nat)
    (hp : list shader_t) (sh : option nat) (r : nat) :
  walk_chain test fuel hp sh = Some (Some r) ->
  exists h s, sh = Some h /\ chain_from hp h r
              /\ hp !! r = Some s /\ test s = true.
Proof.
  revert sh. induction fuel as [|fuel IH]; intros [h|]; simpl; try discriminate.
  destruct (hp !! h) as [s|] eqn:Hs; [|discriminate].
  destruct (test s) eqn:Ht.
  - intros [= <-]. exists h, s. eauto using chain_here.
  - intros Hw. apply IH in Hw as (c & s' & Hn & Hc & Hr & Hts).
    exists h, s'. eauto using chain_next.
Qed.

Lemma walk_chain_miss (test : shader_t -> bool) (fuel : nat)
    (hp : list shader_t) (h : nat) :
  walk_chain test fuel hp (Some h) = Some None ->
  forall b s, chain_from hp h b -> hp !! b = Some s -> test s = false.
Proof.
  revert h. induction fuel as [|fuel IH]; intros h; simpl; [discriminate|].
  destruct (hp !! h) as [s|] eqn:Hs; [|discriminate].
  destruct (test s) eqn:Ht; [discriminate|].
  intros Hw b s' Hc Hb. inversion Hc as [? ? Ha|? c ? s1 Ha Hn Hc']; subst.
  - congruence.
  - rewrite Hs in Ha. injection Ha as <-. rewrite Hn in Hw. eauto.
Qed.

Lemma walk_chain_ext (test test' : shader_t -> bool) (fuel : nat)
    (hp : list shader_t) (sh : option nat) :
  (forall s, test s = test' s) ->
  walk_chain test fuel hp sh = walk_chain test' fuel hp sh.
Proof.
  intros E. revert sh. induction fuel as [|fuel IH]; intros [h|]; simpl; auto.
  destruct (hp !! h) as [s|]; auto. rewrite E, IH. reflexivity.
Qed.

(** A chain of older and older objects ends before the store does. *)
Lemma walk_chain_returns (test : shader_t -> bool) (hp : list shader_t) :
  heap_ok hp ->
  forall fuel h, (h < fuel)%nat -> (h < length hp)%nat ->
  exists r, walk_chain test fuel hp (Some h) = Some r.
Proof.
  intros Hok. induction fuel as [|fuel IH]; intros h Hf Hl; [lia|].
  simpl. destruct (lookup_lt_is_Some_2 hp h Hl) as [s Hs]. rewrite Hs.
  destruct (test s); [eauto|].
  destruct (next s) as [c|] eqn:Hn.
  - pose proof (Hok h s c Hs Hn). apply IH; lia.
  - destruct fuel; simpl; eauto.
Qed.

Lemma find_in_chain_returns (test : shader_t -> bool) (hash : Z)
    (st : state) :
  heap_ok (heap st) -> table_ok st ->
  exists r, find_in_chain test hash st = Some (r, st).
Proof.
  intros Hh Ht. unfold find_in_chain.
  destruct (hashTable st !! hash) as [h|] eqn:E.
  - pose proof (Ht hash h E) as Hl.
    destruct (walk_chain_returns test (heap st) Hh (length (heap st)) h)
      as [r ->]; eauto.
  - destruct (length (heap st)); simpl; eauto.
Qed.

(** Once the walk for a name has ended at a default-flagged object, the
    walk for that name ends there whatever the lighting mode. *)
Lemma walk_chain_default (given : string) (mode1 mode2 : Z) (fuel : nat)
    (hp : list shader_t) (sh : option nat) (d : nat) (sd : shader_t) :
  default_first hp ->
  walk_chain (already_loaded given mode1) fuel hp sh = Some (Some d) ->
  hp !! d = Some sd -> defaultShader sd = true ->
  walk_chain (already_loaded given mode2) fuel hp sh = Some (Some d).
Proof.
  intros Hdf. revert sh.
  induction fuel as [|fuel IH]; intros [h|]; simpl; try discriminate.
  destruct (hp !! h) as [s|] eqn:Hs; [|discriminate].
  destruct (already_loaded given mode1 s) eqn:Ht.
  - intros [= <-] Hd Hdef. rewrite Hs in Hd. injection Hd as ->.
    unfold already_loaded in *. rewrite Hdef, orb_true_r in *.
    rewrite Ht. reflexivity.
  - intros Hw Hd Hdef.
    assert (Hb : behind hp h d).
    { apply walk_chain_found in Hw as (c & s' & Hn & Hc & _ & _).
      exists s, c. auto. }
    assert (Hname : Q_stricmp (name sd) given = 0).
    { apply walk_chain_found in Hw as (c & s' & _ & _ & Hd' & Ht').
      rewrite Hd in Hd'. injection Hd' as <-.
      unfold already_loaded in Ht'. apply andb_true_iff in Ht' as [Ht' _].
      lia. }
    assert (Hne : Q_stricmp (name s) given <> 0).
    { intros E. apply (Hdf h d s sd Hb Hs Hd Hdef).
      apply (Q_stricmp_trans _ given); [assumption|].
      apply Q_stricmp_sym. assumption. }
    unfold already_loaded at 1.
    destruct (Q_stricmp (name s) given =? 0) eqn:E; [lia|]. simpl. auto.
Qed.

End RegistryFacts.

(** ** Running the registry *)

Section RunFacts.
Context `{Platform} `{Collaborators}.

Lemma FinishShader_run (st : state) :
  FinishShader st = Some (Some (length (heap st)), finished st).
Proof.
  unfold FinishShader, R_UpdateShaderHashTable, bind, gets, modify, deref,
    store, ret; simpl.
  rewrite list_lookup_middle by reflexivity. simpl.
  rewrite list_lookup_middle by reflexivity.
  unfold finished. simpl. do 2 f_equal. unfold with_hashTable, with_heap; simpl.
  f_equal. rewrite insert_app_r_alt by lia. rewrite Nat.sub_diag. reflexivity.
Qed.

Lemma clamp_lightmapIndex_run (given : string) (mode : Z) (st : state) :
  clamp_lightmapIndex given mode st
    = Some (effective_mode (tr_numLightmaps st) mode,
            clamp_state given mode st).
Proof.
  unfold clamp_lightmapIndex, clamp_state, clamp_warning, effective_mode,
    bind, gets, Printf, modify, ret.
  destruct ((mode >=? 0) && (mode >=? tr_numLightmaps st)); [reflexivity|].
  destruct (mode <? LIGHTMAP_2D); reflexivity.
Qed.

Lemma clamp_state_registry (given : string) (mode : Z) (st : state) :
  heap (clamp_state given mode st) = heap st
  /\ hashTable (clamp_state given mode st) = hashTable st
  /\ tr_shaders (clamp_state given mode st) = tr_shaders st
  /\ shader (clamp_state given mode st) = shader st
  /\ same_world st (clamp_state given mode st).
Proof.
  unfold clamp_state. destruct (clamp_warning _ _ _); unfold same_world;
    simpl; auto 10.
Qed.

Lemma effective_mode_idem (n mode : Z) :
  effective_mode n (effective_mode n mode) = effective_mode n mode.
Proof.
  unfold effective_mode, LIGHTMAP_BY_VERTEX, LIGHTMAP_2D.
  destruct ((mode >=? 0) && (mode >=? n)) eqn:E1; simpl.
  - destruct (-3 >=? n); reflexivity.
  - destruct (mode <? -4) eqn:E2; simpl.
    + destruct (-3 >=? n); reflexivity.
    + rewrite E1, E2. reflexivity.
Qed.

Lemma clamp_state_idem (given : string) (mode : Z) (st : state) :
  clamp_state given (effective_mode (tr_numLightmaps st) mode)
              (clamp_state given mode st)
    = clamp_state given mode st.
Proof.
  assert (E : tr_numLightmaps (clamp_state given mode st) = tr_numLightmaps st)
    by apply clamp_state_registry.
  unfold clamp_state at 1. rewrite E.
  unfold clamp_warning, effective_mode, LIGHTMAP_BY_VERTEX, LIGHTMAP_2D.
  destruct ((mode >=? 0) && (mode >=? tr_numLightmaps st)) eqn:E1; simpl.
  - destruct (-3 >=? tr_numLightmaps st); reflexivity.
  - destruct (mode <? -4) eqn:E2; simpl.
    + destruct (-3 >=? tr_numLightmaps st); reflexivity.
    + rewrite E1, E2. reflexivity.
Qed.

Lemma clamp_state_same (given : string) (mode : Z) (st : state) :
  same_registry st (clamp_state given mode st)
  /\ same_world st (clamp_state given mode st).
Proof.
  destruct (clamp_state_registry given mode st) as (? & ? & ? & _ & ?).
  split; [repeat split; assumption | assumption].
Qed.

(** Asked again with the same mode, the tests on the mode print the same
    line again and change nothing else. *)
Lemma clamp_state_idem_same (given : string) (mode : Z) (st : state) :
  exists w,
    clamp_state given mode (clamp_state given mode st)
      = with_printed w (clamp_state given mode st).
Proof.
  assert (E : tr_numLightmaps (clamp_state given mode st) = tr_numLightmaps st)
    by apply clamp_state_registry.
  unfold clamp_state at 1. rewrite E.
  destruct (clamp_warning _ _ _); [|eexists; reflexivity].
  exists (printed (clamp_state given mode st)).
  destruct (clamp_state given mode st); reflexivity.
Qed.

Lemma find_in_chain_eq (test : shader_t -> bool) (hash : Z) (st st' : state) :
  heap st' = heap st -> hashTable st' = hashTable st ->
  find_in_chain test hash st'
    = match find_in_chain test hash st with
      | Some (r, _) => Some (r, st')
      | None => None
      end.
Proof.
  intros Eh Et. unfold find_in_chain. rewrite Eh, Et.
  destruct (walk_chain _ _ _ _); reflexivity.
Qed.

Lemma find_in_chain_state (test : shader_t -> bool) (hash : Z)
    (st st' : state) (r : option nat) :
  find_in_chain test hash st = Some (r, st') -> st' = st.
Proof.
  unfold find_in_chain. destruct (walk_chain _ _ _ _); congruence.
Qed.

Lemma FindShaderInShaderText_state (shadername : string) (st st' : state)
    (r : option string) :
  FindShaderInShaderText shadername st = Some (r, st') -> st' = st.
Proof.
  unfold FindShaderInShaderText.
  destruct (shaderTextHashTable st !! _); [|discriminate].
  destruct (bucket_walk _ _) as [[p|]|]; [congruence| |discriminate].
  destruct (s_shaderText st); [|congruence].
  destruct (linear_scan _ _ _); congruence.
Qed.

(** [R_FindShader] for a name, in one equation: the cache walk with the
    clamped mode, a hit returned as it is, a miss loaded. *)
Lemma R_FindShader_eq (given : string) (mode : Z) (mip : bool) (st : state) :
  R_FindShader (Some given) mode mip st =
  let mode' := effective_mode (tr_numLightmaps st) mode in
  let stripped := R_StripExtension given MAX_QPATH in
  match walk_chain (already_loaded stripped mode') (length (heap st))
                   (heap st)
                   (hashTable st !! generateHashValue stripped FILE_HASH_SIZE)
  with
  | Some (Some a) => Some (Some a, clamp_state given mode st)
  | Some None => load_shader given stripped mode' mip
                             (clamp_state given mode st)
  | None => None
  end.
Proof.
  unfold R_FindShader. rewrite (bind_run _ _ _ _ _ (clamp_lightmapIndex_run _ _ _)).
  cbv zeta. unfold bind at 1, find_in_chain.
  destruct (clamp_state_registry given mode st) as (-> & -> & _).
  destruct (walk_chain _ _ _ _) as [[a|]|]; reflexivity.
Qed.

(** What loading a shader leaves: one new object, named by the stripped
    name, in the mode asked for, at the head of the chain of its bucket. *)
Lemma load_shader_run (given stripped : string) (mode : Z) (mip : bool)
    (st st1 : state) (r : option nat) :
  load_shader given stripped mode mip st = Some (r, st1) ->
  r = Some (length (heap st))
  /\ exists pending w,
      st1 = finished (with_printed w (with_shader pending st))
      /\ name pending = Q_strncpyz stripped MAX_QPATH
      /\ lightmapIndex pending = mode
      /\ remappedShader pending = None
      /\ timeOffset pending = 0.
Proof.
  unfold load_shader. unfold R_SetTheShader at 1. unfold bind at 1, modify.
  intros Hrun. apply bind_Some in Hrun as (text & st' & Hfind & Hrun).
  apply FindShaderInShaderText_state in Hfind. subst st'.
  destruct text as [text|].
  - unfold call_ParseShader, R_SetDefaultShader, Printf, bind, gets, modify,
      ret in Hrun.
    destruct (r_printShaders _ =? 0), (ParseShader text);
      rewrite FinishShader_run in Hrun; injection Hrun as <- <-;
      (split; [reflexivity|]);
      match goal with
      | |- context [finished ?s = _] => exists (shader s), (printed s)
      end; repeat split.
  - destruct (R_FindImageFile _ _ _ _);
      unfold R_CreateDefaultShadingCmds, setDefaultShader, bind, modify in Hrun;
      rewrite FinishShader_run in Hrun; injection Hrun as <- <-;
      (split; [reflexivity|]);
      match goal with
      | |- context [finished ?s = _] => exists (shader s), (printed s)
      end; repeat split.
Qed.

End RunFacts.

(** ** [R_FindShader] and the registration wrappers *)

Section FindFacts.
Context `{Platform} `{Collaborators}.

(** The walk for the stripped name, in the state a load has left, ends at
    the new object at once. *)
Lemma walk_after_load (stripped : string) (mode' : Z) (st : state)
    (pending : shader_t) (w : list (printLevel * message)) :
  name pending = stripped ->
  let st1 := finished (with_printed w (with_shader pending st)) in
  (lightmapIndex pending = mode' \/ defaultShader pending = true) ->
  walk_chain (already_loaded stripped mode') (length (heap st1)) (heap st1)
             (hashTable st1 !! generateHashValue stripped FILE_HASH_SIZE)
    = Some (Some (length (heap st))).
Proof.
  intros Hname st1 Hmode. subst st1. unfold finished; simpl.
  rewrite Hname, lookup_insert_eq, length_app. simpl.
  rewrite Nat.add_1_r. simpl. rewrite list_lookup_middle by reflexivity.
  unfold already_loaded; simpl. rewrite Hname, Q_stricmp_refl. simpl.
  destruct Hmode as [-> | ->]; [rewrite Z.eqb_refl | rewrite orb_true_r];
    reflexivity.
Qed.

(** C3.  A call of [R_FindShader] that is repeated with the same arguments
    returns the same object, and the repeated call leaves the store of
    shader objects, the cache table and the handle table as they were: it
    realizes nothing and enters nothing. *)
Theorem R_FindShader_twice (name : option string) (mode : Z) (mip : bool)
    (st st1 : state) (r : option nat) :
  R_FindShader name mode mip st = Some (r, st1) ->
  exists st2,
    R_FindShader name mode mip st1 = Some (r, st2)
    /\ same_registry st1 st2 /\ same_world st1 st2.
Proof.
  destruct name as [given|].
  - rewrite R_FindShader_eq. cbv zeta.
    destruct (walk_chain _ _ _ _) as [[a|]|] eqn:Hw; [| |discriminate].
    + intros [= <- <-]. rewrite R_FindShader_eq. cbv zeta.
      destruct (clamp_state_registry given mode st)
        as (Eh & Et & _ & _ & _ & En & _).
      rewrite Eh, Et, En, Hw.
      eexists. split; [reflexivity|]. apply clamp_state_same.
    + intros Hl. apply load_shader_run in Hl
        as (-> & pending & w & -> & Hn & Hm & _).
      rewrite Q_strncpyz_stripped in Hn.
      destruct (clamp_state_registry given mode st)
        as (Eh & Et & _ & _ & _ & En & _).
      rewrite R_FindShader_eq. cbv zeta.
      change (tr_numLightmaps (finished _))
        with (tr_numLightmaps (clamp_state given mode st)).
      rewrite En, walk_after_load by auto.
      eexists. split; [reflexivity|]. apply clamp_state_same.
  - intros [= <- <-]. eexists. split; [reflexivity|].
    split; repeat split.
Qed.

Lemma finished_lookup_new (st : state) :
  heap (finished st) !! length (heap st)
    = Some (set_next
              (hashTable st !! generateHashValue (name (shader st)) FILE_HASH_SIZE)
              (set_index (Z.of_nat (length (tr_shaders st))) (shader st))).
Proof. unfold finished; simpl. apply list_lookup_middle. reflexivity. Qed.

(** A default-flagged object that a call has returned for a name is what
    the next call for that name returns, whatever mode it asks for. *)
Lemma R_FindShader_default_next_call (name : option string)
    (mode1 mode2 : Z) (mip1 mip2 : bool) (st st1 : state) (d : nat)
    (sd : shader_t) :
  default_first (heap st) ->
  R_FindShader name mode1 mip1 st = Some (Some d, st1) ->
  heap st1 !! d = Some sd -> defaultShader sd = true ->
  exists st2,
    R_FindShader name mode2 mip2 st1 = Some (Some d, st2)
    /\ same_registry st1 st2 /\ same_world st1 st2.
Proof.
  intros Hdf. destruct name as [given|].
  - rewrite R_FindShader_eq. cbv zeta.
    destruct (walk_chain _ _ _ _) as [[a|]|] eqn:Hw; [| |discriminate].
    + intros [= <- <-] Hd Hdef. rewrite R_FindShader_eq. cbv zeta.
      destruct (clamp_state_registry given mode1 st)
        as (Eh & Et & _ & _ & _ & En & _).
      rewrite Eh in Hd. rewrite Eh, Et, En.
      rewrite (walk_chain_default _ _ _ _ _ _ _ _ Hdf Hw Hd Hdef).
      eexists. split; [reflexivity|]. apply clamp_state_same.
    + intros Hl Hd Hdef. apply load_shader_run in Hl
        as (Hr & pending & w & -> & Hn & Hm & _).
      injection Hr as ->. rewrite Q_strncpyz_stripped in Hn.
      unfold finished in Hd; simpl in Hd.
      rewrite list_lookup_middle in Hd by reflexivity. injection Hd as <-.
      simpl in Hdef.
      rewrite R_FindShader_eq. cbv zeta.
      rewrite walk_after_load by auto.
      eexists. split; [reflexivity|]. apply clamp_state_same.
  - intros [= Hd <-] _ _. eexists. split; [simpl; rewrite <- Hd; reflexivity|].
    split; repeat split.
Qed.

(** C7.  A name of [MAX_QPATH] characters or more gets handle 0 from both
    wrappers, which print one line and touch nothing else.  For a shorter
    name that [R_FindShader] resolves to a default-flagged object, both
    return handle 0; the object is in the chain of the bucket of the
    stripped name, the cache walk for the name finds it, and the wrapper
    called again returns 0 from that hit and leaves the state as it is. *)
Theorem RE_RegisterShader_zero_handle :
  (forall given st,
      MAX_QPATH <= Z.of_nat (String.length given) ->
      RE_RegisterShader given st
        = Some (0, with_printed
                     (printed st ++ [(PRINT_ALL, Msg_name_exceeds_MAX_QPATH)])
                     st)
      /\ RE_RegisterShaderNoMip given st
        = Some (0, with_printed
                     (printed st ++ [(PRINT_ALL, Msg_name_exceeds_MAX_QPATH)])
                     st))
  /\ (forall given mip st st1 d sd,
      Z.of_nat (String.length given) < MAX_QPATH ->
      R_FindShader (Some given) LIGHTMAP_2D mip st = Some (Some d, st1) ->
      heap st1 !! d = Some sd -> defaultShader sd = true ->
      let register := if mip then RE_RegisterShader else RE_RegisterShaderNoMip in
      let stripped := R_StripExtension given MAX_QPATH in
      let hash := generateHashValue stripped FILE_HASH_SIZE in
      register given st = Some (0, st1)
      /\ cached st1 hash d
      /\ find_in_chain (already_loaded stripped LIGHTMAP_2D) hash st1
           = Some (Some d, st1)
      /\ register given st1 = Some (0, st1)).
Proof.
  split.
  - intros given st Hlen. unfold RE_RegisterShader, RE_RegisterShaderNoMip.
    destruct (Z.geb_spec (Z.of_nat (String.length given)) MAX_QPATH); [|lia].
    split; reflexivity.
  - intros given mip st st1 d sd Hlen Hfind Hd Hdef register stripped hash.
    assert (Hreg : forall s s', R_FindShader (Some given) LIGHTMAP_2D mip s
                                 = Some (Some d, s') ->
                   heap s' !! d = Some sd -> register given s = Some (0, s')).
    { intros s s' Hf Hd'. subst register.
      destruct mip; unfold RE_RegisterShader, RE_RegisterShaderNoMip;
        (destruct (Z.geb_spec (Z.of_nat (String.length given)) MAX_QPATH);
         [lia|]);
        rewrite (bind_run _ _ _ _ _ Hf); unfold bind, deref;
        rewrite Hd', Hdef; reflexivity. }
    assert (Hclamp : forall s, clamp_state given LIGHTMAP_2D s = s).
    { intros s. unfold clamp_state, clamp_warning. reflexivity. }
    assert (Hmode : forall s, effective_mode (tr_numLightmaps s) LIGHTMAP_2D
                              = LIGHTMAP_2D).
    { intros s. reflexivity. }
    assert (Hwalk : walk_chain (already_loaded stripped LIGHTMAP_2D)
                      (length (heap st1)) (heap st1) (hashTable st1 !! hash)
                    = Some (Some d)).
    { rewrite R_FindShader_eq in Hfind. cbv zeta in Hfind.
      rewrite Hclamp, Hmode in Hfind. fold stripped hash in Hfind.
      destruct (walk_chain _ _ _ _) as [[a|]|] eqn:Hw; [| |discriminate].
      - injection Hfind as -> ->. exact Hw.
      - apply load_shader_run in Hfind
          as (Hr & pending & w & -> & Hn & Hm & _).
        injection Hr as ->. subst stripped hash.
        rewrite Q_strncpyz_stripped in Hn.
        apply walk_after_load; auto. }
    assert (Hagain : R_FindShader (Some given) LIGHTMAP_2D mip st1
                     = Some (Some d, st1)).
    { rewrite R_FindShader_eq. cbv zeta. rewrite Hclamp, Hmode.
      fold stripped hash. rewrite Hwalk. reflexivity. }
    repeat split.
    + apply Hreg; assumption.
    + apply walk_chain_found in Hwalk as (h & s & Hh & Hc & _).
      exists h. auto.
    + unfold find_in_chain. rewrite Hwalk. reflexivity.
    + apply Hreg; assumption.
Qed.

(** C4, as the code has it.  A lighting mode that names a lightmap slot at
    or past the number of lightmaps becomes per-vertex-color, silently.
    A mode below the screen-space mode [LIGHTMAP_2D] becomes
    per-vertex-color, with a warning.  The modes from [LIGHTMAP_2D] up to
    [LIGHTMAP_NONE], and the slots that exist, stay as they are, and
    nothing is printed.  [R_FindShader] then goes on as if called with the
    mode so found. *)
Theorem clamp_lightmapIndex_modes (given : string) (mode : Z) (mip : bool)
    (st : state) :
  (0 <= mode -> tr_numLightmaps st <= mode ->
     clamp_lightmapIndex given mode st = Some (LIGHTMAP_BY_VERTEX, st))
  /\ (mode < LIGHTMAP_2D ->
     clamp_lightmapIndex given mode st
       = Some (LIGHTMAP_BY_VERTEX,
               with_printed
                 (printed st
                  ++ [(PRINT_WARNING, Msg_invalid_lightmap_index given mode)])
                 st))
  /\ (LIGHTMAP_2D <= mode -> mode < 0 \/ mode < tr_numLightmaps st ->
     clamp_lightmapIndex given mode st = Some (mode, st))
  /\ (exists mode' st',
     clamp_lightmapIndex given mode st = Some (mode', st')
     /\ R_FindShader (Some given) mode mip st
          = R_FindShader (Some given) mode' mip st').
Proof.
  rewrite clamp_lightmapIndex_run.
  unfold clamp_state, clamp_warning, effective_mode, LIGHTMAP_2D,
    LIGHTMAP_BY_VERTEX.
  repeat split.
  - intros H1 H2. destruct (Z.geb_spec mode 0); [|lia].
    destruct (Z.geb_spec mode (tr_numLightmaps st)); [|lia]. reflexivity.
  - intros H1. destruct (Z.geb_spec mode 0); [lia|]. simpl.
    destruct (Z.ltb_spec mode (-4)); [|lia]. reflexivity.
  - intros H1 H2.
    destruct (Z.geb_spec mode 0), (Z.geb_spec mode (tr_numLightmaps st));
      simpl; try lia; destruct (Z.ltb_spec mode (-4)); try lia; reflexivity.
  - eexists _, _. split; [reflexivity|].
    fold LIGHTMAP_2D LIGHTMAP_BY_VERTEX.
    change (R_FindShader (Some given) mode mip st
            = R_FindShader (Some given)
                (effective_mode (tr_numLightmaps st) mode) mip
                (clamp_state given mode st)).
    rewrite !R_FindShader_eq. cbv zeta.
    destruct (clamp_state_registry given mode st)
      as (Eh & Et & _ & _ & _ & En & _).
    rewrite Eh, Et, En, effective_mode_idem, clamp_state_idem.
    reflexivity.
Qed.

(** C1, where the code falls short of it.  With no index over the shader
    text ([shaderTextHashTable] as the C run time zeroes it, which is how
    [ScanAndLoadShaderFiles] leaves it when it finds no shader file), a
    call of [R_FindShader] for a name the cache does not hold does not
    return: [FindShaderInShaderText] reads through the null pointer
    [shaderTextHashTable[hash]]. *)
Theorem R_FindShader_without_index (given : string) (mode : Z) (mip : bool)
    (st : state) :
  shaderTextHashTable st = ∅ ->
  hashTable st
    !! generateHashValue (R_StripExtension given MAX_QPATH) FILE_HASH_SIZE
    = None ->
  R_FindShader (Some given) mode mip st = None.
Proof.
  intros Hidx Hmiss. rewrite R_FindShader_eq. cbv zeta. rewrite Hmiss.
  assert (Hw : forall test fuel hp,
             walk_chain test fuel hp None = Some None)
    by (intros ? [|?] ?; reflexivity).
  rewrite Hw. unfold load_shader, R_SetTheShader, bind, modify,
    FindShaderInShaderText; simpl.
  destruct (clamp_state_registry given mode st)
    as (_ & _ & _ & _ & _ & _ & _ & -> & _).
  rewrite Hidx, lookup_empty. reflexivity.
Qed.

End FindFacts.

(** ** The shape of the cache is kept *)

Lemma chain_from_valid (hp : list shader_t) (a b : nat) :
  chain_from hp a b -> is_Some (hp !! b).
Proof. induction 1; eauto. Qed.

Lemma chain_from_le (hp : list shader_t) (a b : nat) :
  heap_ok hp -> chain_from hp a b -> (b <= a)%nat.
Proof.
  intros Hok. induction 1 as [|a c b s Hs Hn _ IH]; [lia|].
  pose proof (Hok a s c Hs Hn). lia.
Qed.

Lemma chain_from_app (hp : list shader_t) (x : shader_t) (a b : nat) :
  chain_from hp a b -> chain_from (hp ++ [x]) a b.
Proof.
  induction 1 as [a s Hs|a c b s Hs Hn _ IH].
  - apply (chain_here _ a s). rewrite lookup_app_l; eauto using lookup_lt_Some.
  - apply (chain_next _ a c b s); auto.
    rewrite lookup_app_l; eauto using lookup_lt_Some.
Qed.

Lemma chain_from_app_inv (hp : list shader_t) (x : shader_t) (a b : nat) :
  heap_ok hp -> (a < length hp)%nat ->
  chain_from (hp ++ [x]) a b -> chain_from hp a b.
Proof.
  intros Hok Ha Hc. induction Hc as [a s Hs|a c b s Hs Hn _ IH].
  - rewrite lookup_app_l in Hs by assumption. eauto using chain_here.
  - rewrite lookup_app_l in Hs by assumption.
    pose proof (Hok a s c Hs Hn). apply (chain_next _ a c b s); auto.
    apply IH. lia.
Qed.

Lemma chain_from_shape (hp hp' : list shader_t) (a b : nat) :
  same_shape hp hp' -> chain_from hp a b -> chain_from hp' a b.
Proof.
  intros Hsh. induction 1 as [a s Hs|a c b s Hs Hn _ IH].
  - destruct (Forall2_lookup_l _ _ _ _ _ Hsh Hs) as (s' & Hs' & _).
    eauto using chain_here.
  - destruct (Forall2_lookup_l _ _ _ _ _ Hsh Hs) as (s' & Hs' & _ & Hn' & _).
    apply (chain_next _ a c b s'); auto. congruence.
Qed.

Lemma same_links_refl (s : shader_t) : same_links s s.
Proof. repeat split. Qed.

Lemma same_links_sym (s s' : shader_t) : same_links s s' -> same_links s' s.
Proof. intros (? & ? & ? & ? & ?). repeat split; auto. Qed.

Lemma same_links_trans (s1 s2 s3 : shader_t) :
  same_links s1 s2 -> same_links s2 s3 -> same_links s1 s3.
Proof.
  intros (? & ? & ? & ? & ?) (? & ? & ? & ? & ?). repeat split; congruence.
Qed.

Lemma same_shape_refl (hp : list shader_t) : same_shape hp hp.
Proof. apply Forall_Forall2_diag, Forall_forall. intros. apply same_links_refl. Qed.

Lemma same_shape_sym (hp hp' : list shader_t) :
  same_shape hp hp' -> same_shape hp' hp.
Proof.
  intros Hs. apply Forall2_flip. eapply Forall2_impl; [exact Hs|].
  intros s s'. apply same_links_sym.
Qed.

Lemma same_shape_trans (hp1 hp2 hp3 : list shader_t) :
  same_shape hp1 hp2 -> same_shape hp2 hp3 -> same_shape hp1 hp3.
Proof.
  intros H12 H23.
  apply Forall2_same_length_lookup_2.
  - rewrite (Forall2_length _ _ _ H12). apply (Forall2_length _ _ _ H23).
  - intros i x z Hx Hz.
    destruct (Forall2_lookup_l _ _ _ _ _ H12 Hx) as (y & Hy & Hxy).
    pose proof (Forall2_lookup_lr _ _ _ _ _ _ H23 Hy Hz).
    eauto using same_links_trans.
Qed.

Lemma same_shape_insert (hp : list shader_t) (a : nat) (s s' : shader_t) :
  hp !! a = Some s -> same_links s s' -> same_shape hp (<[a := s']> hp).
Proof.
  intros Hs Hl. rewrite <- (list_insert_id hp a s Hs) at 1.
  apply Forall2_insert; [apply same_shape_refl | assumption].
Qed.

Section InvariantFacts.
Context `{Platform} `{Collaborators}.

Lemma registry_ok_same (st st' : state) :
  heap st' = heap st -> hashTable st' = hashTable st ->
  registry_ok st -> registry_ok st'.
Proof.
  intros Eh Et [H1 H2 H3 H4]. split.
  - rewrite Eh. assumption.
  - unfold table_ok. rewrite Eh, Et. assumption.
  - rewrite Eh. assumption.
  - unfold bucket_ok, cached. rewrite Eh, Et. assumption.
Qed.

(** Entering the shader under construction keeps the shape of the cache,
    when the chain of its bucket holds no default-flagged object of its
    name. *)
Lemma registry_ok_finished (st : state) :
  registry_ok st ->
  (forall b s,
      cached st (generateHashValue (name (shader st)) FILE_HASH_SIZE) b ->
      heap st !! b = Some s -> defaultShader s = true ->
      Q_stricmp (name (shader st)) (name s) <> 0) ->
  registry_ok (finished st).
Proof.
  intros [Hheap Htable Hdf Hbucket] Hfresh.
  set (n := length (heap st)).
  set (hash := generateHashValue (name (shader st)) FILE_HASH_SIZE).
  set (x := set_next (hashTable st !! hash)
              (set_index (Z.of_nat (length (tr_shaders st))) (shader st))).
  assert (Hnew : heap (finished st) = heap st ++ [x]) by reflexivity.
  assert (Htab : hashTable (finished st) = <[hash := n]> (hashTable st))
    by reflexivity.
  assert (Hold : forall a, (a < n)%nat ->
                           (heap st ++ [x]) !! a = heap st !! a)
    by (intros; apply lookup_app_l; assumption).
  assert (Hx : (heap st ++ [x]) !! n = Some x)
    by (apply list_lookup_middle; reflexivity).
  assert (Hlook : forall a s, (heap st ++ [x]) !! a = Some s ->
                  ((a < n)%nat /\ heap st !! a = Some s) \/ (a = n /\ s = x)).
  { intros a s Hs. destruct (decide (a < n)%nat) as [Hlt|Hge].
    - left. rewrite Hold in Hs; auto.
    - right. apply lookup_lt_Some in Hs as Hl. rewrite length_app in Hl.
      simpl in Hl. assert (a = n) by (unfold n in *; lia). subst a.
      rewrite Hx in Hs. split; congruence. }
  split.
  - rewrite Hnew. intros a s c Hs Hn. apply Hlook in Hs as [[Hlt Hs]|[-> ->]].
    + eauto.
    + simpl in Hn. apply (Htable _ _ Hn).
  - intros b h. rewrite Htab, Hnew, length_app. simpl.
    intros [[_ <-]|[_ Hb]]%lookup_insert_Some; [unfold n; lia|].
    pose proof (Htable b h Hb). lia.
  - rewrite Hnew. intros a b sa sb (s & c & Hs & Hn & Hc) Ha Hb Hdef.
    rewrite Ha in Hs. injection Hs as <-.
    apply Hlook in Ha as [[Hlt Ha]|[-> ->]].
    + pose proof (Hheap a sa c Ha Hn) as Hca.
      assert (Hc' : chain_from (heap st) c b)
        by (apply (chain_from_app_inv _ x); auto; unfold n in *; lia).
      pose proof (chain_from_le _ _ _ Hheap Hc').
      rewrite Hold in Hb by lia.
      apply (Hdf a b sa sb); auto. exists sa, c. auto.
    + simpl in Hn. pose proof (Htable _ _ Hn) as Hcn.
      assert (Hc' : chain_from (heap st) c b)
        by (apply (chain_from_app_inv _ x); auto).
      pose proof (chain_from_le _ _ _ Hheap Hc').
      rewrite Hold in Hb by (unfold n; lia).
      simpl. apply (Hfresh b sb); auto. exists c. auto.
  - intros b a s (h & Hh & Hc) Hs. rewrite Hnew in Hs, Hc.
    rewrite Htab in Hh.
    assert (Hcase : a = n \/ ((a < n)%nat /\ exists h', hashTable st !! b = Some h'
                                      /\ chain_from (heap st) h' a)).
    { apply lookup_insert_Some in Hh as [[<- <-]|[Hne Hh]].
      - inversion Hc as [|? c ? s1 Hs1 Hn1 Hc1]; subst; [left; reflexivity|].
        right. rewrite Hx in Hs1. injection Hs1 as <-. simpl in Hn1.
        pose proof (Htable _ _ Hn1).
        assert (Hc' : chain_from (heap st) c a)
          by (apply (chain_from_app_inv _ x); auto).
        pose proof (chain_from_le _ _ _ Hheap Hc').
        split; [unfold n in *; lia|]. eauto.
      - right. pose proof (Htable _ _ Hh).
        assert (Hc' : chain_from (heap st) h a)
          by (apply (chain_from_app_inv _ x); auto).
        pose proof (chain_from_le _ _ _ Hheap Hc').
        split; [unfold n in *; lia|]. eauto. }
    destruct Hcase as [->|(Hlt & h' & Hh' & Hc')].
    + rewrite Hx in Hs. injection Hs as <-. simpl.
      apply lookup_insert_Some in Hh as [[<- _]|[Hne Hh]]; [reflexivity|].
      exfalso. pose proof (Htable _ _ Hh).
      assert (Hc' : chain_from (heap st) h n)
        by (apply (chain_from_app_inv _ x); auto).
      pose proof (chain_from_le _ _ _ Hheap Hc'). unfold n in *. lia.
    + rewrite Hold in Hs by assumption. apply (Hbucket b a s); auto.
      exists h'. auto.
Qed.

(** [R_FindShader] keeps the shape of the cache. *)
Lemma registry_ok_R_FindShader (name : option string) (mode : Z) (mip : bool)
    (st st1 : state) (r : option nat) :
  registry_ok st ->
  R_FindShader name mode mip st = Some (r, st1) ->
  registry_ok st1 /\ same_world st st1.
Proof.
  intros Hok. destruct name as [given|].
  - rewrite R_FindShader_eq. cbv zeta.
    destruct (clamp_state_registry given mode st)
      as (Eh & Et & _ & _ & Hworld).
    destruct (walk_chain _ _ _ _) as [[a|]|] eqn:Hw; [| |discriminate].
    + intros [= <- <-]. split; [|assumption].
      apply (registry_ok_same st); auto.
    + intros Hl. apply load_shader_run in Hl
        as (_ & pending & w & -> & Hn & Hm & _).
      rewrite Q_strncpyz_stripped in Hn. split.
      * apply registry_ok_finished.
        -- apply (registry_ok_same st); auto.
        -- simpl. rewrite Hn. intros b s (h & Hh & Hc) Hs Hdef E.
           simpl in Hh, Hc, Hs. rewrite Eh in Hc, Hs. rewrite Et in Hh.
           rewrite Hh in Hw.
           pose proof (walk_chain_miss _ _ _ _ Hw b s Hc Hs) as Hmiss.
           unfold already_loaded in Hmiss.
           rewrite Hdef, orb_true_r, andb_true_r in Hmiss.
           apply Q_stricmp_sym in E. lia.
      * destruct Hworld as (? & ? & ? & ? & ? & ?). repeat split; assumption.
  - intros [= <- <-]. split; [|repeat split].
    apply (registry_ok_same st); auto.
Qed.

End InvariantFacts.

(** ** [RE_RemapShader] *)

Lemma deref_run (sh : option nat) (st st' : state) (s : shader_t) :
  deref sh st = Some (s, st') ->
  st' = st /\ exists a, sh = Some a /\ heap st !! a = Some s.
Proof.
  unfold deref. destruct sh as [a|]; [|discriminate].
  destruct (heap st !! a) as [s0|] eqn:E; [|discriminate].
  intros [= <- <-]. eauto.
Qed.

Lemma heap_ok_shape (hp hp' : list shader_t) :
  same_shape hp hp' -> heap_ok hp -> heap_ok hp'.
Proof.
  intros Hsh Hok a s' c Hs' Hn.
  destruct (Forall2_lookup_r _ _ _ _ _ Hsh Hs') as (s & Hs & _ & Hnext & _).
  apply (Hok a s c Hs). congruence.
Qed.

Lemma remap_step (N : string) (sh2 : option nat) (a : nat) (s : shader_t)
    (hp : list shader_t) :
  (if same_name N s then
     if bool_decide (Some a = sh2) then <[a := set_remappedShader None s]> hp
     else <[a := set_remappedShader sh2 s]> hp
   else hp)
  = if same_name N s then <[a := set_remappedShader (remap_of sh2 a) s]> hp
    else hp.
Proof.
  unfold remap_of. destruct (same_name N s); [|reflexivity].
  destruct (bool_decide (Some a = sh2)); reflexivity.
Qed.

Lemma remap_step_shape (N : string) (r : option nat) (a : nat) (s : shader_t)
    (hp : list shader_t) :
  hp !! a = Some s ->
  same_shape hp (if same_name N s then <[a := set_remappedShader r s]> hp
                 else hp).
Proof.
  intros Hs. destruct (same_name N s); [|apply same_shape_refl].
  apply (same_shape_insert hp a s); [assumption | repeat split].
Qed.

(** The second loop of [RE_RemapShader] changes remap references only;
    every object of the walked chain whose name is [N] ends with the remap
    reference [remap_of sh2], and no other object is touched. *)
Lemma remap_chain_spec (N : string) (sh2 : option nat) (fuel : nat) :
  forall hp head hp',
    remap_chain N sh2 fuel hp head = Some hp' ->
    same_shape hp hp'
    /\ (forall a s, hp !! a = Some s ->
          hp' !! a = Some s
          \/ (same_name N s = true
              /\ hp' !! a = Some (set_remappedShader (remap_of sh2 a) s)))
    /\ (forall h a s, head = Some h -> chain_from hp h a ->
          hp !! a = Some s -> same_name N s = true ->
          hp' !! a = Some (set_remappedShader (remap_of sh2 a) s)).
Proof.
  induction fuel as [|fuel IH]; intros hp [h|] hp'; simpl;
    try discriminate;
    try (intros [= <-]; split; [apply same_shape_refl|];
         split; [auto | discriminate]).
  destruct (hp !! h) as [s|] eqn:Hs; [|discriminate].
  rewrite remap_step.
  set (hp1 := if same_name N s
              then <[h := set_remappedShader (remap_of sh2 h) s]> hp else hp).
  intros Hrun. apply IH in Hrun as (Hshape & Hany & Hchain).
  assert (Hshape1 : same_shape hp hp1) by (apply remap_step_shape; assumption).
  assert (Hh : forall a s0, hp !! a = Some s0 ->
             hp1 !! a = Some s0
             \/ (a = h /\ s0 = s /\ same_name N s = true
                 /\ hp1 !! a = Some (set_remappedShader (remap_of sh2 h) s))).
  { intros a s0 Ha. subst hp1. destruct (same_name N s) eqn:Hm; [|auto].
    destruct (decide (a = h)) as [->|Hne].
    - right. rewrite Hs in Ha. injection Ha as <-.
      rewrite list_lookup_insert_eq by eauto using lookup_lt_Some. auto.
    - left. rewrite list_lookup_insert_ne by auto. assumption. }
  assert (Hany' : forall a s0, hp !! a = Some s0 ->
             hp' !! a = Some s0
             \/ (same_name N s0 = true
                 /\ hp' !! a = Some (set_remappedShader (remap_of sh2 a) s0))).
  { intros a s0 Ha. destruct (Hh a s0 Ha) as [H1|(-> & -> & Hm & H1)].
    - apply Hany. assumption.
    - right. split; [assumption|].
      destruct (Hany _ _ H1) as [H2|[_ H2]]; exact H2. }
  split; [eapply same_shape_trans; eassumption|]. split; [exact Hany'|].
  intros h0 a s0 [= <-] Hc Ha Hm.
  destruct (decide (a = h)) as [->|Hne].
  - rewrite Hs in Ha. injection Ha as <-.
    destruct (Hh h s Hs) as [H1|(_ & _ & _ & H1)].
    + subst hp1. rewrite Hm in H1.
      rewrite list_lookup_insert_eq in H1 by eauto using lookup_lt_Some.
      injection H1 as E.
      destruct (Hany' h s Hs) as [H2|[_ H2]]; [rewrite E|]; exact H2.
    + destruct (Hany _ _ H1) as [H2|[_ H2]]; exact H2.
  - inversion Hc as [|? c ? s1 Hs1 Hn1 Hc1]; subst; [congruence|].
    rewrite Hs in Hs1. injection Hs1 as <-.
    destruct (Hh a s0 Ha) as [H1|(-> & _)]; [|congruence].
    apply (Hchain c); auto. eapply chain_from_shape; eassumption.
Qed.

Lemma remap_chain_returns (N : string) (sh2 : option nat) :
  forall fuel hp h,
    heap_ok hp -> (h < fuel)%nat -> (h < length hp)%nat ->
    exists hp', remap_chain N sh2 fuel hp (Some h) = Some hp'.
Proof.
  induction fuel as [|fuel IH]; intros hp h Hok Hf Hl; [lia|].
  simpl. destruct (lookup_lt_is_Some_2 hp h Hl) as [s Hs]. rewrite Hs.
  rewrite remap_step.
  set (hp1 := if same_name N s
              then <[h := set_remappedShader (remap_of sh2 h) s]> hp else hp).
  assert (Hshape1 : same_shape hp hp1) by (apply remap_step_shape; assumption).
  destruct (next s) as [c|] eqn:Hn.
  - pose proof (Hok h s c Hs Hn). apply IH.
    + eapply heap_ok_shape; eassumption.
    + lia.
    + rewrite <- (Forall2_length _ _ _ Hshape1). lia.
  - destruct fuel; simpl; eauto.
Qed.

Section RemapFacts.
Context `{Platform} `{Collaborators}.

Lemma R_GetShaderByHandle_run (h : Z) (st st' : state) (r : option nat) :
  R_GetShaderByHandle h st = Some (r, st') ->
  same_registry st st' /\ same_world st st'.
Proof.
  unfold R_GetShaderByHandle, bind, gets, Printf, modify, ret, fault.
  destruct (_ || _).
  - intros [= <- <-]. split; repeat split.
  - destruct (tr_shaders st !! Z.to_nat h); [|discriminate].
    intros [= <- <-]. split; repeat split.
Qed.

Lemma same_world_trans (st1 st2 st3 : state) :
  same_world st1 st2 -> same_world st2 st3 -> same_world st1 st3.
Proof.
  intros (? & ? & ? & ? & ? & ?) (? & ? & ? & ? & ? & ?).
  repeat split; congruence.
Qed.

Lemma same_world_refl (st : state) : same_world st st.
Proof. repeat split. Qed.

(** Finding the target keeps the shape of the cache. *)
Lemma remap_target_run (newShaderName : string) (st st1 : state)
    (sh2 : option nat) :
  registry_ok st ->
  remap_target newShaderName st = Some (sh2, st1) ->
  registry_ok st1 /\ same_world st st1.
Proof.
  intros Hok Hrun. unfold remap_target in Hrun.
  unfold bind at 1, gets at 1 in Hrun.
  apply bind_Some in Hrun as (sh & st0 & Hfind & Hrun).
  apply find_in_chain_state in Hfind. subst st0.
  destruct (bool_decide _); [|injection Hrun as <- <-; auto using same_world_refl].
  apply bind_Some in Hrun as (r & sta & Hf & Hrun).
  apply registry_ok_R_FindShader in Hf as [Hoka Hwa]; [|assumption].
  apply bind_Some in Hrun as (s & stb & Hd & Hrun).
  apply deref_run in Hd as [-> _].
  apply bind_Some in Hrun as (sh2' & stc & Hg & Hrun).
  apply R_GetShaderByHandle_run in Hg as [(Eh & Et & _) Hwc].
  unfold bind, gets, Printf, modify, ret in Hrun.
  destruct (_ || _); injection Hrun as <- <-; (split;
    [apply (registry_ok_same sta); auto
    |eapply same_world_trans; [exact Hwa|];
     destruct Hwc as (? & ? & ? & ? & ? & ?); repeat split; assumption]).
Qed.

Lemma RE_RemapShader_run (shaderName newShaderName : string)
    (offset : option string) (st st' : state) :
  RE_RemapShader shaderName newShaderName offset st = Some (tt, st') ->
  let N := R_StripExtension shaderName MAX_QPATH in
  exists sh2 st1 hp',
    remap_target newShaderName st = Some (sh2, st1)
    /\ remap_chain N sh2 (length (heap st1)) (heap st1)
         (hashTable st1 !! generateHashValue N FILE_HASH_SIZE) = Some hp'
    /\ match offset with
       | Some t =>
           exists a2 s2,
             sh2 = Some a2 /\ hp' !! a2 = Some s2
             /\ st' = with_heap (<[a2 := set_timeOffset (atof t) s2]> hp') st1
       | None => st' = with_heap hp' st1
       end.
Proof.
  intros Hrun N. unfold RE_RemapShader in Hrun.
  apply bind_Some in Hrun as (sh2 & st1 & Ht & Hrun).
  fold N in Hrun. apply bind_Some in Hrun as ([] & st2 & Hc & Hrun).
  destruct (remap_chain _ _ _ _ _) as [hp'|] eqn:Hchain; [|discriminate].
  injection Hc as <-. exists sh2, st1, hp'. split; [assumption|].
  split; [exact Hchain|]. destruct offset as [t|].
  - unfold store in Hrun. destruct sh2 as [a2|]; [|discriminate]. simpl in Hrun.
    destruct (hp' !! a2) as [s2|] eqn:E; [|discriminate].
    injection Hrun as <-. exists a2, s2. auto.
  - injection Hrun as <-. reflexivity.
Qed.

(** What [RE_RemapShader] leaves, for the target [sh2] that
    [remap_target] has found in the state [st1]. *)
Lemma RE_RemapShader_post (shaderName newShaderName : string)
    (offset : option string) (st st' : state) :
  registry_ok st ->
  RE_RemapShader shaderName newShaderName offset st = Some (tt, st') ->
  let N := R_StripExtension shaderName MAX_QPATH in
  exists sh2 st1,
    remap_target newShaderName st = Some (sh2, st1)
    /\ (forall b a s',
          cached st' b a -> heap st' !! a = Some s' ->
          Q_stricmp (name s') N = 0 ->
          remappedShader s' = remap_of sh2 a)
    /\ (forall a s s',
          heap st1 !! a = Some s -> heap st' !! a = Some s' ->
          Q_stricmp (name s) N <> 0 ->
          remappedShader s' = remappedShader s)
    /\ (forall t, offset = Some t ->
          exists a2 s2, sh2 = Some a2 /\ heap st' !! a2 = Some s2
                        /\ timeOffset s2 = atof t)
    /\ (forall a s s',
          heap st1 !! a = Some s -> heap st' !! a = Some s' ->
          Some a <> sh2 \/ offset = None ->
          timeOffset s' = timeOffset s)
    /\ same_shape (heap st1) (heap st') /\ hashTable st' = hashTable st1
    /\ registry_ok st1.
Proof.
  intros Hok Hrun N.
  destruct (RE_RemapShader_run _ _ _ _ _ Hrun)
    as (sh2 & st1 & hp' & Ht & Hchain & Hoff). fold N in Hchain.
  destruct (remap_target_run _ _ _ _ Hok Ht) as [Hok1 _].
  apply remap_chain_spec in Hchain as (Hshape & Hany & Hch).
  assert (Htab : hashTable st' = hashTable st1).
  { destruct offset; [destruct Hoff as (? & ? & _ & _ & ->)|subst st'];
      reflexivity. }
  assert (Hfinal : forall a s1, hp' !! a = Some s1 ->
            exists s', heap st' !! a = Some s'
                       /\ same_links s1 s'
                       /\ remappedShader s' = remappedShader s1
                       /\ (timeOffset s' = timeOffset s1
                           \/ (Some a = sh2 /\ offset <> None))).
  { intros a s1 Ha. destruct offset as [t|].
    - destruct Hoff as (a2 & s2 & -> & Ha2 & ->). simpl.
      destruct (decide (a = a2)) as [->|Hne].
      + rewrite list_lookup_insert_eq by eauto using lookup_lt_Some.
        rewrite Ha in Ha2. injection Ha2 as <-. eexists. split; [reflexivity|].
        split; [repeat split|]. split; [reflexivity|]. right. split; congruence.
      + rewrite list_lookup_insert_ne by auto. exists s1.
        split; [assumption|]. split; [apply same_links_refl|]. auto.
    - subst st'. simpl. exists s1. split; [assumption|].
      split; [apply same_links_refl|]. auto. }
  assert (Hshape' : same_shape (heap st1) (heap st')).
  { apply Forall2_same_length_lookup_2.
    - rewrite (Forall2_length _ _ _ Hshape).
      destruct offset; [destruct Hoff as (? & ? & _ & _ & ->)|subst st'];
        simpl; [rewrite length_insert|]; reflexivity.
    - intros a s s' Hs Hs'.
      destruct (Forall2_lookup_l _ _ _ _ _ Hshape Hs) as (s1 & Hs1 & Hl1).
      destruct (Hfinal a s1 Hs1) as (s'' & Hs'' & Hl2 & _).
      rewrite Hs' in Hs''. injection Hs'' as <-.
      eapply same_links_trans; eassumption. }
  exists sh2, st1. split; [assumption|].
  split; [|split; [|split; [|split; [|auto]]]].
  - intros b a s' (h & Hh & Hc) Hs' Hname.
    rewrite Htab in Hh.
    apply (chain_from_shape _ _ _ _ (same_shape_sym _ _ Hshape')) in Hc.
    destruct (Forall2_lookup_r _ _ _ _ _ Hshape' Hs')
      as (s & Hs & Hn & _).
    rewrite Hn in Hname.
    assert (Hb : generateHashValue (name s) FILE_HASH_SIZE = b).
    { apply (ok_bucket _ Hok1 b a s); [exists h; auto | assumption]. }
    rewrite (generateHashValue_stricmp _ _ _ Hname) in Hb. subst b.
    assert (Hm : same_name N s = true) by (unfold same_name; lia).
    pose proof (Hch h a s Hh Hc Hs Hm) as Ha.
    destruct (Hfinal a _ Ha) as (s'' & Hs'' & _ & Hr & _).
    rewrite Hs' in Hs''. injection Hs'' as <-. exact Hr.
  - intros a s s' Hs Hs' Hname.
    destruct (Hany a s Hs) as [Ha|[Hm _]].
    + destruct (Hfinal a _ Ha) as (s'' & Hs'' & _ & Hr & _).
      rewrite Hs' in Hs''. injection Hs'' as <-. exact Hr.
    + unfold same_name in Hm. lia.
  - intros t ->. destruct Hoff as (a2 & s2 & -> & Ha2 & ->).
    exists a2, (set_timeOffset (atof t) s2). split; [reflexivity|].
    split; [|reflexivity]. simpl.
    apply list_lookup_insert_eq. eauto using lookup_lt_Some.
  - intros a s s' Hs Hs' Hcase.
    assert (Ha : exists s1, hp' !! a = Some s1 /\ timeOffset s1 = timeOffset s).
    { destruct (Hany a s Hs) as [Ha|[_ Ha]]; eauto. }
    destruct Ha as (s1 & Ha & Et).
    destruct (Hfinal a _ Ha) as (s'' & Hs'' & _ & _ & Ho).
    rewrite Hs' in Hs''. injection Hs'' as <-.
    destruct Ho as [Ho|[Ho1 Ho2]]; [congruence|].
    destruct Hcase; congruence.
Qed.


End RemapFacts.

Section RemapUnresolved.
Context `{Platform} `{Collaborators}.

(** [R_FindShader] only ever adds to the store and to the handle table. *)
Lemma R_FindShader_grows (name : option string) (mode : Z) (mip : bool)
    (st st1 : state) (r : option nat) :
  R_FindShader name mode mip st = Some (r, st1) ->
  (exists l, heap st1 = heap st ++ l)
  /\ (exists l, tr_shaders st1 = tr_shaders st ++ l).
Proof.
  destruct name as [given|].
  - rewrite R_FindShader_eq. cbv zeta.
    destruct (clamp_state_registry given mode st) as (Eh & _ & Es & _).
    destruct (walk_chain _ _ _ _) as [[a|]|]; [| |discriminate].
    + intros [= <- <-]. rewrite Eh, Es. split; exists []; symmetry;
        apply app_nil_r.
    + intros Hl. apply load_shader_run in Hl as (_ & pending & w & -> & _).
      unfold finished; simpl. rewrite Eh, Es. eauto.
  - intros [= <- <-]. simpl. split; exists []; symmetry; apply app_nil_r.
Qed.

Lemma R_GetShaderByHandle_zero (st : state) (d : nat) :
  tr_shaders st !! O = Some d ->
  R_GetShaderByHandle 0 st = Some (Some d, st).
Proof.
  intros Hd. unfold R_GetShaderByHandle, bind, gets, ret.
  destruct (tr_shaders st) as [|d' l]; [discriminate|].
  simpl in *. injection Hd as ->. reflexivity.
Qed.

(** The target of a remap onto a name that resolves to nothing but a
    default-flagged object is the default shader, and a warning is
    printed. *)
Lemma remap_target_not_found (newShaderName : string) (st st1 : state)
    (d x : nat) (sx : shader_t) :
  tr_defaultShader st = Some d -> tr_shaders st !! O = Some d ->
  walk_chain (same_name (R_StripExtension newShaderName MAX_QPATH))
             (length (heap st)) (heap st)
             (hashTable st
                !! generateHashValue (R_StripExtension newShaderName MAX_QPATH)
                     FILE_HASH_SIZE)
    = Some None ->
  registry_ok st ->
  R_FindShader (Some newShaderName) 0 true st = Some (Some x, st1) ->
  heap st1 !! x = Some sx -> defaultShader sx = true ->
  remap_target newShaderName st
    = Some (Some d,
            with_printed
              (printed st1
               ++ [(PRINT_WARNING, Msg_remap_not_found newShaderName)]) st1).
Proof.
  intros Hdef Hzero Hwalk Hok Hfind Hx Hflag.
  destruct (registry_ok_R_FindShader _ _ _ _ _ _ Hok Hfind)
    as [_ (Hdef1 & _)].
  destruct (R_FindShader_grows _ _ _ _ _ _ Hfind) as [_ [l Hl]].
  assert (Hzero1 : tr_shaders st1 !! O = Some d).
  { rewrite Hl. apply lookup_app_l_Some. assumption. }
  unfold remap_target. unfold bind at 1, gets at 1. rewrite Hdef.
  unfold bind at 1, find_in_chain. rewrite Hwalk.
  rewrite bool_decide_eq_true_2 by reflexivity.
  rewrite (bind_run _ _ _ _ _ Hfind).
  unfold bind at 1, deref. rewrite Hx, Hflag.
  rewrite (bind_run _ _ _ _ _ (R_GetShaderByHandle_zero _ _ Hzero1)).
  unfold bind, gets, Printf, modify, ret. rewrite Hdef1, Hdef.
  rewrite bool_decide_eq_true_2 by reflexivity. reflexivity.
Qed.

(** C10, as the code has it.  When the target name is not in the cache
    and [R_FindShader] resolves it to a default-flagged object,
    [RE_RemapShader] returns all the same, after a warning: every object
    of the cache whose name is the stripped [shaderName] has the default
    shader as its remap reference, but for the default shader itself,
    whose remap reference is null; and a time offset that was given is
    stored on the default shader. *)
Theorem RE_RemapShader_target_not_found (shaderName newShaderName : string)
    (offset : option string) (st st1 : state) (d x : nat) (sx : shader_t) :
  registry_ok st ->
  tr_defaultShader st = Some d -> tr_shaders st !! O = Some d ->
  is_Some (heap st !! d) ->
  walk_chain (same_name (R_StripExtension newShaderName MAX_QPATH))
             (length (heap st)) (heap st)
             (hashTable st
                !! generateHashValue (R_StripExtension newShaderName MAX_QPATH)
                     FILE_HASH_SIZE)
    = Some None ->
  R_FindShader (Some newShaderName) 0 true st = Some (Some x, st1) ->
  heap st1 !! x = Some sx -> defaultShader sx = true ->
  exists st',
    RE_RemapShader shaderName newShaderName offset st = Some (tt, st')
    /\ (PRINT_WARNING, Msg_remap_not_found newShaderName) ∈ printed st'
    /\ (forall b a s',
          cached st' b a -> heap st' !! a = Some s' ->
          Q_stricmp (name s') (R_StripExtension shaderName MAX_QPATH) = 0 ->
          remappedShader s' = if bool_decide (a = d) then None else Some d)
    /\ (forall t, offset = Some t ->
          exists sd', heap st' !! d = Some sd' /\ timeOffset sd' = atof t).
Proof.
  intros Hok Hdef Hzero [sd Hd] Hwalk Hfind Hx Hflag.
  pose proof (remap_target_not_found _ _ _ _ _ _ Hdef Hzero Hwalk Hok Hfind
                Hx Hflag) as Htarget.
  set (stw := with_printed
                (printed st1
                 ++ [(PRINT_WARNING, Msg_remap_not_found newShaderName)]) st1)
    in Htarget.
  destruct (remap_target_run _ _ _ _ Hok Htarget) as [Hokw _].
  destruct (R_FindShader_grows _ _ _ _ _ _ Hfind) as [[l Hl] _].
  assert (Hdw : (d < length (heap stw))%nat).
  { simpl. rewrite Hl, length_app. apply lookup_lt_Some in Hd. lia. }
  set (N := R_StripExtension shaderName MAX_QPATH).
  assert (Hchain : exists hp',
             remap_chain N (Some d) (length (heap stw)) (heap stw)
               (hashTable stw !! generateHashValue N FILE_HASH_SIZE)
             = Some hp').
  { destruct (hashTable stw !! generateHashValue N FILE_HASH_SIZE)
      as [h|] eqn:Eh.
    - apply remap_chain_returns; [apply Hokw| |];
        apply (ok_table _ Hokw _ _ Eh).
    - destruct (length (heap stw)); simpl; eauto. }
  destruct Hchain as [hp' Hchain].
  assert (Hlen : length hp' = length (heap stw)).
  { apply remap_chain_spec in Hchain as (Hshape & _).
    symmetry. apply (Forall2_length _ _ _ Hshape). }
  assert (Hrun : exists st',
             RE_RemapShader shaderName newShaderName offset st
             = Some (tt, st') /\ printed st' = printed stw).
  { unfold RE_RemapShader. rewrite (bind_run _ _ _ _ _ Htarget).
    fold N. unfold bind at 1. rewrite Hchain.
    destruct offset as [t|]; [|eexists; split; reflexivity].
    unfold store; simpl.
    destruct (lookup_lt_is_Some_2 hp' d) as [s2 ->]; [lia|].
    eexists; split; reflexivity. }
  destruct Hrun as (st' & Hrun & Hprinted). exists st'.
  split; [assumption|]. split.
  { rewrite Hprinted. simpl. apply elem_of_app. right. apply list_elem_of_singleton.
    reflexivity. }
  destruct (RE_RemapShader_post _ _ _ _ _ Hok Hrun)
    as (sh2 & st1' & Ht & H1 & _ & H3 & _).
  rewrite Htarget in Ht. injection Ht as <- <-. split.
  - intros b a s' Hc Hs' Hname. rewrite (H1 b a s' Hc Hs' Hname).
    unfold remap_of. destruct (decide (a = d)) as [->|Hne].
    + rewrite !bool_decide_eq_true_2; reflexivity.
    + rewrite !bool_decide_eq_false_2; congruence.
  - intros t Ht. destruct (H3 t Ht) as (a2 & s2 & [= <-] & Hs2 & Hoff). eauto.
Qed.

(** [R_RegisterShaderFromImage] in one equation for each outcome of its
    cache walk. *)
Lemma R_RegisterShaderFromImage_run (given : string) (mode : Z)
    (image : image_t) (mip : bool) (st : state) :
  (forall s, already_loaded_image given mode s = already_loaded given mode s)
  /\ match walk_chain (already_loaded given mode) (length (heap st)) (heap st)
             (hashTable st !! generateHashValue given FILE_HASH_SIZE) with
     | Some (Some a) =>
         (exists s, heap st !! a = Some s
                   /\ R_RegisterShaderFromImage given mode image mip st
                      = Some (index s, st))
         /\ (R_StripExtension given MAX_QPATH = given ->
             effective_mode (tr_numLightmaps st) mode = mode ->
             R_FindShader (Some given) mode mip st = Some (Some a, st))
     | Some None =>
         R_RegisterShaderFromImage given mode image mip st
         = Some (Z.of_nat (length (tr_shaders st)),
                 finished
                   (with_shader
                      (mk_shader (Q_strncpyz given MAX_QPATH) mode 0 false
                                 None 0 None (DefaultShadingCmds given image))
                      st))
     | None => R_RegisterShaderFromImage given mode image mip st = None
     end.
Proof.
  assert (Htest : forall s, already_loaded_image given mode s
                            = already_loaded given mode s).
  { intros s. unfold already_loaded_image, already_loaded. apply andb_comm. }
  split; [exact Htest|].
  assert (Hrun : R_RegisterShaderFromImage given mode image mip st
            = match walk_chain (already_loaded given mode) (length (heap st))
                      (heap st)
                      (hashTable st !! generateHashValue given FILE_HASH_SIZE)
              with
              | Some (Some a) => (let* s := deref (Some a) in ret (index s)) st
              | Some None =>
                  (R_SetTheShader given mode >>>
                   R_CreateDefaultShadingCmds given image >>>
                   let* sh := FinishShader in
                   let* s := deref sh in ret (index s)) st
              | None => None
              end).
  { unfold R_RegisterShaderFromImage. unfold bind at 1. unfold find_in_chain.
    rewrite (walk_chain_ext _ _ _ _ _ Htest).
    destruct (walk_chain _ _ _ _) as [[a|]|]; reflexivity. }
  rewrite Hrun. clear Hrun.
  destruct (walk_chain _ _ _ _) as [[a|]|] eqn:Hw; [| |reflexivity].
  - split.
    + apply walk_chain_found in Hw as (h & s & _ & _ & Hs & _).
      exists s. split; [assumption|]. unfold bind, deref, ret. rewrite Hs.
      reflexivity.
    + intros Hstrip Hmode. rewrite R_FindShader_eq. cbv zeta.
      rewrite Hstrip, Hmode, Hw. f_equal. f_equal.
      unfold clamp_state, clamp_warning. unfold effective_mode in Hmode.
      destruct ((mode >=? 0) && (mode >=? tr_numLightmaps st)) eqn:E1.
      * reflexivity.
      * destruct (mode <? LIGHTMAP_2D) eqn:E2; [|reflexivity].
        unfold LIGHTMAP_BY_VERTEX, LIGHTMAP_2D in *. lia.
  - unfold R_SetTheShader, R_CreateDefaultShadingCmds. unfold bind at 1 2, modify.
    rewrite (bind_run _ _ _ _ _ (FinishShader_run _)).
    unfold bind, deref, ret. unfold finished at 1. simpl.
    rewrite list_lookup_middle by reflexivity. reflexivity.
Qed.

(** C9, as the code has it.  [R_RegisterShaderFromImage] walks the chain
    of the bucket of the name as it was given, with the test of the cache
    walk of [R_FindShader] on that name and on the lighting mode as it
    was given.  On a hit it returns the index of the object found and
    changes nothing; with a name that carries no extension and a mode
    that the clamp leaves alone, it is the object [R_FindShader] finds.
    On a miss it enters a new shader made from the image, and nothing in
    that depends on the shader text. *)
Theorem R_RegisterShaderFromImage_cache_check (given : string) (mode : Z)
    (image : image_t) (mip : bool) (st : state) :
  (forall s, already_loaded_image given mode s = already_loaded given mode s)
  /\ match walk_chain (already_loaded given mode) (length (heap st)) (heap st)
             (hashTable st !! generateHashValue given FILE_HASH_SIZE) with
     | Some (Some a) =>
         (exists s, heap st !! a = Some s
                   /\ R_RegisterShaderFromImage given mode image mip st
                      = Some (index s, st))
         /\ (R_StripExtension given MAX_QPATH = given ->
             effective_mode (tr_numLightmaps st) mode = mode ->
             R_FindShader (Some given) mode mip st = Some (Some a, st))
     | Some None =>
         R_RegisterShaderFromImage given mode image mip st
         = Some (Z.of_nat (length (tr_shaders st)),
                 finished
                   (with_shader
                      (mk_shader (Q_strncpyz given MAX_QPATH) mode 0 false
                                 None 0 None (DefaultShadingCmds given image))
                      st))
     | None => R_RegisterShaderFromImage given mode image mip st = None
     end.
Proof. apply R_RegisterShaderFromImage_run. Qed.

End RemapUnresolved.

(** ** A default-flagged object stays the answer for its name *)

Section LaterCalls.
Context `{Platform} `{Collaborators}.






End LaterCalls.

(** ** Every operation of the file keeps the shape of the cache *)

Section ShapeKept.
Context `{Platform} `{Collaborators}.

Lemma registry_ok_shape (st st' : state) :
  same_shape (heap st) (heap st') -> hashTable st' = hashTable st ->
  registry_ok st -> registry_ok st'.
Proof.
  intros Hsh Et [Hheap Htable Hdf Hbucket].
  pose proof (same_shape_sym _ _ Hsh) as Hsh'.
  split.
  - eapply heap_ok_shape; eassumption.
  - intros b h Hh. rewrite Et in Hh.
    rewrite <- (Forall2_length _ _ _ Hsh). eauto.
  - intros a b sa' sb' (s' & c & Hs' & Hn' & Hc') Ha' Hb' Hdef.
    destruct (Forall2_lookup_r _ _ _ _ _ Hsh Ha') as (sa & Ha & Hna & Hxa & _).
    destruct (Forall2_lookup_r _ _ _ _ _ Hsh Hb')
      as (sb & Hb & Hnb & _ & Hfb & _).
    rewrite Hna, Hnb. apply (Hdf a b sa sb); auto; [|congruence].
    rewrite Ha' in Hs'. injection Hs' as <-.
    exists sa, c. split; [assumption|]. split; [congruence|].
    eapply chain_from_shape; eassumption.
  - intros b a s' (h & Hh & Hc') Hs'. rewrite Et in Hh.
    destruct (Forall2_lookup_r _ _ _ _ _ Hsh Hs') as (s & Hs & Hn & _).
    rewrite Hn. apply (Hbucket b a s); [|assumption].
    exists h. split; [assumption|]. eapply chain_from_shape; eassumption.
Qed.

Lemma registry_ok_RE_RemapShader (shaderName newShaderName : string)
    (offset : option string) (st st' : state) :
  registry_ok st ->
  RE_RemapShader shaderName newShaderName offset st = Some (tt, st') ->
  registry_ok st'.
Proof.
  intros Hok Hrun.
  destruct (RE_RemapShader_post _ _ _ _ _ Hok Hrun)
    as (sh2 & st1 & _ & _ & _ & _ & _ & Hsh & Et & Hok1).
  apply (registry_ok_shape st1); assumption.
Qed.

Lemma registry_ok_R_ClearShaderHashTable (st st' : state) :
  registry_ok st -> R_ClearShaderHashTable st = Some (tt, st') ->
  registry_ok st'.
Proof.
  intros [Hheap _ Hdf _] [= <-]. split; simpl; try assumption.
  - intros b h Hh. simpl in Hh. rewrite lookup_empty in Hh. discriminate.
  - intros b a s (h & Hh & _). simpl in Hh. rewrite lookup_empty in Hh.
    discriminate.
Qed.

Lemma registry_ok_R_RegisterShaderFromImage (given : string) (mode : Z)
    (image : image_t) (mip : bool) (st st' : state) (r : Z) :
  Z.of_nat (String.length given) < MAX_QPATH ->
  registry_ok st ->
  R_RegisterShaderFromImage given mode image mip st = Some (r, st') ->
  registry_ok st'.
Proof.
  intros Hlen Hok.
  destruct (R_RegisterShaderFromImage_run given mode image mip st)
    as [_ Hcheck].
  destruct (walk_chain _ _ _ _) as [[a|]|] eqn:Hw.
  - destruct Hcheck as [(s & _ & ->) _]. intros [= _ <-]. assumption.
  - rewrite Hcheck. intros [= _ <-].
    apply registry_ok_finished.
    + apply (registry_ok_same st); auto.
    + simpl. rewrite (Q_strncpyz_short _ _ Hlen).
      intros b s (h & Hh & Hc) Hs Hdef E. simpl in Hh, Hc, Hs.
      rewrite Hh in Hw.
      pose proof (walk_chain_miss _ _ _ _ Hw b s Hc Hs) as Hmiss.
      unfold already_loaded in Hmiss.
      rewrite Hdef, orb_true_r, andb_true_r in Hmiss.
      apply Q_stricmp_sym in E. lia.
  - rewrite Hcheck. discriminate.
Qed.

End ShapeKept.

(** ** The index over the shader text *)

Arguments Q_stricmp : simpl never.
Arguments generateHashValue : simpl never.
Arguments buckets : simpl never.
Arguments bucket_sizes : simpl never.

Lemma bucket_base_zero (sizes : list nat) : bucket_base sizes O = O.
Proof. destruct sizes; reflexivity. Qed.

Lemma bucket_base_succ (sizes : list nat) (i n : nat) :
  sizes !! i = Some n ->
  bucket_base sizes (S i) = (bucket_base sizes i + (n + 1))%nat.
Proof.
  revert i. induction sizes as [|m rest IH]; intros i Hn; [discriminate|].
  destruct i as [|i].
  - injection Hn as ->. simpl. rewrite bucket_base_zero. lia.
  - simpl in Hn. change (bucket_base (m :: rest) (S (S i)))
      with (m + 1 + bucket_base rest (S i))%nat.
    rewrite (IH i Hn). simpl. lia.
Qed.

Lemma bucket_base_mono (sizes : list nat) (i j : nat) :
  (i <= j)%nat -> (bucket_base sizes i <= bucket_base sizes j)%nat.
Proof.
  revert i j. induction sizes as [|m rest IH]; intros i j Hij.
  - destruct i, j; simpl; lia.
  - destruct i as [|i], j as [|j]; simpl; try lia.
    specialize (IH i j). lia.
Qed.

Lemma bucket_base_insert (sizes : list nat) (i n j : nat) :
  sizes !! i = Some n ->
  bucket_base (<[i := S n]> sizes) j
  = (bucket_base sizes j + if decide (i < j)%nat then 1 else 0)%nat.
Proof.
  revert i j. induction sizes as [|m rest IH]; intros i j Hn; [discriminate|].
  destruct i as [|i], j as [|j]; simpl in *.
  - lia.
  - injection Hn as ->. destruct (decide (0 < S j)%nat); lia.
  - lia.
  - rewrite (IH i j Hn).
    destruct (decide (i < j)%nat), (decide (S i < S j)%nat); lia.
Qed.

Lemma bucket_base_replicate (n : nat) :
  bucket_base (replicate n O) n = n.
Proof. induction n as [|n IH]; simpl; [reflexivity|]. rewrite IH. lia. Qed.

(** Two slots of the block at the same place are the same slot of the
    same bucket. *)
Lemma slot_unique (sizes : list nat) (i j k l n m : nat) :
  sizes !! i = Some n -> sizes !! j = Some m ->
  (k <= n)%nat -> (l <= m)%nat ->
  (bucket_base sizes i + k = bucket_base sizes j + l)%nat ->
  i = j /\ k = l.
Proof.
  intros Hi Hj Hk Hl E.
  pose proof (bucket_base_succ _ _ _ Hi) as Si.
  pose proof (bucket_base_succ _ _ _ Hj) as Sj.
  destruct (lt_eq_lt_dec i j) as [[Hlt | ->] | Hgt].
  - pose proof (bucket_base_mono sizes (S i) j). lia.
  - split; [reflexivity | lia].
  - pose proof (bucket_base_mono sizes (S j) i). lia.
Qed.

Lemma assign_buckets_lt (sizes : list nat) :
  forall i0 off table k,
    k < i0 -> assign_buckets sizes i0 off table !! k = table !! k.
Proof.
  induction sizes as [|n rest IH]; intros i0 off table k Hk; [reflexivity|].
  simpl. rewrite IH by lia. apply lookup_insert_ne. lia.
Qed.

Lemma assign_buckets_lookup (sizes : list nat) :
  forall i0 off table j,
    (j < length sizes)%nat ->
    assign_buckets sizes i0 off table !! (i0 + Z.of_nat j)
    = Some (off + bucket_base sizes j)%nat.
Proof.
  induction sizes as [|n rest IH]; intros i0 off table j Hj; simpl in Hj;
    [lia|].
  destruct j as [|j]; simpl.
  - rewrite Z.add_0_r, assign_buckets_lt by lia.
    rewrite lookup_insert_eq. f_equal. lia.
  - replace (i0 + Z.of_nat (S j)) with (i0 + 1 + Z.of_nat j) by lia.
    rewrite IH by lia. f_equal. lia.
Qed.

Section IndexFacts.
Context `{Platform} `{Collaborators}.

Lemma bucket_of_range (d : definition_t) :
  0 <= bucket_of d < MAX_SHADERTEXT_HASH.
Proof.
  apply (generateHashValue_range (def_name d) MAX_SHADERTEXT_HASH).
  unfold MAX_SHADERTEXT_HASH, INT_MAX. lia.
Qed.

Lemma bucket_of_nat (d : definition_t) :
  (Z.to_nat (bucket_of d) < buckets)%nat
  /\ Z.of_nat (Z.to_nat (bucket_of d)) = bucket_of d.
Proof. pose proof (bucket_of_range d). unfold buckets. lia. Qed.

Lemma definitions_returns :
  tokenizer_advances -> skipper_advances ->
  forall fuel p, (String.length p < fuel)%nat ->
                 exists ds, definitions fuel p = Some ds.
Proof.
  intros Htok Hskip. induction fuel as [|fuel IH]; intros p Hp; [lia|].
  simpl. destruct (R_ParseExt p true) as [token p1] eqn:E1.
  destruct (Htok _ _ _ _ E1) as [_ Hlt].
  destruct token as [|c token]; [eauto|].
  destruct (SkipBracedSection p1 0) as [ok p2] eqn:E2.
  pose proof (Hskip _ _ _ _ E2). pose proof (Hlt ltac:(discriminate)).
  destruct (IH p2) as [rest ->]; [lia|]. eauto.
Qed.

(** Each definition was read by the tokenizer at its cursor. *)
Lemma definitions_parse (fuel : nat) :
  forall p ds, definitions fuel p = Some ds ->
  forall d, d ∈ ds ->
    R_ParseExt (def_at d) true = (def_name d, def_body d)
    /\ def_name d <> EmptyString.
Proof.
  induction fuel as [|fuel IH]; intros p ds; simpl; [discriminate|].
  destruct (R_ParseExt p true) as [token p1] eqn:E1.
  destruct token as [|c token].
  - intros [= <-] d Hd. inversion Hd.
  - destruct (SkipBracedSection p1 0) as [ok p2].
    destruct (definitions fuel p2) as [rest|] eqn:E; [|discriminate].
    intros [= <-] d Hd. apply elem_of_cons in Hd as [->|Hd].
    + simpl. split; [assumption | discriminate].
    + eapply IH; eassumption.
Qed.

Lemma linear_scan_definitions (fuel : nat) (shadername : string) :
  forall p ds, definitions fuel p = Some ds ->
    linear_scan fuel p shadername
    = Some (def_body <$> find_definition shadername ds).
Proof.
  induction fuel as [|fuel IH]; intros p ds; simpl; [discriminate|].
  destruct (R_ParseExt p true) as [token p1] eqn:E1.
  destruct token as [|c token]; [intros [= <-]; reflexivity|].
  destruct (SkipBracedSection p1 0) as [ok p2].
  destruct (definitions fuel p2) as [rest|] eqn:E; [|discriminate].
  intros [= <-]. simpl.
  destruct (Q_stricmp (String c token) shadername =? 0); [reflexivity|].
  apply IH. assumption.
Qed.

(** *** The first loop *)

Lemma bucket_sizes_length (ds : list definition_t) :
  length (bucket_sizes ds) = buckets.
Proof. unfold bucket_sizes. rewrite length_fmap. apply length_seq. Qed.

Lemma bucket_sizes_lookup (ds : list definition_t) (i : nat) :
  (i < buckets)%nat ->
  bucket_sizes ds !! i = Some (length (bucket_defs ds (Z.of_nat i))).
Proof.
  intros Hi. unfold bucket_sizes. rewrite list_lookup_fmap.
  rewrite lookup_seq_lt by assumption. reflexivity.
Qed.

Lemma bucket_sizes_nil : bucket_sizes [] = replicate buckets O.
Proof.
  apply list_eq. intros i. destruct (decide (i < buckets)%nat) as [Hi|Hi].
  - rewrite bucket_sizes_lookup by assumption.
    symmetry. apply lookup_replicate. auto.
  - rewrite !lookup_ge_None_2; [reflexivity| |].
    + rewrite length_replicate. lia.
    + rewrite bucket_sizes_length. lia.
Qed.

Lemma bucket_defs_snoc (ds : list definition_t) (d : definition_t) (b : Z) :
  bucket_defs (ds ++ [d]) b
  = bucket_defs ds b ++ if decide (bucket_of d = b) then [d] else [].
Proof.
  unfold bucket_defs. rewrite filter_app. reflexivity.
Qed.

Lemma bucket_sizes_snoc (ds : list definition_t) (d : definition_t) :
  <[Z.to_nat (bucket_of d) := S (length (bucket_defs ds (bucket_of d)))]>
    (bucket_sizes ds)
  = bucket_sizes (ds ++ [d]).
Proof.
  destruct (bucket_of_nat d) as [Hlt Hb].
  apply list_eq. intros i. destruct (decide (i < buckets)%nat) as [Hi|Hi].
  - rewrite (bucket_sizes_lookup (ds ++ [d])) by assumption.
    rewrite bucket_defs_snoc, length_app.
    destruct (decide (Z.to_nat (bucket_of d) = i)) as [<-|Hne].
    + rewrite list_lookup_insert_eq by (rewrite bucket_sizes_length; lia).
      rewrite Hb. rewrite decide_True by reflexivity. simpl. f_equal. lia.
    + rewrite list_lookup_insert_ne by assumption.
      rewrite bucket_sizes_lookup by assumption.
      rewrite decide_False by lia. simpl. f_equal. lia.
  - rewrite !lookup_ge_None_2; [reflexivity| |].
    + rewrite bucket_sizes_length. lia.
    + rewrite length_insert, bucket_sizes_length. lia.
Qed.

Lemma array_get_bucket_sizes (ds : list definition_t) (d : definition_t) :
  array_get (bucket_sizes ds) (bucket_of d)
  = Some (length (bucket_defs ds (bucket_of d))).
Proof.
  destruct (bucket_of_nat d) as [Hlt Hb]. pose proof (bucket_of_range d).
  unfold array_get. destruct (Z.ltb_spec (bucket_of d) 0); [lia|].
  rewrite bucket_sizes_lookup by assumption. rewrite Hb. reflexivity.
Qed.

(** The first loop counts the definitions of each bucket, and all. *)
Lemma count_pass_spec (fuel : nat) :
  forall p ds2 ds1 size,
    definitions fuel p = Some ds2 ->
    count_pass fuel p (bucket_sizes ds1) size
    = Some (bucket_sizes (ds1 ++ ds2), (size + length ds2)%nat).
Proof.
  induction fuel as [|fuel IH]; intros p ds2 ds1 size; simpl; [discriminate|].
  destruct (R_ParseExt p true) as [token p1] eqn:E1.
  destruct token as [|c token].
  - intros [= <-]. rewrite app_nil_r, Nat.add_0_r. reflexivity.
  - destruct (SkipBracedSection p1 0) as [ok p2].
    destruct (definitions fuel p2) as [rest|] eqn:E; [|discriminate].
    intros [= <-].
    set (d := mk_definition p (String c token) p1).
    change (generateHashValue (String c token) MAX_SHADERTEXT_HASH)
      with (bucket_of d).
    rewrite array_get_bucket_sizes, bucket_sizes_snoc.
    rewrite (IH p2 rest (ds1 ++ [d]) (S size) E).
    rewrite <- app_assoc. simpl. do 2 f_equal. lia.
Qed.

Lemma bucket_base_total (ds : list definition_t) :
  bucket_base (bucket_sizes ds) buckets = (length ds + buckets)%nat.
Proof.
  induction ds as [|d ds IH] using rev_ind.
  - rewrite bucket_sizes_nil. apply bucket_base_replicate.
  - destruct (bucket_of_nat d) as [Hlt Hb].
    rewrite <- bucket_sizes_snoc.
    rewrite (bucket_base_insert _ _ (length (bucket_defs ds (bucket_of d)))).
    + rewrite IH, length_app. rewrite decide_True by assumption. simpl. lia.
    + rewrite bucket_sizes_lookup by assumption. rewrite Hb. reflexivity.
Qed.

(** *** The second loop *)

Lemma bucket_defs_nil (b : Z) : bucket_defs [] b = [].
Proof. reflexivity. Qed.

Lemma index_inv_start (ds : list definition_t) :
  index_inv (bucket_sizes ds) []
            (replicate (length ds + Z.to_nat MAX_SHADERTEXT_HASH) None).
Proof.
  fold buckets. split.
  - rewrite length_replicate. symmetry. apply bucket_base_total.
  - intros i k n Hi Hn Hk. rewrite bucket_defs_nil.
    apply lookup_replicate. split; [reflexivity|].
    rewrite <- bucket_base_total.
    pose proof (bucket_base_succ _ _ _ Hn).
    pose proof (bucket_base_mono (bucket_sizes ds) (S i) buckets). lia.
Qed.

Lemma index_inv_step (ds ds1 rest : list definition_t) (d : definition_t)
    (mem : list (option string)) :
  ds = ds1 ++ d :: rest ->
  index_inv (bucket_sizes ds) ds1 mem ->
  let pos := (bucket_base (bucket_sizes ds) (Z.to_nat (bucket_of d))
              + length (bucket_defs ds1 (bucket_of d)))%nat in
  (pos < length mem)%nat
  /\ index_inv (bucket_sizes ds) (ds1 ++ [d]) (<[pos := Some (def_at d)]> mem).
Proof.
  intros Hds [Hlen Hslots] pos.
  destruct (bucket_of_nat d) as [Hlt Hb].
  set (i := Z.to_nat (bucket_of d)) in *.
  set (sizes := bucket_sizes ds) in *.
  set (n := length (bucket_defs ds1 (bucket_of d))) in *.
  assert (Hsize : sizes !! i = Some (length (bucket_defs ds (bucket_of d)))).
  { subst sizes. rewrite bucket_sizes_lookup by assumption. rewrite Hb.
    reflexivity. }
  assert (Hn : (n < length (bucket_defs ds (bucket_of d)))%nat).
  { subst n. rewrite Hds. unfold bucket_defs.
    rewrite filter_app, filter_cons_True by reflexivity.
    rewrite length_app. simpl. lia. }
  assert (Hpos : (pos < length mem)%nat).
  { pose proof (bucket_base_succ _ _ _ Hsize).
    pose proof (bucket_base_mono sizes (S i) buckets). subst pos. lia. }
  split; [assumption|]. split; [rewrite length_insert; assumption|].
  intros i' k n' Hi' Hn' Hk.
  rewrite bucket_defs_snoc.
  destruct (decide (bucket_base sizes i' + k = pos)%nat) as [E|Hne].
  - destruct (slot_unique sizes i' i k n n' _ Hn' Hsize Hk ltac:(lia) E)
      as [-> ->].
    rewrite E, list_lookup_insert_eq by assumption.
    rewrite decide_True by (subst i; lia). fold i. rewrite Hb.
    rewrite list_lookup_middle by reflexivity. reflexivity.
  - rewrite list_lookup_insert_ne by lia.
    rewrite (Hslots i' k n' Hi' Hn' Hk). f_equal. f_equal.
    destruct (decide (bucket_of d = Z.of_nat i')) as [Eb|Hb'].
    + assert (i' = i) by (subst i; lia). subst i'. rewrite <- Eb.
      fold n in Hne |- *.
      assert (k <> n) by (intros ->; apply Hne; reflexivity).
      destruct (decide (k < n)%nat).
      * rewrite lookup_app_l by assumption. reflexivity.
      * rewrite (lookup_ge_None_2 (bucket_defs ds1 (bucket_of d)) k)
          by (fold n; lia).
        symmetry. apply lookup_ge_None_2. rewrite length_app. simpl.
        fold n. lia.
    + rewrite app_nil_r. reflexivity.
Qed.

(** The second loop enters every definition in the slot that follows the
    definitions of its bucket entered before it. *)
Lemma fill_pass_spec (table : gmap Z nat) (ds : list definition_t)
    (fuel : nat) :
  (forall i, (i < buckets)%nat ->
             table !! Z.of_nat i = Some (bucket_base (bucket_sizes ds) i)) ->
  forall p ds2 ds1 mem,
    ds = ds1 ++ ds2 ->
    definitions fuel p = Some ds2 ->
    index_inv (bucket_sizes ds) ds1 mem ->
    exists mem',
      fill_pass fuel p table (bucket_sizes ds1) mem = Some mem'
      /\ index_inv (bucket_sizes ds) ds mem'.
Proof.
  intros Htable. induction fuel as [|fuel IH]; intros p ds2 ds1 mem Hds;
    simpl; [discriminate|].
  destruct (R_ParseExt p true) as [token p1] eqn:E1.
  destruct token as [|c token].
  - intros [= <-] Hinv. rewrite app_nil_r in Hds. subst ds1. eauto.
  - destruct (SkipBracedSection p1 0) as [ok p2].
    destruct (definitions fuel p2) as [rest|] eqn:E; [|discriminate].
    intros [= <-] Hinv.
    set (d := mk_definition p (String c token) p1) in *.
    change (generateHashValue (String c token) MAX_SHADERTEXT_HASH)
      with (bucket_of d).
    destruct (bucket_of_nat d) as [Hlt Hb].
    pose proof (Htable _ Hlt) as Ht. rewrite Hb in Ht. rewrite Ht.
    rewrite array_get_bucket_sizes.
    destruct (index_inv_step ds ds1 rest d mem Hds Hinv) as [Hpos Hinv'].
    apply Nat.ltb_lt in Hpos. rewrite Hpos.
    change (Some p) with (Some (def_at d)).
    rewrite bucket_sizes_snoc.
    apply (IH p2 rest (ds1 ++ [d])); auto.
    rewrite <- app_assoc. exact Hds.
Qed.

(** The block once the index is built: the array of each bucket holds the
    cursors of its definitions, then the null entry, and the array of the
    next bucket follows at once. *)
Lemma index_inv_bucket (ds : list definition_t) (mem : list (option string))
    (i : nat) :
  index_inv (bucket_sizes ds) ds mem -> (i < buckets)%nat ->
  drop (bucket_base (bucket_sizes ds) i) mem
  = ((fun d => Some (def_at d)) <$> bucket_defs ds (Z.of_nat i))
    ++ None :: drop (bucket_base (bucket_sizes ds) (S i)) mem.
Proof.
  intros [Hlen Hslots] Hi.
  pose proof (bucket_sizes_lookup ds i Hi) as Hsize.
  pose proof (bucket_base_succ _ _ _ Hsize) as Hsucc.
  set (l := bucket_defs ds (Z.of_nat i)) in *.
  apply list_eq. intros j. rewrite lookup_drop.
  destruct (decide (j <= length l)%nat) as [Hj|Hj].
  - rewrite (Hslots i j (length l) Hi Hsize Hj). fold l.
    destruct (decide (j < length l)%nat) as [Hlt|Hge].
    + rewrite lookup_app_l by (rewrite length_fmap; assumption).
      rewrite list_lookup_fmap.
      destruct (lookup_lt_is_Some_2 l j Hlt) as [d ->]. reflexivity.
    + assert (j = length l) by lia. subst j.
      rewrite lookup_ge_None_2 by lia.
      rewrite lookup_app_r by (rewrite length_fmap; lia).
      rewrite length_fmap, Nat.sub_diag. reflexivity.
  - rewrite lookup_app_r by (rewrite length_fmap; lia).
    rewrite length_fmap.
    replace (j - length l)%nat with (S (j - length l - 1)) by lia.
    match goal with
    | |- _ = (None :: ?x) !! S ?k => change ((None :: x) !! S k) with (x !! k)
    end.
    rewrite lookup_drop. f_equal. lia.
Qed.

(** *** The lookup *)

Lemma bucket_walk_spec (shadername : string) (l : list definition_t)
    (rest : list (option string)) :
  (forall d, d ∈ l -> R_ParseExt (def_at d) true = (def_name d, def_body d)) ->
  bucket_walk shadername
              (((fun d => Some (def_at d)) <$> l) ++ None :: rest)
  = Some (def_body <$> find_definition shadername l).
Proof.
  induction l as [|d l IH]; intros Hparse; [reflexivity|].
  simpl. rewrite (Hparse d) by (apply elem_of_cons; auto).
  destruct (Q_stricmp (def_name d) shadername =? 0); [reflexivity|].
  apply IH. intros d' Hd'. apply Hparse, elem_of_cons. auto.
Qed.

Lemma find_definition_bucket (shadername : string) (ds : list definition_t) :
  find_definition shadername
    (bucket_defs ds (generateHashValue shadername MAX_SHADERTEXT_HASH))
  = find_definition shadername ds.
Proof.
  induction ds as [|d ds IH]; [reflexivity|].
  unfold bucket_defs in *. rewrite filter_cons.
  destruct (decide _) as [Eb|Hb]; simpl; rewrite IH; [reflexivity|].
  destruct (Z.eqb_spec (Q_stricmp (def_name d) shadername) 0) as [E|_];
    [|reflexivity].
  exfalso. apply Hb. unfold bucket_of.
  apply generateHashValue_stricmp. assumption.
Qed.

Lemma find_definition_Some (shadername : string) (ds : list definition_t)
    (d : definition_t) :
  find_definition shadername ds = Some d ->
  d ∈ ds /\ Q_stricmp (def_name d) shadername = 0.
Proof.
  induction ds as [|d0 ds IH]; simpl; [discriminate|].
  destruct (Z.eqb_spec (Q_stricmp (def_name d0) shadername) 0) as [E|_].
  - intros [= <-]. split; [apply elem_of_cons; auto | assumption].
  - intros Hf. destruct (IH Hf). split; [apply elem_of_cons; auto | assumption].
Qed.

Lemma find_definition_present (ds : list definition_t) (d : definition_t) :
  d ∈ ds -> exists d', find_definition (def_name d) ds = Some d'.
Proof.
  induction ds as [|d0 ds IH]; intros Hd; [inversion Hd|]. simpl.
  destruct (Z.eqb_spec (Q_stricmp (def_name d0) (def_name d)) 0) as [E|Hne];
    [eauto|].
  apply elem_of_cons in Hd as [->|Hd]; [|auto].
  rewrite Q_stricmp_refl in Hne. congruence.
Qed.

End IndexFacts.

Section IndexBuilt.
Context `{Platform} `{Collaborators}.

Lemma SetShaderTextHashTableSizes_run (st : state) (text : string)
    (ds : list definition_t) :
  s_shaderText st = Some text ->
  definitions (S (String.length text)) text = Some ds ->
  exists table mem,
    SetShaderTextHashTableSizes st = Some (tt, with_index table mem st)
    /\ indexed (with_index table mem st) text ds.
Proof.
  intros Htext Hdefs. unfold SetShaderTextHashTableSizes. rewrite Htext.
  fold buckets. rewrite <- bucket_sizes_nil.
  rewrite (count_pass_spec _ _ ds [] O Hdefs). rewrite app_nil_l, Nat.add_0_l.
  set (table := assign_buckets (bucket_sizes ds) 0 O (shaderTextHashTable st)).
  assert (Htable : forall i, (i < buckets)%nat ->
             table !! Z.of_nat i = Some (bucket_base (bucket_sizes ds) i)).
  { intros i Hi. subst table.
    rewrite <- (Z.add_0_l (Z.of_nat i)).
    rewrite assign_buckets_lookup by (rewrite bucket_sizes_length; assumption).
    reflexivity. }
  destruct (fill_pass_spec table ds (S (String.length text)) Htable text ds []
              (replicate (length ds + buckets) None) eq_refl Hdefs
              (index_inv_start ds)) as (mem & Hfill & Hinv).
  rewrite Hfill. exists table, mem. split; [reflexivity|].
  repeat split; try assumption; apply Hinv.
Qed.

(** With the index in place, the lookup gives the first definition of the
    text whose name is the name asked for, up to case; the scan of the
    whole text, which runs when the bucket holds no such definition,
    finds none either. *)
Lemma FindShaderInShaderText_indexed (st : state) (text : string)
    (ds : list definition_t) (shadername : string) :
  indexed st text ds ->
  FindShaderInShaderText shadername st
  = Some (def_body <$> find_definition shadername ds, st)
  /\ exists base,
      shaderTextHashTable st
        !! generateHashValue shadername MAX_SHADERTEXT_HASH = Some base
      /\ bucket_walk shadername (drop base (hashMem st))
         = Some (def_body <$> find_definition shadername ds)
      /\ linear_scan (S (String.length text)) text shadername
         = Some (def_body <$> find_definition shadername ds).
Proof.
  intros (Htext & Hdefs & Hinv & Htable).
  set (b := generateHashValue shadername MAX_SHADERTEXT_HASH).
  assert (Hb : 0 <= b < MAX_SHADERTEXT_HASH).
  { apply (generateHashValue_range shadername MAX_SHADERTEXT_HASH).
    unfold MAX_SHADERTEXT_HASH, INT_MAX. lia. }
  assert (Hi : (Z.to_nat b < buckets)%nat) by (unfold buckets; lia).
  pose proof (Htable _ Hi) as Ht. rewrite Z2Nat.id in Ht by lia.
  pose proof (index_inv_bucket ds _ _ Hinv Hi) as Hdrop.
  rewrite Z2Nat.id in Hdrop by lia.
  assert (Hwalk : bucket_walk shadername
                    (drop (bucket_base (bucket_sizes ds) (Z.to_nat b))
                          (hashMem st))
                  = Some (def_body <$> find_definition shadername ds)).
  { rewrite Hdrop, bucket_walk_spec.
    - subst b. rewrite find_definition_bucket. reflexivity.
    - intros d Hd. apply list_elem_of_filter in Hd as [_ Hd].
      apply (definitions_parse _ _ _ Hdefs d Hd). }
  pose proof (linear_scan_definitions _ shadername _ _ Hdefs) as Hscan.
  split; [|eauto].
  unfold FindShaderInShaderText. fold b. rewrite Ht, Hwalk, Htext, Hscan.
  destruct (find_definition shadername ds); reflexivity.
Qed.

Lemma indexed_same (st st' : state) (text : string) (ds : list definition_t) :
  same_world st st' -> indexed st text ds -> indexed st' text ds.
Proof.
  intros (_ & _ & E1 & E2 & E3 & _) (? & ? & ? & ?). unfold indexed.
  rewrite E1, E2, E3. auto.
Qed.

(** C6.  For a tokenizer and a brace skipper that move forward through
    the text, [SetShaderTextHashTableSizes] returns, and leaves a block
    of one slot for each definition and one more for each bucket, cut
    into one array for each bucket: the array of a bucket holds the
    cursors of the definitions whose name hashes to the bucket, in the
    order of the text, and then one null entry, and the array of the
    next bucket starts right behind it.  [FindShaderInShaderText] then
    finds, for the name of every definition of the text, the first
    definition of that name (up to case), in the walk of the bucket, and
    returns the cursor the tokenizer has left behind the name token; and
    the scan of the whole text runs only when the walk of the bucket has
    found nothing, and then finds nothing. *)
Theorem SetShaderTextHashTableSizes_index (st : state) (text : string) :
  tokenizer_advances -> skipper_advances ->
  s_shaderText st = Some text ->
  exists ds st',
    definitions (S (String.length text)) text = Some ds
    /\ SetShaderTextHashTableSizes st = Some (tt, st')
    /\ length (hashMem st') = (length ds + buckets)%nat
    /\ (forall i, (i < buckets)%nat ->
          exists base,
            let count := length (bucket_defs ds (Z.of_nat i)) in
            shaderTextHashTable st' !! Z.of_nat i = Some base
            /\ take (count + 1) (drop base (hashMem st'))
               = ((fun d => Some (def_at d)) <$> bucket_defs ds (Z.of_nat i))
                 ++ [None]
            /\ (if decide (S i < buckets)%nat
                then shaderTextHashTable st' !! Z.of_nat (S i)
                     = Some (base + count + 1)%nat
                else (base + count + 1)%nat = length (hashMem st')))
    /\ (forall d, d ∈ ds ->
          exists d',
            find_definition (def_name d) ds = Some d'
            /\ d' ∈ ds /\ Q_stricmp (def_name d') (def_name d) = 0
            /\ R_ParseExt (def_at d') true = (def_name d', def_body d')
            /\ FindShaderInShaderText (def_name d) st'
               = Some (Some (def_body d'), st'))
    /\ (forall shadername,
          exists base,
            shaderTextHashTable st'
              !! generateHashValue shadername MAX_SHADERTEXT_HASH = Some base
            /\ match bucket_walk shadername (drop base (hashMem st')) with
               | Some (Some p) =>
                   FindShaderInShaderText shadername st' = Some (Some p, st')
               | Some None =>
                   linear_scan (S (String.length text)) text shadername
                   = Some None
                   /\ FindShaderInShaderText shadername st' = Some (None, st')
               | None => False
               end).
Proof.
  intros Htok Hskip Htext.
  destruct (definitions_returns Htok Hskip (S (String.length text)) text)
    as [ds Hdefs]; [lia|].
  destruct (SetShaderTextHashTableSizes_run st text ds Htext Hdefs)
    as (table & mem & Hrun & Hidx).
  exists ds, (with_index table mem st). split; [assumption|].
  split; [assumption|].
  pose proof Hidx as (_ & _ & Hinv & Htable).
  change (hashMem (with_index table mem st)) with mem in *.
  change (shaderTextHashTable (with_index table mem st)) with table in *.
  split; [|split; [|split]].
  - destruct Hinv as [-> _]. apply bucket_base_total.
  - intros i Hi. exists (bucket_base (bucket_sizes ds) i). cbv zeta.
    pose proof (bucket_sizes_lookup ds i Hi) as Hsize.
    pose proof (bucket_base_succ _ _ _ Hsize) as Hsucc.
    split; [apply Htable; assumption|]. split.
    + rewrite (index_inv_bucket ds mem i Hinv Hi).
      rewrite take_app_ge by (rewrite length_fmap; lia).
      rewrite length_fmap.
      replace (length (bucket_defs ds (Z.of_nat i)) + 1
               - length (bucket_defs ds (Z.of_nat i)))%nat with 1%nat by lia.
      reflexivity.
    + destruct (decide (S i < buckets)%nat) as [Hs|Hs].
      * rewrite Htable by assumption. f_equal. lia.
      * destruct Hinv as [-> _].
        assert (S i = buckets) as <- by lia. lia.
  - intros d Hd. destruct (find_definition_present ds d Hd) as [d' Hd'].
    destruct (find_definition_Some _ _ _ Hd') as [Hin Hname].
    exists d'. split; [assumption|]. split; [assumption|].
    split; [assumption|]. split.
    + apply (definitions_parse _ _ _ Hdefs d' Hin).
    + destruct (FindShaderInShaderText_indexed _ _ _ (def_name d) Hidx)
        as [-> _]. rewrite Hd'. reflexivity.
  - intros shadername.
    destruct (FindShaderInShaderText_indexed _ _ _ shadername Hidx)
      as (Hfind & base & Hbase & Hwalk & Hscan).
    change (hashMem (with_index table mem st)) with mem in *.
    change (shaderTextHashTable (with_index table mem st)) with table in *.
    exists base. split; [assumption|]. rewrite Hwalk.
    destruct (find_definition shadername ds); simpl in *; auto.
Qed.

(** With the index in place and a cache of the right shape,
    [R_FindShader] returns, and what it returns for a name is an object
    of the store. *)
Lemma R_FindShader_returns (name : option string) (mode : Z) (mip : bool)
    (st : state) (text : string) (ds : list definition_t) :
  heap_ok (heap st) -> table_ok st -> indexed st text ds ->
  exists r st1,
    R_FindShader name mode mip st = Some (r, st1)
    /\ match name with
       | Some _ => exists a s, r = Some a /\ heap st1 !! a = Some s
       | None => r = tr_defaultShader st
       end.
Proof.
  intros Hheap Htable Hidx. destruct name as [given|].
  - rewrite R_FindShader_eq. cbv zeta.
    destruct (clamp_state_registry given mode st)
      as (Eh & Et & _ & _ & Hworld).
    destruct (find_in_chain_returns
                (already_loaded (R_StripExtension given MAX_QPATH)
                   (effective_mode (tr_numLightmaps st) mode))
                (generateHashValue (R_StripExtension given MAX_QPATH)
                   FILE_HASH_SIZE) st Hheap Htable) as [r Hr].
    unfold find_in_chain in Hr.
    destruct (walk_chain _ _ _ _) as [[a|]|] eqn:Hw; [| |discriminate].
    + apply walk_chain_found in Hw as (h & s & _ & _ & Hs & _).
      exists (Some a), (clamp_state given mode st). split; [reflexivity|].
      exists a, s. rewrite Eh. auto.
    + set (st0 := clamp_state given mode st) in *.
      assert (Hload : exists r1 st1,
                 load_shader given (R_StripExtension given MAX_QPATH)
                   (effective_mode (tr_numLightmaps st) mode) mip st0
                 = Some (r1, st1)).
      { unfold load_shader. unfold R_SetTheShader at 1.
        unfold bind at 1, modify.
        match goal with
        | |- context [bind (FindShaderInShaderText ?n) ?k ?s] =>
            assert (Hidx' : indexed s text ds)
              by (apply (indexed_same st0); [repeat split|];
                  apply (indexed_same st); assumption);
            destruct (FindShaderInShaderText_indexed s text ds n Hidx')
              as [Hfind _];
            rewrite (bind_run _ k _ _ _ Hfind)
        end.
        destruct (def_body <$> find_definition _ ds) as [body|].
        - unfold call_ParseShader, R_SetDefaultShader, Printf, bind, gets,
            modify, ret.
          destruct (r_printShaders _ =? 0), (ParseShader body);
            rewrite FinishShader_run; eauto.
        - destruct (R_FindImageFile _ _ _ _);
            unfold R_CreateDefaultShadingCmds, setDefaultShader, bind, modify;
            rewrite FinishShader_run; eauto. }
      destruct Hload as (r1 & st1 & Hload). exists r1, st1.
      split; [assumption|].
      apply load_shader_run in Hload as (-> & pending & w & -> & _).
      eexists _, _. split; [reflexivity|]. unfold finished; simpl.
      apply list_lookup_middle. reflexivity.
  - eexists _, _. split; reflexivity.
Qed.

End IndexBuilt.

(** ** More on the cache: spellings, frames, runs of calls *)

Section MoreFindFacts.
Context `{Platform} `{Collaborators}.

Lemma already_loaded_stricmp (a b : string) (mode : Z) (s : shader_t) :
  Q_stricmp a b = 0 -> already_loaded a mode s = already_loaded b mode s.
Proof.
  intros E. unfold already_loaded. f_equal.
  destruct (Q_stricmp (name s) a =? 0) eqn:E1,
           (Q_stricmp (name s) b =? 0) eqn:E2; try reflexivity.
  - apply Z.eqb_eq in E1. pose proof (Q_stricmp_trans _ _ _ E1 E). lia.
  - apply Z.eqb_eq in E2. apply Q_stricmp_sym in E.
    pose proof (Q_stricmp_trans _ _ _ E2 E). lia.
Qed.

(** The cache walk of [R_FindShader] sees a name only through its
    stripped form, up to case: two spellings with such stripped forms
    walk the same chain with the same test. *)
Lemma walk_chain_spelling (N1 N2 : string) (mode : Z) (st : state) :
  Q_stricmp N1 N2 = 0 ->
  walk_chain (already_loaded N2 mode) (length (heap st)) (heap st)
             (hashTable st !! generateHashValue N2 FILE_HASH_SIZE)
  = walk_chain (already_loaded N1 mode) (length (heap st)) (heap st)
               (hashTable st !! generateHashValue N1 FILE_HASH_SIZE).
Proof.
  intros E. rewrite (generateHashValue_stricmp _ _ FILE_HASH_SIZE E).
  apply walk_chain_ext. intros s. symmetry. apply already_loaded_stricmp.
  assumption.
Qed.

(** A call for another spelling of a name hits the object of the name. *)
Lemma R_FindShader_spelling_run (given1 given2 : string) (mode : Z)
    (mip1 mip2 : bool) (st st1 : state) (r : option nat) :
  Q_stricmp (R_StripExtension given1 MAX_QPATH)
            (R_StripExtension given2 MAX_QPATH) = 0 ->
  R_FindShader (Some given1) mode mip1 st = Some (r, st1) ->
  exists st2,
    R_FindShader (Some given2) mode mip2 st1 = Some (r, st2)
    /\ same_registry st1 st2 /\ same_world st1 st2.
Proof.
  intros E. rewrite R_FindShader_eq. cbv zeta.
  destruct (clamp_state_registry given1 mode st)
    as (Eh & Et & _ & _ & _ & En & _).
  destruct (walk_chain _ _ _ _) as [[a|]|] eqn:Hw; [| |discriminate].
  - intros [= <- <-]. rewrite R_FindShader_eq. cbv zeta.
    rewrite (walk_chain_spelling _ _ _ _ E).
    rewrite Eh, Et, En, Hw.
    eexists. split; [reflexivity|]. apply clamp_state_same.
  - intros Hl. apply load_shader_run in Hl
      as (-> & pending & w & -> & Hn & Hm & _).
    rewrite Q_strncpyz_stripped in Hn.
    rewrite R_FindShader_eq. cbv zeta.
    rewrite (walk_chain_spelling _ _ _ _ E).
    change (tr_numLightmaps (finished _))
      with (tr_numLightmaps (clamp_state given1 mode st)).
    rewrite En, walk_after_load by auto.
    eexists. split; [reflexivity|]. apply clamp_state_same.
Qed.

(** X1.  Once [R_FindShader] has returned an object for a name, a call
    for any spelling whose stripped form is that of the name up to case
    (another case, another extension, no extension), with the same
    lighting mode and whatever mip flag, returns that same object and
    enters nothing: the mip flag and the extension are not part of the
    key of the cache. *)
Theorem R_FindShader_spelling (given1 given2 : string) (mode : Z)
    (mip1 mip2 : bool) (st st1 : state) (r : option nat) :
  Q_stricmp (R_StripExtension given1 MAX_QPATH)
            (R_StripExtension given2 MAX_QPATH) = 0 ->
  R_FindShader (Some given1) mode mip1 st = Some (r, st1) ->
  exists st2,
    R_FindShader (Some given2) mode mip2 st1 = Some (r, st2)
    /\ same_registry st1 st2 /\ same_world st1 st2.
Proof. apply R_FindShader_spelling_run. Qed.

(** What a call of [R_FindShader] changes. *)
Lemma R_FindShader_frame_run (given : string) (mode : Z) (mip : bool)
    (st st1 : state) (r : option nat) :
  R_FindShader (Some given) mode mip st = Some (r, st1) ->
  let N := R_StripExtension given MAX_QPATH in
  let hash := generateHashValue N FILE_HASH_SIZE in
  let mode' := effective_mode (tr_numLightmaps st) mode in
  (same_registry st st1
   /\ exists a s, r = Some a /\ cached st hash a /\ heap st !! a = Some s
                  /\ already_loaded N mode' s = true)
  \/ (exists s,
        r = Some (length (heap st))
        /\ heap st1 = heap st ++ [s]
        /\ tr_shaders st1 = tr_shaders st ++ [length (heap st)]
        /\ hashTable st1 = <[hash := length (heap st)]> (hashTable st)
        /\ name s = N /\ lightmapIndex s = mode'
        /\ index s = Z.of_nat (length (tr_shaders st))
        /\ next s = hashTable st !! hash
        /\ remappedShader s = None /\ timeOffset s = 0).
Proof.
  rewrite R_FindShader_eq. cbv zeta.
  destruct (clamp_state_registry given mode st)
    as (Eh & Et & Es & _ & _).
  destruct (walk_chain _ _ _ _) as [[a|]|] eqn:Hw; [| |discriminate].
  - intros [= <- <-]. left. split; [apply clamp_state_same|].
    apply walk_chain_found in Hw as (h & s & Hh & Hc & Hs & Ht).
    exists a, s. split; [reflexivity|]. split; [exists h; auto|]. auto.
  - intros Hl. apply load_shader_run in Hl
      as (-> & pending & w & -> & Hn & Hm & Hr & Ho).
    rewrite Q_strncpyz_stripped in Hn. right.
    eexists. split; [rewrite Eh; reflexivity|]. unfold finished; simpl.
    rewrite Eh, Et, Es, Hn. repeat split; assumption.
Qed.

(** X2.  What a call of [R_FindShader] changes.  On a hit in the cache it
    returns an object of the chain of the bucket of the stripped name
    that passes the test, and the store, the cache table and the handle
    table stay as they are.  On a miss it adds exactly one object, at the
    end of the store and at the head of that chain: its name is the
    stripped name, its lighting mode the clamped one, its index the next
    free handle, it has no remap, and the handle table gets its place.
    No existing object is changed or removed, and no other bucket is
    touched. *)
Theorem R_FindShader_frame (given : string) (mode : Z) (mip : bool)
    (st st1 : state) (r : option nat) :
  R_FindShader (Some given) mode mip st = Some (r, st1) ->
  let N := R_StripExtension given MAX_QPATH in
  let hash := generateHashValue N FILE_HASH_SIZE in
  let mode' := effective_mode (tr_numLightmaps st) mode in
  (same_registry st st1
   /\ exists a s, r = Some a /\ cached st hash a /\ heap st !! a = Some s
                  /\ already_loaded N mode' s = true)
  \/ (exists s,
        r = Some (length (heap st))
        /\ heap st1 = heap st ++ [s]
        /\ tr_shaders st1 = tr_shaders st ++ [length (heap st)]
        /\ hashTable st1 = <[hash := length (heap st)]> (hashTable st)
        /\ name s = N /\ lightmapIndex s = mode'
        /\ index s = Z.of_nat (length (tr_shaders st))
        /\ next s = hashTable st !! hash
        /\ remappedShader s = None /\ timeOffset s = 0).
Proof. apply R_FindShader_frame_run. Qed.

(** What [R_FindShader] makes on a miss, with the index in place. *)
Lemma R_FindShader_resolution_run (given : string) (mode : Z) (mip : bool)
    (st : state) (text : string) (ds : list definition_t) :
  indexed st text ds ->
  let N := R_StripExtension given MAX_QPATH in
  let mode' := effective_mode (tr_numLightmaps st) mode in
  walk_chain (already_loaded N mode') (length (heap st)) (heap st)
             (hashTable st !! generateHashValue N FILE_HASH_SIZE)
    = Some None ->
  exists s st1,
    R_FindShader (Some given) mode mip st = Some (Some (length (heap st)), st1)
    /\ heap st1 = heap st ++ [s]
    /\ name s = N /\ lightmapIndex s = mode'
    /\ match find_definition N ds with
       | Some d =>
           defaultShader s = negb (ParseShader (def_body d))
           /\ (ParseShader (def_body d) = true ->
               stages s = ParsedStages (def_body d))
           /\ printed st1
              = printed (clamp_state given mode st)
                ++ (if r_printShaders st =? 0 then []
                    else [(PRINT_ALL, Msg_print_shader given)])
                ++ (if ParseShader (def_body d) then []
                    else [(PRINT_WARNING, Msg_ParseShader_had_errors N)])
       | None =>
           printed st1 = printed (clamp_state given mode st)
           /\ match R_FindImageFile given mip mip
                      (if mip then GL_REPEAT else GL_CLAMP) with
              | Some image =>
                  stages s = DefaultShadingCmds given image
                  /\ defaultShader s = false
              | None => defaultShader s = true
              end
       end.
Proof.
  intros Hidx N mode' Hw. rewrite R_FindShader_eq. cbv zeta.
  subst N mode'. rewrite Hw.
  destruct (clamp_state_registry given mode st)
    as (Eh & Et & Es & _ & Hworld).
  pose proof Hworld as (_ & _ & _ & _ & _ & Ep).
  set (st0 := clamp_state given mode st) in *.
  unfold load_shader. unfold R_SetTheShader at 1.
  unfold bind at 1, modify.
  match goal with
  | |- context [bind (FindShaderInShaderText ?n) ?k ?s] =>
      assert (Hidx' : indexed s text ds)
        by (apply (indexed_same st0); [repeat split|];
            apply (indexed_same st); assumption);
      destruct (FindShaderInShaderText_indexed s text ds n Hidx')
        as [Hfind _];
      rewrite (bind_run _ k _ _ _ Hfind)
  end.
  rewrite Q_strncpyz_stripped.
  destruct (find_definition _ ds) as [d|]; simpl.
  - unfold call_ParseShader, R_SetDefaultShader, Printf, bind, gets,
      modify, ret. simpl. rewrite Ep.
    destruct (r_printShaders st =? 0), (ParseShader (def_body d));
      rewrite FinishShader_run; eexists _, _;
      (split; [rewrite <- Eh; reflexivity|]); unfold finished; simpl;
      rewrite Eh, ?app_nil_r, <- ?app_assoc; repeat split; reflexivity.
  - destruct (R_FindImageFile _ _ _ _);
      unfold R_CreateDefaultShadingCmds, setDefaultShader, bind, modify;
      rewrite FinishShader_run; eexists _, _;
      (split; [rewrite <- Eh; reflexivity|]); unfold finished; simpl;
      rewrite Eh; repeat split; reflexivity.
Qed.

(** X3.  The order in which [R_FindShader] looks for a shader that is
    not in the cache, with the index over the text in place: first the
    definition of the stripped name in the shader text, then an image
    file of the name as it was given, extension and all; else the default.
    A definition that [ParseShader] rejects gives a default-flagged
    object and a warning, and the image is not tried; an image is asked
    for with the mip flag and the wrap mode that goes with it. *)
Theorem R_FindShader_resolution (given : string) (mode : Z) (mip : bool)
    (st : state) (text : string) (ds : list definition_t) :
  indexed st text ds ->
  let N := R_StripExtension given MAX_QPATH in
  let mode' := effective_mode (tr_numLightmaps st) mode in
  walk_chain (already_loaded N mode') (length (heap st)) (heap st)
             (hashTable st !! generateHashValue N FILE_HASH_SIZE)
    = Some None ->
  exists s st1,
    R_FindShader (Some given) mode mip st = Some (Some (length (heap st)), st1)
    /\ heap st1 = heap st ++ [s]
    /\ name s = N /\ lightmapIndex s = mode'
    /\ match find_definition N ds with
       | Some d =>
           defaultShader s = negb (ParseShader (def_body d))
           /\ (ParseShader (def_body d) = true ->
               stages s = ParsedStages (def_body d))
           /\ printed st1
              = printed (clamp_state given mode st)
                ++ (if r_printShaders st =? 0 then []
                    else [(PRINT_ALL, Msg_print_shader given)])
                ++ (if ParseShader (def_body d) then []
                    else [(PRINT_WARNING, Msg_ParseShader_had_errors N)])
       | None =>
           printed st1 = printed (clamp_state given mode st)
           /\ match R_FindImageFile given mip mip
                      (if mip then GL_REPEAT else GL_CLAMP) with
              | Some image =>
                  stages s = DefaultShadingCmds given image
                  /\ defaultShader s = false
              | None => defaultShader s = true
              end
       end.
Proof. apply R_FindShader_resolution_run. Qed.

(** With the index in place, [R_FindShader] returns. *)
Lemma R_FindShader_with_index_run (given : string) (mode : Z) (mip : bool)
    (st : state) (text : string) (ds : list definition_t) :
  registry_ok st -> indexed st text ds ->
  exists a s st1,
    R_FindShader (Some given) mode mip st = Some (Some a, st1)
    /\ heap st1 !! a = Some s
    /\ Q_stricmp (name s) (R_StripExtension given MAX_QPATH) = 0
    /\ (lightmapIndex s = effective_mode (tr_numLightmaps st) mode
        \/ defaultShader s = true)
    /\ registry_ok st1 /\ indexed st1 text ds.
Proof.
  intros Hok Hidx.
  destruct (R_FindShader_returns (Some given) mode mip st text ds
              (ok_heap _ Hok) (ok_table _ Hok) Hidx)
    as (r & st1 & Hrun & a & s & -> & Hs).
  destruct (registry_ok_R_FindShader _ _ _ _ _ _ Hok Hrun) as [Hok1 Hw].
  exists a, s, st1. split; [assumption|]. split; [assumption|].
  assert (Hgoal : Q_stricmp (name s) (R_StripExtension given MAX_QPATH) = 0
                  /\ (lightmapIndex s = effective_mode (tr_numLightmaps st) mode
                      \/ defaultShader s = true)).
  { destruct (R_FindShader_frame_run _ _ _ _ _ _ Hrun)
      as [[(Eh & _) (a' & s' & [= <-] & _ & Hs' & Ht)]
         |(s' & [= ->] & Eh & _ & _ & Hn & Hm & _)].
    - rewrite Eh, Hs' in Hs. injection Hs as <-.
      unfold already_loaded in Ht.
      apply andb_true_iff in Ht as [Hn Hm]. split; [lia|].
      apply orb_true_iff in Hm as [Hm|Hm]; [left; lia|right; assumption].
    - rewrite Eh, list_lookup_middle in Hs by reflexivity.
      injection Hs as <-. rewrite Hn. split; [apply Q_stricmp_refl|auto]. }
  destruct Hgoal. split; [assumption|]. split; [assumption|].
  split; [assumption|]. apply (indexed_same st st1 text ds Hw Hidx).
Qed.

(** X4.  With the index over the text in place and a well-formed cache,
    [R_FindShader] returns for every name, lighting mode and mip flag: an
    object of the store whose name is the stripped name, up to case, and
    whose lighting mode is the clamped one unless it is default-flagged.
    The cache is well-formed afterwards and the index is as it was, so
    the next call returns as well. *)
Theorem R_FindShader_with_index (given : string) (mode : Z) (mip : bool)
    (st : state) (text : string) (ds : list definition_t) :
  registry_ok st -> indexed st text ds ->
  exists a s st1,
    R_FindShader (Some given) mode mip st = Some (Some a, st1)
    /\ heap st1 !! a = Some s
    /\ Q_stricmp (name s) (R_StripExtension given MAX_QPATH) = 0
    /\ (lightmapIndex s = effective_mode (tr_numLightmaps st) mode
        \/ defaultShader s = true)
    /\ registry_ok st1 /\ indexed st1 text ds.
Proof. apply R_FindShader_with_index_run. Qed.

End MoreFindFacts.

(** ** Runs of calls *)

Section Runs.
Context `{Platform} `{Collaborators}.

Lemma objects_kept_refl (hp : list shader_t) : objects_kept hp hp.
Proof. intros a s Hs. exists s. split; [assumption|apply same_links_refl]. Qed.

Lemma objects_kept_trans (hp1 hp2 hp3 : list shader_t) :
  objects_kept hp1 hp2 -> objects_kept hp2 hp3 -> objects_kept hp1 hp3.
Proof.
  intros H12 H23 a s Hs. destruct (H12 a s Hs) as (s2 & Hs2 & Hl2).
  destruct (H23 a s2 Hs2) as (s3 & Hs3 & Hl3). exists s3.
  split; [assumption|]. eapply same_links_trans; eassumption.
Qed.

Lemma objects_kept_app (hp l : list shader_t) : objects_kept hp (hp ++ l).
Proof.
  intros a s Hs. exists s. split; [|apply same_links_refl].
  rewrite lookup_app_l; [assumption|]. eauto using lookup_lt_Some.
Qed.

Lemma objects_kept_shape (hp hp' : list shader_t) :
  same_shape hp hp' -> objects_kept hp hp'.
Proof.
  intros Hsh a s Hs.
  destruct (Forall2_lookup_l _ _ _ _ _ Hsh Hs) as (s' & Hs' & Hl). eauto.
Qed.

Lemma R_FindShader_keeps (given : option string) (mode : Z) (mip : bool)
    (st st1 : state) (r : option nat) :
  registry_ok st ->
  R_FindShader given mode mip st = Some (r, st1) ->
  registry_ok st1 /\ same_world st st1 /\ objects_kept (heap st) (heap st1).
Proof.
  intros Hok Hrun.
  destruct (registry_ok_R_FindShader _ _ _ _ _ _ Hok Hrun) as [Hok1 Hw].
  destruct (R_FindShader_grows _ _ _ _ _ _ Hrun) as [[l ->] _].
  auto using objects_kept_app.
Qed.

Lemma remap_target_keeps (newShaderName : string) (st st1 : state)
    (sh2 : option nat) :
  registry_ok st ->
  remap_target newShaderName st = Some (sh2, st1) ->
  objects_kept (heap st) (heap st1).
Proof.
  intros Hok Hrun. unfold remap_target in Hrun.
  unfold bind at 1, gets at 1 in Hrun.
  apply bind_Some in Hrun as (sh & st0 & Hfind & Hrun).
  apply find_in_chain_state in Hfind. subst st0.
  destruct (bool_decide _);
    [|injection Hrun as <- <-; apply objects_kept_refl].
  apply bind_Some in Hrun as (r & sta & Hf & Hrun).
  apply R_FindShader_keeps in Hf as (_ & _ & Hk); [|assumption].
  apply bind_Some in Hrun as (s & stb & Hd & Hrun).
  apply deref_run in Hd as [-> _].
  apply bind_Some in Hrun as (sh2' & stc & Hg & Hrun).
  apply R_GetShaderByHandle_run in Hg as [(Eh & _) _].
  unfold bind, gets, Printf, modify, ret in Hrun.
  destruct (_ || _); injection Hrun as <- <-; simpl; rewrite Eh; exact Hk.
Qed.

Lemma RE_RemapShader_keeps (shaderName newShaderName : string)
    (offset : option string) (st st' : state) :
  registry_ok st ->
  RE_RemapShader shaderName newShaderName offset st = Some (tt, st') ->
  registry_ok st' /\ same_world st st' /\ objects_kept (heap st) (heap st').
Proof.
  intros Hok Hrun.
  pose proof (registry_ok_RE_RemapShader _ _ _ _ _ Hok Hrun) as Hok'.
  destruct (RE_RemapShader_post _ _ _ _ _ Hok Hrun)
    as (sh2 & st1 & Ht & _ & _ & _ & _ & Hsh & _ & _).
  destruct (remap_target_run _ _ _ _ Hok Ht) as [_ Hw].
  pose proof (remap_target_keeps _ _ _ _ Hok Ht) as Hk.
  destruct (RE_RemapShader_run _ _ _ _ _ Hrun)
    as (sh2' & st1' & hp' & Ht' & _ & Hoff).
  rewrite Ht in Ht'. injection Ht' as <- <-.
  split; [assumption|]. split.
  - eapply same_world_trans; [exact Hw|].
    destruct offset; [destruct Hoff as (? & ? & _ & _ & ->)|subst st'];
      repeat split.
  - eapply objects_kept_trans; [exact Hk|]. apply objects_kept_shape.
    assumption.
Qed.

Lemma R_RegisterShaderFromImage_keeps (given : string) (mode : Z)
    (image : image_t) (mip : bool) (st st' : state) (r : Z) :
  Z.of_nat (String.length given) < MAX_QPATH ->
  registry_ok st ->
  R_RegisterShaderFromImage given mode image mip st = Some (r, st') ->
  registry_ok st' /\ same_world st st' /\ objects_kept (heap st) (heap st').
Proof.
  intros Hlen Hok Hrun.
  pose proof (registry_ok_R_RegisterShaderFromImage _ _ _ _ _ _ _ Hlen Hok
                Hrun) as Hok'.
  split; [assumption|].
  destruct (R_RegisterShaderFromImage_run given mode image mip st)
    as [_ Hcheck].
  destruct (walk_chain _ _ _ _) as [[a|]|].
  - destruct Hcheck as [(s & _ & Hr) _]. rewrite Hr in Hrun.
    injection Hrun as _ <-. split; [repeat split|apply objects_kept_refl].
  - rewrite Hcheck in Hrun. injection Hrun as _ <-.
    split; [repeat split|]. unfold finished; simpl. apply objects_kept_app.
  - rewrite Hcheck in Hrun. discriminate.
Qed.

Lemma wrapper_keeps (given : string) (mip : bool) (st st' : state) (r : Z) :
  registry_ok st ->
  (let* sh := R_FindShader (Some given) LIGHTMAP_2D mip in
   let* s := deref sh in
   if defaultShader s then ret 0 else ret (index s)) st = Some (r, st') ->
  registry_ok st' /\ same_world st st' /\ objects_kept (heap st) (heap st').
Proof.
  intros Hok Hrun.
  apply bind_Some in Hrun as (sh & st1 & Hf & Hrun).
  apply bind_Some in Hrun as (s & st2 & Hd & Hrun).
  apply deref_run in Hd as [-> _].
  assert (st' = st1) as ->
    by (unfold ret in Hrun; destruct (defaultShader s); congruence).
  eapply R_FindShader_keeps; eassumption.
Qed.

Lemma run_call_keeps (c : call) (st st' : state) :
  name_fits c -> registry_ok st ->
  run_call c st = Some (tt, st') ->
  registry_ok st' /\ same_world st st' /\ objects_kept (heap st) (heap st').
Proof.
  intros Hfit Hok Hrun. destruct c; simpl in Hrun, Hfit.
  - apply bind_Some in Hrun as (r & st1 & Hf & [= <-]).
    eapply R_FindShader_keeps; eassumption.
  - apply bind_Some in Hrun as (r & st1 & Hf & [= <-]).
    unfold RE_RegisterShader in Hf.
    destruct (_ >=? _).
    + unfold Printf, bind, modify, ret in Hf. injection Hf as _ <-.
      split; [apply (registry_ok_same st); auto|].
      split; [repeat split|apply objects_kept_refl].
    + eapply wrapper_keeps; eassumption.
  - apply bind_Some in Hrun as (r & st1 & Hf & [= <-]).
    unfold RE_RegisterShaderNoMip in Hf.
    destruct (_ >=? _).
    + unfold Printf, bind, modify, ret in Hf. injection Hf as _ <-.
      split; [apply (registry_ok_same st); auto|].
      split; [repeat split|apply objects_kept_refl].
    + eapply wrapper_keeps; eassumption.
  - apply bind_Some in Hrun as (r & st1 & Hf & [= <-]).
    eapply R_RegisterShaderFromImage_keeps; eassumption.
  - eapply RE_RemapShader_keeps; eassumption.
  - split; [eapply registry_ok_R_ClearShaderHashTable; eassumption|].
    injection Hrun as <-. split; [repeat split|apply objects_kept_refl].
Qed.

(** X5.  Whatever calls are made, in whatever order, a cache that is
    well-formed stays so: every [next] points at an older object, every
    head of a chain is an object of the store, every object of a chain is
    in the bucket its name hashes to, and no object stands in front of a
    default-flagged object of its name.  So every walk of a chain ends.
    No call removes an object from the store or changes its name, its
    place, its links, its flag, its lighting mode or its index, and none
    touches the shader text or its index.  (A shader made from an image
    is given a name that fits its name field.) *)
Theorem run_calls_keep_registry_ok (cs : list call) :
  forall st st',
    Forall name_fits cs -> registry_ok st ->
    run_calls cs st = Some (tt, st') ->
    registry_ok st' /\ same_world st st'
    /\ objects_kept (heap st) (heap st')
    /\ forall test hash,
         exists r, find_in_chain test hash st' = Some (r, st').
Proof.
  induction cs as [|c cs IH]; intros st st' Hfit Hok Hrun.
  - injection Hrun as <-. split; [assumption|].
    split; [apply same_world_refl|]. split; [apply objects_kept_refl|].
    intros test hash. apply find_in_chain_returns; apply Hok.
  - apply Forall_cons in Hfit as [Hc Hcs]. simpl in Hrun.
    apply bind_Some in Hrun as ([] & st1 & H1 & Hrest).
    destruct (run_call_keeps _ _ _ Hc Hok H1) as (Hok1 & Hw1 & Hk1).
    destruct (IH _ _ Hcs Hok1 Hrest) as (Hok' & Hw' & Hk' & Hwalk).
    split; [assumption|]. split; [eapply same_world_trans; eassumption|].
    split; [eapply objects_kept_trans; eassumption|assumption].
Qed.

End Runs.

(** ** The wrappers, the image entry point, clearing and entering *)

Section MoreRegistryFacts.
Context `{Platform} `{Collaborators}.

Lemma wrapper_again (given : string) (mip1 mip2 : bool) (st st1 : state)
    (h : Z) :
  (let* sh := R_FindShader (Some given) LIGHTMAP_2D mip1 in
   let* s := deref sh in
   if defaultShader s then ret 0 else ret (index s)) st = Some (h, st1) ->
  exists st2,
    (let* sh := R_FindShader (Some given) LIGHTMAP_2D mip2 in
     let* s := deref sh in
     if defaultShader s then ret 0 else ret (index s)) st1 = Some (h, st2)
    /\ same_registry st1 st2 /\ same_world st1 st2.
Proof.
  intros Hrun.
  apply bind_Some in Hrun as (sh & sta & Hf & Hrun).
  apply bind_Some in Hrun as (s & stb & Hd & Hrun).
  apply deref_run in Hd as [-> (a & -> & Hs)].
  assert (Hh : h = (if defaultShader s then 0 else index s) /\ st1 = sta)
    by (unfold ret in Hrun; destruct (defaultShader s); split; congruence).
  destruct Hh as [-> ->].
  destruct (R_FindShader_spelling_run given given LIGHTMAP_2D mip1 mip2 st sta
              (Some a) (Q_stricmp_refl _) Hf)
    as (st2 & Hf2 & Hreg & Hw).
  exists st2. split; [|auto].
  rewrite (bind_run _ _ _ _ _ Hf2). unfold bind, deref.
  destruct Hreg as (-> & _). rewrite Hs.
  unfold ret. destruct (defaultShader s); reflexivity.
Qed.

(** X6.  The two wrappers give the same handle for a name: whichever of
    [RE_RegisterShader] and [RE_RegisterShaderNoMip] is called first
    decides the shader, and the other returns its handle from the cache
    and enters nothing.  (So the mip flag of the later call has no
    effect.) *)
Theorem RE_RegisterShaderNoMip_same_handle (given : string) (st st1 : state)
    (h : Z) :
  (RE_RegisterShader given st = Some (h, st1) ->
   exists st2,
     RE_RegisterShaderNoMip given st1 = Some (h, st2)
     /\ same_registry st1 st2 /\ same_world st1 st2)
  /\ (RE_RegisterShaderNoMip given st = Some (h, st1) ->
      exists st2,
        RE_RegisterShader given st1 = Some (h, st2)
        /\ same_registry st1 st2 /\ same_world st1 st2).
Proof.
  unfold RE_RegisterShader, RE_RegisterShaderNoMip.
  destruct (_ >=? _).
  - unfold Printf, bind, modify, ret.
    split; intros [= <- <-]; eexists; (split; [reflexivity|]);
      split; repeat split.
  - split; apply wrapper_again.
Qed.

(** X7.  A shader made from an image is made once: a second call of
    [R_RegisterShaderFromImage] with that name and lighting mode returns
    the handle of the first and changes nothing, whatever image and mip
    flag it is given.  (The name fits the name field of a shader
    object.) *)
Theorem R_RegisterShaderFromImage_again (given : string) (mode : Z)
    (image image' : image_t) (mip mip' : bool) (st st1 : state) (h : Z) :
  Z.of_nat (String.length given) < MAX_QPATH ->
  R_RegisterShaderFromImage given mode image mip st = Some (h, st1) ->
  R_RegisterShaderFromImage given mode image' mip' st1 = Some (h, st1).
Proof.
  intros Hlen Hrun.
  destruct (R_RegisterShaderFromImage_run given mode image mip st)
    as [_ Hfirst].
  destruct (R_RegisterShaderFromImage_run given mode image' mip' st)
    as [_ Hsame].
  destruct (walk_chain _ _ _ _) as [[a|]|] eqn:Hw.
  - destruct Hfirst as [(s & Hs & Hr) _]. rewrite Hr in Hrun.
    injection Hrun as <- <-.
    destruct Hsame as [(s' & Hs' & Hr') _]. congruence.
  - rewrite Hfirst in Hrun. injection Hrun as <- <-. clear Hfirst Hsame.
    set (pending := mk_shader (Q_strncpyz given MAX_QPATH) mode 0 false
                              None 0 None (DefaultShadingCmds given image)).
    assert (Hn : name pending = given) by (apply Q_strncpyz_short; assumption).
    pose proof (walk_after_load given mode st pending (printed st) Hn
                  (or_introl eq_refl)) as Hwalk.
    cbv zeta in Hwalk.
    change (with_printed (printed st) (with_shader pending st))
      with (with_shader pending st) in Hwalk.
    destruct (R_RegisterShaderFromImage_run given mode image' mip'
                (finished (with_shader pending st))) as [_ Hsecond].
    rewrite Hwalk in Hsecond.
    destruct Hsecond as [(s & Hs & ->) _].
    change (length (heap st))
      with (length (heap (with_shader pending st))) in Hs.
    rewrite finished_lookup_new in Hs. injection Hs as <-. reflexivity.
  - rewrite Hfirst in Hrun. discriminate.
Qed.

(** X8.  [R_ClearShaderHashTable] empties the cache and nothing else:
    the objects stay in the store and keep their handles, but no walk
    finds any of them, so the next [R_FindShader] for a name makes a new
    object for it, also for a name that had one. *)
Theorem R_ClearShaderHashTable_forgets (given : string) (mode : Z)
    (mip : bool) (st : state) (text : string) (ds : list definition_t) :
  indexed st text ds ->
  exists st0 st1,
    R_ClearShaderHashTable st = Some (tt, st0)
    /\ heap st0 = heap st /\ tr_shaders st0 = tr_shaders st
    /\ same_world st st0
    /\ (forall test hash, find_in_chain test hash st0 = Some (None, st0))
    /\ R_FindShader (Some given) mode mip st0
       = Some (Some (length (heap st)), st1)
    /\ length (heap st1) = S (length (heap st)).
Proof.
  intros Hidx. exists (with_hashTable ∅ st).
  assert (Hw : same_world st (with_hashTable ∅ st)) by (repeat split).
  assert (Hwalk : forall test hash,
             walk_chain test (length (heap (with_hashTable ∅ st)))
               (heap (with_hashTable ∅ st))
               (hashTable (with_hashTable ∅ st) !! hash) = Some None).
  { intros test hash. simpl. rewrite lookup_empty.
    destruct (length (heap st)); reflexivity. }
  destruct (R_FindShader_resolution_run given mode mip (with_hashTable ∅ st)
              text ds (indexed_same _ _ _ _ Hw Hidx) (Hwalk _ _))
    as (s & st1 & Hrun & Hheap & _).
  exists st1. split; [reflexivity|]. split; [reflexivity|].
  split; [reflexivity|]. split; [assumption|]. split.
  - intros test hash. unfold find_in_chain. rewrite Hwalk. reflexivity.
  - split; [exact Hrun|]. rewrite Hheap, length_app. simpl. lia.
Qed.

(** [R_UpdateShaderHashTable] in one equation. *)
Lemma R_UpdateShaderHashTable_enters_run (a : nat) (s : shader_t) (st : state) :
  heap st !! a = Some s ->
  let hash := generateHashValue (name s) FILE_HASH_SIZE in
  let st' := with_hashTable (<[hash := a]> (hashTable st))
               (with_heap (<[a := set_next (hashTable st !! hash) s]> (heap st))
                          st) in
  R_UpdateShaderHashTable (Some a) st = Some (tt, st')
  /\ find_in_chain (already_loaded (name s) (lightmapIndex s)) hash st'
     = Some (Some a, st')
  /\ (forall b, b <> hash -> hashTable st' !! b = hashTable st !! b)
  /\ (forall c, c <> a -> heap st' !! c = heap st !! c)
  /\ R_UpdateShaderHashTable None st = None.
Proof.
  intros Hs hash st'. pose proof (lookup_lt_Some _ _ _ Hs) as Hlt.
  split; [|split; [|split; [|split]]].
  - unfold R_UpdateShaderHashTable, bind, deref, gets, store, modify.
    rewrite Hs. cbv beta iota. rewrite Hs. reflexivity.
  - unfold find_in_chain. subst st'. simpl.
    rewrite lookup_insert_eq, length_insert.
    destruct (length (heap st)) as [|n] eqn:El; [lia|]. simpl.
    rewrite list_lookup_insert_eq by lia.
    unfold already_loaded. simpl.
    rewrite Q_stricmp_refl, Z.eqb_refl. simpl. rewrite Z.eqb_refl.
    reflexivity.
  - intros b Hb. subst st'. simpl. apply lookup_insert_ne. congruence.
  - intros c Hc. subst st'. simpl. apply list_lookup_insert_ne. congruence.
  - reflexivity.
Qed.

(** X9.  [R_UpdateShaderHashTable] enters an object at the head of the
    chain of the bucket its name hashes to: the old head becomes its
    successor, no other object and no other bucket is touched, and the
    walk of [R_FindShader] for its name and lighting mode finds it at
    once, in front of every older object of that name.  A null pointer
    is read through. *)
Theorem R_UpdateShaderHashTable_enters (a : nat) (s : shader_t) (st : state) :
  heap st !! a = Some s ->
  let hash := generateHashValue (name s) FILE_HASH_SIZE in
  let st' := with_hashTable (<[hash := a]> (hashTable st))
               (with_heap (<[a := set_next (hashTable st !! hash) s]> (heap st))
                          st) in
  R_UpdateShaderHashTable (Some a) st = Some (tt, st')
  /\ find_in_chain (already_loaded (name s) (lightmapIndex s)) hash st'
     = Some (Some a, st')
  /\ (forall b, b <> hash -> hashTable st' !! b = hashTable st !! b)
  /\ (forall c, c <> a -> heap st' !! c = heap st !! c)
  /\ R_UpdateShaderHashTable None st = None.
Proof. apply R_UpdateShaderHashTable_enters_run. Qed.

Lemma walk_chain_self_loop (test : shader_t -> bool) (hp : list shader_t)
    (a : nat) (s : shader_t) :
  hp !! a = Some s -> next s = Some a -> test s = false ->
  forall fuel, walk_chain test fuel hp (Some a) = None.
Proof.
  intros Hs Hn Ht fuel. induction fuel as [|fuel IH]; simpl; [reflexivity|].
  rewrite Hs, Ht, Hn. exact IH.
Qed.

(** X10.  [R_UpdateShaderHashTable] does not look whether the object is
    in the cache already.  Entered a second time, the object becomes its
    own successor: the chain of its bucket is a loop, and a walk of that
    chain for anything the object does not match never ends. *)
Theorem R_UpdateShaderHashTable_twice (a : nat) (s : shader_t) (st : state) :
  heap st !! a = Some s ->
  let hash := generateHashValue (name s) FILE_HASH_SIZE in
  exists st2,
    (R_UpdateShaderHashTable (Some a) >>> R_UpdateShaderHashTable (Some a)) st
    = Some (tt, st2)
    /\ heap st2 !! a = Some (set_next (Some a) s)
    /\ hashTable st2 !! hash = Some a
    /\ forall test, test (set_next (Some a) s) = false ->
                    find_in_chain test hash st2 = None.
Proof.
  intros Hs hash. pose proof (lookup_lt_Some _ _ _ Hs) as Hlt.
  destruct (R_UpdateShaderHashTable_enters_run a s st Hs) as (Hrun & _).
  cbv zeta in Hrun. fold hash in Hrun.
  set (st1 := with_hashTable _ _) in Hrun.
  assert (Hs1 : heap st1 !! a = Some (set_next (hashTable st !! hash) s))
    by (apply list_lookup_insert_eq; assumption).
  destruct (R_UpdateShaderHashTable_enters_run a _ st1 Hs1) as (Hrun2 & _).
  cbv zeta in Hrun2.
  change (name (set_next (hashTable st !! hash) s)) with (name s) in Hrun2.
  fold hash in Hrun2.
  eexists. split; [rewrite (bind_run _ _ _ _ _ Hrun); exact Hrun2|].
  simpl. rewrite !lookup_insert_eq.
  assert (Hs2 : <[a := set_next (Some a) (set_next (hashTable st !! hash) s)]>
                  (<[a := set_next (hashTable st !! hash) s]> (heap st)) !! a
                = Some (set_next (Some a) s)).
  { rewrite list_lookup_insert_eq by (rewrite length_insert; assumption).
    reflexivity. }
  split; [exact Hs2|]. split; [reflexivity|].
  intros test Ht. unfold find_in_chain. simpl. rewrite lookup_insert_eq.
  rewrite (walk_chain_self_loop test _ a _ Hs2 eq_refl Ht). reflexivity.
Qed.

End MoreRegistryFacts.

(** ** Remapping onto a shader of the cache; a text without definitions *)

Section MoreRemapFacts.
Context `{Platform} `{Collaborators}.

Lemma remap_target_cached (newShaderName : string) (st : state) (a : nat) :
  walk_chain (same_name (R_StripExtension newShaderName MAX_QPATH))
             (length (heap st)) (heap st)
             (hashTable st
                !! generateHashValue (R_StripExtension newShaderName MAX_QPATH)
                     FILE_HASH_SIZE)
    = Some (Some a) ->
  tr_defaultShader st <> Some a ->
  remap_target newShaderName st = Some (Some a, st).
Proof.
  intros Hwalk Hne. unfold remap_target. unfold bind at 1, gets at 1.
  unfold bind at 1, find_in_chain. rewrite Hwalk.
  rewrite bool_decide_eq_false_2 by congruence. reflexivity.
Qed.

(** X11.  When the cache holds an object of the stripped target name
    that is not the default shader, [RE_RemapShader] takes as target the
    first such object of the chain, whatever its lighting mode, and
    [R_FindShader] is not asked: the call returns, no object is made,
    nothing is printed, the cache table and the handle table stay as they
    are, and every cached object of the stripped source name gets the
    target as its remap, but for the target itself, whose remap is
    cleared. *)
Theorem RE_RemapShader_cached_target (shaderName newShaderName : string)
    (offset : option string) (st : state) (a : nat) :
  registry_ok st ->
  walk_chain (same_name (R_StripExtension newShaderName MAX_QPATH))
             (length (heap st)) (heap st)
             (hashTable st
                !! generateHashValue (R_StripExtension newShaderName MAX_QPATH)
                     FILE_HASH_SIZE)
    = Some (Some a) ->
  tr_defaultShader st <> Some a ->
  exists st',
    RE_RemapShader shaderName newShaderName offset st = Some (tt, st')
    /\ length (heap st') = length (heap st)
    /\ hashTable st' = hashTable st /\ tr_shaders st' = tr_shaders st
    /\ printed st' = printed st
    /\ (exists sa, heap st !! a = Some sa
                   /\ Q_stricmp (name sa)
                        (R_StripExtension newShaderName MAX_QPATH) = 0)
    /\ (forall b x s',
          cached st' b x -> heap st' !! x = Some s' ->
          Q_stricmp (name s') (R_StripExtension shaderName MAX_QPATH) = 0 ->
          remappedShader s' = if bool_decide (x = a) then None else Some a).
Proof.
  intros Hok Hwalk Hne.
  pose proof (remap_target_cached _ _ _ Hwalk Hne) as Htarget.
  pose proof Hwalk as Hfound.
  apply walk_chain_found in Hfound as (h & sa & _ & _ & Hsa & Hname).
  pose proof (lookup_lt_Some _ _ _ Hsa) as Hlt.
  set (N := R_StripExtension shaderName MAX_QPATH).
  assert (Hchain : exists hp',
             remap_chain N (Some a) (length (heap st)) (heap st)
               (hashTable st !! generateHashValue N FILE_HASH_SIZE)
             = Some hp').
  { destruct (hashTable st !! generateHashValue N FILE_HASH_SIZE)
      as [h'|] eqn:Eh.
    - apply remap_chain_returns; [apply Hok| |];
        apply (ok_table _ Hok _ _ Eh).
    - destruct (length (heap st)); simpl; eauto. }
  destruct Hchain as [hp' Hchain].
  assert (Hlen : length hp' = length (heap st)).
  { apply remap_chain_spec in Hchain as (Hshape & _).
    symmetry. apply (Forall2_length _ _ _ Hshape). }
  assert (Hrun : exists st',
             RE_RemapShader shaderName newShaderName offset st
             = Some (tt, st')
             /\ length (heap st') = length (heap st)
             /\ hashTable st' = hashTable st
             /\ tr_shaders st' = tr_shaders st
             /\ printed st' = printed st).
  { unfold RE_RemapShader. rewrite (bind_run _ _ _ _ _ Htarget).
    fold N. unfold bind at 1. rewrite Hchain.
    destruct offset as [t|].
    - unfold store; simpl.
      destruct (lookup_lt_is_Some_2 hp' a) as [s2 ->]; [lia|].
      eexists; split; [reflexivity|]. simpl. rewrite length_insert. auto.
    - eexists; split; [reflexivity|]. simpl. auto. }
  destruct Hrun as (st' & Hrun & Hl & Et & Es & Ep). exists st'.
  split; [assumption|]. split; [assumption|]. split; [assumption|].
  split; [assumption|]. split; [assumption|]. split.
  { exists sa. split; [assumption|]. unfold same_name in Hname. lia. }
  destruct (RE_RemapShader_post _ _ _ _ _ Hok Hrun)
    as (sh2 & st1' & Ht & H1 & _).
  rewrite Htarget in Ht. injection Ht as <- <-.
  intros b x s' Hc Hs' Hn. rewrite (H1 b x s' Hc Hs' Hn).
  unfold remap_of. destruct (decide (x = a)) as [->|Hxa].
  - rewrite !bool_decide_eq_true_2; reflexivity.
  - rewrite !bool_decide_eq_false_2; congruence.
Qed.

(** X12.  A shader text in which the tokenizer finds no token (an empty
    text, or one of white space and comments) gets an index all the
    same: a block of one null cursor per bucket.  Every lookup in it
    returns null, and returns: none reads through a null pointer, as a
    lookup does when no index has been built. *)
Theorem SetShaderTextHashTableSizes_no_definitions (st : state)
    (text : string) :
  s_shaderText st = Some text ->
  fst (R_ParseExt text true) = EmptyString ->
  exists st',
    SetShaderTextHashTableSizes st = Some (tt, st')
    /\ same_registry st st'
    /\ length (hashMem st') = buckets
    /\ forall shadername,
         FindShaderInShaderText shadername st' = Some (None, st').
Proof.
  intros Htext Htok.
  assert (Hdefs : definitions (S (String.length text)) text = Some []).
  { simpl. destruct (R_ParseExt text true) as [token p1]. simpl in Htok.
    subst token. reflexivity. }
  destruct (SetShaderTextHashTableSizes_run st text [] Htext Hdefs)
    as (table & mem & Hrun & Hidx).
  exists (with_index table mem st). split; [assumption|].
  split; [repeat split|]. split.
  - destruct Hidx as (_ & _ & (Hlen & _) & _).
    change (hashMem (with_index table mem st)) with mem in *.
    rewrite Hlen, bucket_base_total. reflexivity.
  - intros shadername.
    destruct (FindShaderInShaderText_indexed _ _ _ shadername Hidx)
      as [-> _]. reflexivity.
Qed.

End MoreRemapFacts.

(** ** The image entry point and the lookup; default-flagged objects *)

Section MoreCacheFacts.
Context `{Platform} `{Collaborators}.

(** After [R_RegisterShaderFromImage] the walk for the name and the
    lighting mode ends at the object whose index it has returned. *)
Lemma R_RegisterShaderFromImage_cached (given : string) (mode : Z)
    (image : image_t) (mip : bool) (st st1 : state) (h : Z) :
  Z.of_nat (String.length given) < MAX_QPATH ->
  R_RegisterShaderFromImage given mode image mip st = Some (h, st1) ->
  exists a s,
    walk_chain (already_loaded given mode) (length (heap st1)) (heap st1)
               (hashTable st1 !! generateHashValue given FILE_HASH_SIZE)
    = Some (Some a)
    /\ heap st1 !! a = Some s /\ index s = h
    /\ tr_numLightmaps st1 = tr_numLightmaps st.
Proof.
  intros Hlen Hrun.
  destruct (R_RegisterShaderFromImage_run given mode image mip st)
    as [_ Hfirst].
  destruct (walk_chain _ _ _ _) as [[a|]|] eqn:Hw.
  - destruct Hfirst as [(s & Hs & Hr) _]. rewrite Hr in Hrun.
    injection Hrun as <- <-. exists a, s. auto.
  - rewrite Hfirst in Hrun. injection Hrun as <- <-. clear Hfirst.
    set (pending := mk_shader (Q_strncpyz given MAX_QPATH) mode 0 false
                              None 0 None (DefaultShadingCmds given image)).
    assert (Hn : name pending = given) by (apply Q_strncpyz_short; assumption).
    pose proof (walk_after_load given mode st pending (printed st) Hn
                  (or_introl eq_refl)) as Hwalk.
    cbv zeta in Hwalk.
    change (with_printed (printed st) (with_shader pending st))
      with (with_shader pending st) in Hwalk.
    eexists _, _. split; [exact Hwalk|]. split.
    { change (length (heap st))
        with (length (heap (with_shader pending st))).
      apply finished_lookup_new. }
    split; reflexivity.
  - rewrite Hfirst in Hrun. discriminate.
Qed.

(** X19.  A shader made from an image is what [R_FindShader] finds: after
    [R_RegisterShaderFromImage] for a name (one that fits the name field)
    and a lighting mode (one that the clamp leaves alone),
    [R_FindShader] for any spelling whose stripped form is that name up
    to case returns the object with the handle that was returned, and
    makes nothing: neither the shader text nor an image file is looked
    at. *)
Theorem R_RegisterShaderFromImage_then_R_FindShader (given given' : string)
    (mode : Z) (image : image_t) (mip mip' : bool) (st st1 : state) (h : Z) :
  Z.of_nat (String.length given) < MAX_QPATH ->
  Q_stricmp (R_StripExtension given' MAX_QPATH) given = 0 ->
  effective_mode (tr_numLightmaps st) mode = mode ->
  R_RegisterShaderFromImage given mode image mip st = Some (h, st1) ->
  exists a s st2,
    R_FindShader (Some given') mode mip' st1 = Some (Some a, st2)
    /\ heap st1 !! a = Some s /\ index s = h
    /\ same_registry st1 st2 /\ same_world st1 st2.
Proof.
  intros Hlen Hname Hmode Hrun.
  destruct (R_RegisterShaderFromImage_cached _ _ _ _ _ _ _ Hlen Hrun)
    as (a & s & Hwalk & Hs & Hh & Hnum).
  exists a, s, (clamp_state given' mode st1).
  split; [|split; [assumption|split; [assumption|apply clamp_state_same]]].
  rewrite R_FindShader_eq. cbv zeta. rewrite Hnum, Hmode.
  rewrite (walk_chain_spelling _ _ mode st1 (Q_stricmp_sym _ _ Hname)).
  rewrite Hwalk. reflexivity.
Qed.

(** X20.  A default-flagged object hides the older objects of its name.
    When the cache holds a shader for a name and a lighting mode, and a
    call of [R_FindShader] for a spelling of that name, with whatever
    mode, ends in a default-flagged object (no definition and no image
    file for that spelling), then [R_FindShader] for the first name and
    mode returns the default-flagged object from then on.  The older
    shader stays in the store, but the wrappers give handle 0 for its
    name. *)
Theorem R_FindShader_default_hides (given1 given2 : string)
    (mode1 mode2 : Z) (mip1 mip2 : bool) (st st1 : state) (a0 d : nat)
    (s0 sd : shader_t) :
  registry_ok st ->
  Q_stricmp (R_StripExtension given1 MAX_QPATH)
            (R_StripExtension given2 MAX_QPATH) = 0 ->
  walk_chain (already_loaded (R_StripExtension given1 MAX_QPATH)
                (effective_mode (tr_numLightmaps st) mode1))
             (length (heap st)) (heap st)
             (hashTable st
                !! generateHashValue (R_StripExtension given1 MAX_QPATH)
                     FILE_HASH_SIZE)
    = Some (Some a0) ->
  heap st !! a0 = Some s0 -> defaultShader s0 = false ->
  R_FindShader (Some given2) mode2 mip2 st = Some (Some d, st1) ->
  heap st1 !! d = Some sd -> defaultShader sd = true ->
  exists st2,
    R_FindShader (Some given1) mode1 mip1 st1 = Some (Some d, st2)
    /\ d <> a0 /\ heap st2 !! a0 = Some s0
    /\ same_registry st1 st2.
Proof.
  intros Hok Hname Hold Hs0 Hflag0 Hrun Hsd Hflagd.
  destruct (R_FindShader_default_next_call (Some given2) mode2 mode1 mip2 mip1
              st st1 d sd (ok_default_first _ Hok) Hrun Hsd Hflagd)
    as (st2' & Hagain & _).
  destruct (R_FindShader_grows _ _ _ _ _ _ Hrun) as [[l Hl] _].
  assert (Hs0' : heap st1 !! a0 = Some s0).
  { rewrite Hl. apply lookup_app_l_Some. assumption. }
  assert (Hne : d <> a0).
  { intros ->. rewrite Hsd in Hs0'. injection Hs0' as <-. congruence. }
  assert (Hwalk : walk_chain
            (already_loaded (R_StripExtension given2 MAX_QPATH)
               (effective_mode (tr_numLightmaps st1) mode1))
            (length (heap st1)) (heap st1)
            (hashTable st1
               !! generateHashValue (R_StripExtension given2 MAX_QPATH)
                    FILE_HASH_SIZE)
          = Some (Some d)).
  { rewrite R_FindShader_eq in Hagain. cbv zeta in Hagain.
    match type of Hagain with
    | match ?w with _ => _ end = _ =>
        destruct w as [[a|]|] eqn:Hw; [| |discriminate]
    end.
    - injection Hagain as -> _. reflexivity.
    - apply load_shader_run in Hagain as (Hr & _).
      destruct (clamp_state_registry given2 mode1 st1) as (Eh & _).
      rewrite Eh in Hr. injection Hr as ->.
      apply lookup_lt_Some in Hsd. lia. }
  exists (clamp_state given1 mode1 st1).
  destruct (clamp_state_registry given1 mode1 st1) as (Eh & _).
  split; [|split; [assumption|split; [rewrite Eh; assumption
                                      |apply clamp_state_same]]].
  rewrite R_FindShader_eq. cbv zeta.
  rewrite <- (walk_chain_spelling _ _ _ st1 Hname), Hwalk. reflexivity.
Qed.

End MoreCacheFacts.

(** ** Remapping onto a shader that is made on the way *)

Section RemapLoads.
Context `{Platform} `{Collaborators}.

(** The target of a remap onto a name that the cache does not hold and
    that [R_FindShader] makes a shader for is that shader: its index is
    its handle, and the handle gives it back. *)
Lemma remap_target_loaded (newShaderName : string) (st st1 : state)
    (d x : nat) (sx : shader_t) :
  tr_defaultShader st = Some d -> is_Some (heap st !! d) ->
  walk_chain (same_name (R_StripExtension newShaderName MAX_QPATH))
             (length (heap st)) (heap st)
             (hashTable st
                !! generateHashValue (R_StripExtension newShaderName MAX_QPATH)
                     FILE_HASH_SIZE)
    = Some None ->
  R_FindShader (Some newShaderName) 0 true st = Some (Some x, st1) ->
  heap st1 !! x = Some sx -> defaultShader sx = false ->
  x = length (heap st)
  /\ remap_target newShaderName st = Some (Some x, st1).
Proof.
  intros Hdef [sd Hd] Hwalk Hfind Hx Hflag.
  assert (Hmiss : forall mode,
             walk_chain
               (already_loaded (R_StripExtension newShaderName MAX_QPATH) mode)
               (length (heap st)) (heap st)
               (hashTable st
                  !! generateHashValue
                       (R_StripExtension newShaderName MAX_QPATH)
                       FILE_HASH_SIZE) = Some None).
  { intros mode.
    destruct (hashTable st !! generateHashValue _ FILE_HASH_SIZE) as [h|];
      [|destruct (length (heap st)); reflexivity].
    pose proof (walk_chain_miss _ _ _ _ Hwalk) as Hall.
    clear -Hwalk Hall. revert h Hwalk Hall.
    induction (length (heap st)) as [|fuel IH]; intros h Hwalk Hall;
      [discriminate|].
    simpl in *. destruct (heap st !! h) as [s|] eqn:Hs; [|discriminate].
    pose proof (Hall h s (chain_here _ _ _ Hs) Hs) as Hsame.
    rewrite Hsame in Hwalk.
    unfold already_loaded. unfold same_name in Hsame. rewrite Hsame. simpl.
    destruct (next s) as [c|] eqn:Hn; [|destruct fuel; reflexivity].
    apply IH; [assumption|].
    intros b sb Hc Hb. apply (Hall b sb); [|assumption].
    eapply chain_next; eassumption. }
  pose proof Hfind as Hload.
  rewrite R_FindShader_eq in Hload. cbv zeta in Hload.
  rewrite Hmiss in Hload.
  apply load_shader_run in Hload as (Hr & pending & w & Hst1 & _).
  destruct (clamp_state_registry newShaderName 0 st)
    as (Eh & _ & Es & _ & Ed & _).
  rewrite Eh in Hr. injection Hr as ->. split; [reflexivity|].
  assert (Hheap : exists s, heap st1 = heap st ++ [s]
                            /\ index s = Z.of_nat (length (tr_shaders st))).
  { rewrite Hst1. unfold finished; simpl. rewrite Eh, Es.
    eexists. split; reflexivity. }
  destruct Hheap as (s & Hheap & Hindex).
  assert (Hshaders : tr_shaders st1 = tr_shaders st ++ [length (heap st)]).
  { rewrite Hst1. unfold finished; simpl. rewrite Eh, Es. reflexivity. }
  assert (Hdef1 : tr_defaultShader st1 = Some d).
  { rewrite Hst1. unfold finished; simpl. rewrite Ed. assumption. }
  rewrite Hheap, list_lookup_middle in Hx by reflexivity.
  injection Hx as <-.
  unfold remap_target. unfold bind at 1, gets at 1. rewrite Hdef.
  unfold bind at 1, find_in_chain. rewrite Hwalk.
  rewrite bool_decide_eq_true_2 by reflexivity.
  rewrite (bind_run _ _ _ _ _ Hfind).
  unfold bind at 1, deref. rewrite Hheap, list_lookup_middle by reflexivity.
  rewrite Hflag.
  assert (Hget : R_GetShaderByHandle (index s) st1
                 = Some (Some (length (heap st)), st1)).
  { unfold R_GetShaderByHandle, bind, gets, ret. rewrite Hshaders, Hindex.
    rewrite length_app. simpl.
    rewrite (proj2 (orb_false_iff _ _))
      by (split; [apply Z.ltb_ge | apply Z.leb_gt]; lia).
    rewrite Nat2Z.id, list_lookup_middle by reflexivity. reflexivity. }
  rewrite (bind_run _ _ _ _ _ Hget).
  unfold bind, gets, Printf, modify, ret. rewrite Hdef1.
  apply lookup_lt_Some in Hd.
  rewrite bool_decide_eq_false_2 by (intros [= E]; lia).
  rewrite bool_decide_eq_false_2 by discriminate. reflexivity.
Qed.

(** X21.  When the cache holds no object of the stripped target name and
    [R_FindShader] makes a shader for it that is not default-flagged
    (from the shader text, or from an image file), [RE_RemapShader] takes
    that new shader as the target: the handle made from its index gives
    it back, no warning is printed for the remap, every cached object of
    the stripped source name gets the new shader as its remap (the new
    shader itself none), and a time offset that was given is stored on
    it. *)
Theorem RE_RemapShader_loads_target (shaderName newShaderName : string)
    (offset : option string) (st st1 : state) (d x : nat) (sx : shader_t) :
  registry_ok st ->
  tr_defaultShader st = Some d -> is_Some (heap st !! d) ->
  walk_chain (same_name (R_StripExtension newShaderName MAX_QPATH))
             (length (heap st)) (heap st)
             (hashTable st
                !! generateHashValue (R_StripExtension newShaderName MAX_QPATH)
                     FILE_HASH_SIZE)
    = Some None ->
  R_FindShader (Some newShaderName) 0 true st = Some (Some x, st1) ->
  heap st1 !! x = Some sx -> defaultShader sx = false ->
  exists st',
    RE_RemapShader shaderName newShaderName offset st = Some (tt, st')
    /\ x = length (heap st)
    /\ length (heap st') = S (length (heap st))
    /\ printed st' = printed st1
    /\ (forall b a s',
          cached st' b a -> heap st' !! a = Some s' ->
          Q_stricmp (name s') (R_StripExtension shaderName MAX_QPATH) = 0 ->
          remappedShader s' = if bool_decide (a = x) then None else Some x)
    /\ (forall t, offset = Some t ->
          exists sx', heap st' !! x = Some sx' /\ timeOffset sx' = atof t).
Proof.
  intros Hok Hdef Hd Hwalk Hfind Hx Hflag.
  destruct (remap_target_loaded _ _ _ _ _ _ Hdef Hd Hwalk Hfind Hx Hflag)
    as [Hnew Htarget].
  destruct (remap_target_run _ _ _ _ Hok Htarget) as [Hok1 _].
  destruct (R_FindShader_grows _ _ _ _ _ _ Hfind) as [[l Hl] _].
  pose proof (lookup_lt_Some _ _ _ Hx) as Hx1.
  assert (Hlen1 : length (heap st1) = S (length (heap st))).
  { pose proof Hfind as Hload.
    destruct (R_FindShader_frame_run _ _ _ _ _ _ Hload)
      as [[(Eh & _) _]|(s & _ & Eh & _)].
    - rewrite Eh in Hx1. lia.
    - rewrite Eh, length_app. simpl. lia. }
  set (N := R_StripExtension shaderName MAX_QPATH).
  assert (Hchain : exists hp',
             remap_chain N (Some x) (length (heap st1)) (heap st1)
               (hashTable st1 !! generateHashValue N FILE_HASH_SIZE)
             = Some hp').
  { destruct (hashTable st1 !! generateHashValue N FILE_HASH_SIZE)
      as [h|] eqn:Eh.
    - apply remap_chain_returns; [apply Hok1| |];
        apply (ok_table _ Hok1 _ _ Eh).
    - destruct (length (heap st1)); simpl; eauto. }
  destruct Hchain as [hp' Hchain].
  assert (Hlen : length hp' = length (heap st1)).
  { apply remap_chain_spec in Hchain as (Hshape & _).
    symmetry. apply (Forall2_length _ _ _ Hshape). }
  assert (Hrun : exists st',
             RE_RemapShader shaderName newShaderName offset st
             = Some (tt, st')
             /\ length (heap st') = length (heap st1)
             /\ printed st' = printed st1).
  { unfold RE_RemapShader. rewrite (bind_run _ _ _ _ _ Htarget).
    fold N. unfold bind at 1. rewrite Hchain.
    destruct offset as [t|].
    - unfold store; simpl.
      destruct (lookup_lt_is_Some_2 hp' x) as [s2 ->]; [lia|].
      eexists; split; [reflexivity|]. simpl. rewrite length_insert. auto.
    - eexists; split; [reflexivity|]. simpl. auto. }
  destruct Hrun as (st' & Hrun & Hl' & Hp). exists st'.
  split; [assumption|]. split; [assumption|].
  split; [congruence|]. split; [assumption|].
  destruct (RE_RemapShader_post _ _ _ _ _ Hok Hrun)
    as (sh2 & st1' & Ht & H1 & _ & H3 & _).
  rewrite Htarget in Ht. injection Ht as <- <-. split.
  - intros b a s' Hc Hs' Hn. rewrite (H1 b a s' Hc Hs' Hn).
    unfold remap_of. destruct (decide (a = x)) as [->|Hne].
    + rewrite !bool_decide_eq_true_2; reflexivity.
    + rewrite !bool_decide_eq_false_2; congruence.
  - intros t Ht. destruct (H3 t Ht) as (a2 & s2 & [= <-] & Hs2 & Hoff). eauto.
Qed.

End RemapLoads.

(** ** The block of the shader text *)

Lemma list_ascii_of_string_app (a b : string) :
  list_ascii_of_string (a +:+ b)
  = list_ascii_of_string a ++ list_ascii_of_string b.
Proof. induction a as [|c a IH]; simpl; [reflexivity|]. rewrite IH. reflexivity. Qed.

Lemma list_ascii_of_string_length (s : string) :
  length (list_ascii_of_string s) = String.length s.
Proof. induction s as [|c s IH]; simpl; [reflexivity|]. rewrite IH. reflexivity. Qed.

Lemma string_app_length (a b : string) :
  String.length (a +:+ b) = (String.length a + String.length b)%nat.
Proof. induction a as [|c a IH]; simpl; [reflexivity|]. rewrite IH. reflexivity. Qed.

Lemma string_app_nil_r (s : string) : (s +:+ "")%string = s.
Proof.
  induction s as [|c s IH]; [reflexivity|].
  change (String c (s +:+ "") = String c s). rewrite IH. reflexivity.
Qed.

Lemma nul_free_app (a b : string) :
  nul_free a -> nul_free b -> nul_free (a +:+ b).
Proof.
  unfold nul_free. induction a as [|c a IH]; simpl; [auto|].
  intros [Hc Ha]%orb_false_iff Hb. rewrite Hc. simpl. auto.
Qed.

Lemma nul_free_newline : nul_free newline.
Proof. reflexivity. Qed.

Lemma c_strlen_string (s : string) (rest : list ascii) :
  nul_free s ->
  c_strlen (list_ascii_of_string s ++ NUL :: rest) = Some (String.length s).
Proof.
  unfold nul_free. induction s as [|c s IH]; simpl.
  - reflexivity.
  - intros [Hc Hs]%orb_false_iff. rewrite Hc, (IH Hs). reflexivity.
Qed.

Lemma c_string_string (s : string) (rest : list ascii) :
  nul_free s -> c_string (list_ascii_of_string s ++ NUL :: rest) = Some s.
Proof.
  intros Hs. unfold c_string. rewrite (c_strlen_string _ _ Hs).
  rewrite <- list_ascii_of_string_length, take_app_length.
  rewrite string_of_list_ascii_of_string. reflexivity.
Qed.

Lemma poke_length (block : list ascii) (dest : nat) (bytes block' : list ascii) :
  poke block dest bytes = Some block' -> length block' = length block.
Proof.
  unfold poke. destruct (_ <=? _)%nat eqn:E; [|discriminate].
  apply Nat.leb_le in E. intros [= <-].
  rewrite !length_app, length_take, length_drop. lia.
Qed.

Lemma poke_app (pre post bytes : list ascii) :
  poke (pre ++ post) (length pre) bytes
  = if (length bytes <=? length post)%nat
    then Some (pre ++ bytes ++ drop (length bytes) post)
    else None.
Proof.
  unfold poke. rewrite length_app.
  destruct (length bytes <=? length post)%nat eqn:E.
  - apply Nat.leb_le in E. rewrite (proj2 (Nat.leb_le _ _)) by lia.
    rewrite take_app_length, drop_app_add. reflexivity.
  - apply Nat.leb_gt in E. rewrite (proj2 (Nat.leb_gt _ _)) by lia.
    reflexivity.
Qed.

(** [strcat] onto the string that ends at the terminator in front of
    [rest], from a place inside it (behind [text1], in front of [text2]):
    the string grows by [src] when the block has room for it and its
    terminator, and the call faults when it has not. *)
Lemma strcat_string (text1 text2 src : string) (rest : list ascii) :
  nul_free text2 ->
  strcat (list_ascii_of_string text1 ++ list_ascii_of_string text2
            ++ NUL :: rest)
         (String.length text1) src
  = if (String.length src <=? length rest)%nat then
      Some (list_ascii_of_string text1 ++ list_ascii_of_string text2
              ++ list_ascii_of_string src
              ++ NUL :: drop (String.length src) rest)
    else None.
Proof.
  intros H2. unfold strcat.
  rewrite <- (list_ascii_of_string_length text1), drop_app_length.
  rewrite (c_strlen_string _ _ H2).
  rewrite <- (list_ascii_of_string_length text2), <- length_app.
  rewrite (app_assoc (list_ascii_of_string text1)).
  rewrite poke_app. rewrite length_app, list_ascii_of_string_length. simpl.
  rewrite Nat.add_1_r. simpl.
  destruct (String.length src <=? length rest)%nat; [|reflexivity].
  rewrite <- !app_assoc. reflexivity.
Qed.

Lemma joined_nul_free (buffers : list (option string)) (n1 : nat) :
  (forall k b, buffers !! k = Some (Some b) -> nul_free b) ->
  nul_free (joined buffers n1).
Proof.
  intros Hb. induction n1 as [|n IH]; simpl; [reflexivity|].
  destruct (buffers !! n) as [[b|]|] eqn:E; try assumption.
  apply nul_free_app; [eauto|]. apply nul_free_app; [reflexivity|assumption].
Qed.

Lemma joined_length (buffers : list (option string)) (n1 : nat) :
  (String.length (joined buffers n1) <= text_size buffers n1 + n1)%nat.
Proof.
  induction n1 as [|n IH]; simpl; [lia|].
  destruct (buffers !! n) as [[b|]|]; rewrite ?string_app_length; simpl; lia.
Qed.

(** The loop of [BuildSingleLargeBuffer] on a block that holds [text]
    and its terminator, with [textEnd] at that terminator: the block
    holds the text and the joined buffers behind it when it has room for
    them, and the loop writes past its end when it has not. *)
Lemma concat_buffers_spec (buffers : list (option string)) :
  (forall k b, buffers !! k = Some (Some b) -> nul_free b) ->
  forall n1 text rest,
    (n1 <= length buffers)%nat -> nul_free text ->
    concat_buffers buffers n1 (list_ascii_of_string text ++ NUL :: rest)
                   (String.length text)
    = if (String.length (joined buffers n1) <=? length rest)%nat then
        Some (list_ascii_of_string (text +:+ joined buffers n1)
                ++ NUL :: drop (String.length (joined buffers n1)) rest)
      else None.
Proof.
  intros Hb. induction n1 as [|n IH]; intros text rest Hn Ht.
  - simpl. rewrite string_app_nil_r, drop_0. reflexivity.
  - simpl. destruct (lookup_lt_is_Some_2 buffers n) as [ob Hob]; [lia|].
    rewrite Hob. destruct ob as [b|]; [|apply IH; [lia|assumption]].
    pose proof (Hb _ _ Hob) as Hnb.
    pose proof (strcat_string text EmptyString b rest eq_refl) as H1.
    change (list_ascii_of_string "" ++ NUL :: rest) with (NUL :: rest) in H1.
    change (list_ascii_of_string "" ++ ?l) with l in H1.
    rewrite H1. clear H1.
    rewrite !string_app_length.
    change (String.length newline) with 1%nat.
    destruct (String.length b <=? length rest)%nat eqn:E1.
    + apply Nat.leb_le in E1.
      rewrite (strcat_string text b newline _ Hnb).
      change (String.length newline) with 1%nat.
      rewrite length_drop.
      destruct (1 <=? length rest - String.length b)%nat eqn:E2.
      * apply Nat.leb_le in E2.
        pose proof (IH (text +:+ b +:+ newline)
                      (drop 1 (drop (String.length b) rest))) as IH'.
        rewrite !list_ascii_of_string_app, !string_app_length in IH'.
        change (String.length newline) with 1%nat in IH'.
        rewrite <- !app_assoc in IH'.
        rewrite IH' by first
          [ lia
          | apply nul_free_app;
            [assumption | apply nul_free_app; [assumption|reflexivity]] ].
        rewrite !length_drop.
        destruct (String.length (joined buffers n)
                  <=? length rest - String.length b - 1)%nat eqn:E3.
        -- apply Nat.leb_le in E3.
           rewrite (proj2 (Nat.leb_le _ _)) by lia. f_equal.
           rewrite !list_ascii_of_string_app.
           rewrite <- !app_assoc. rewrite !drop_drop.
           reflexivity.
        -- apply Nat.leb_gt in E3.
           rewrite (proj2 (Nat.leb_gt _ _)) by lia. reflexivity.
      * apply Nat.leb_gt in E2.
        rewrite (proj2 (Nat.leb_gt _ _)) by lia. reflexivity.
    + apply Nat.leb_gt in E1.
      rewrite (proj2 (Nat.leb_gt _ _)) by lia. reflexivity.
Qed.

(** [BuildSingleLargeBuffer] in one equation. *)
Lemma BuildSingleLargeBuffer_text_run (buffers : list (option string))
    (nShaderFiles sum : Z) (st : state) :
  0 <= nShaderFiles <= Z.of_nat (length buffers) ->
  (forall k b, buffers !! k = Some (Some b) -> nul_free b) ->
  let size := wrap_int (sum + wrap_int (nShaderFiles * 2)) in
  let text := joined buffers (Z.to_nat nShaderFiles) in
  BuildSingleLargeBuffer buffers nShaderFiles sum st
  = (if Z.of_nat (String.length text) <? size
     then Some (tt, with_s_shaderText (Some text) st) else None)
  /\ (0 < nShaderFiles ->
      Z.of_nat (text_size buffers (Z.to_nat nShaderFiles)) <= sum ->
      sum + nShaderFiles * 2 <= INT_MAX ->
      Z.of_nat (String.length text) < size).
Proof.
  intros Hn Hb size text. split.
  - unfold BuildSingleLargeBuffer. fold size.
    pose proof (poke_app [] (replicate (Z.to_nat size) NUL) [NUL]) as Hp.
    cbn [app length] in Hp. rewrite Hp. clear Hp. rewrite length_replicate.
    destruct (1 <=? Z.to_nat size)%nat eqn:E1.
    + apply Nat.leb_le in E1.
      pose proof (concat_buffers_spec buffers Hb (Z.to_nat nShaderFiles)
                    EmptyString (drop 1 (replicate (Z.to_nat size) NUL))) as Hc.
      cbn [list_ascii_of_string app String.length] in Hc.
      change ("" +:+ ?x)%string with x in Hc.
      rewrite Hc by first [reflexivity | lia]. clear Hc.
      fold text. rewrite length_drop, length_replicate.
      destruct (String.length text <=? Z.to_nat size - 1)%nat eqn:E2.
      * apply Nat.leb_le in E2.
        rewrite c_string_string by (apply joined_nul_free; assumption).
        rewrite (proj2 (Z.ltb_lt _ _)) by lia. reflexivity.
      * apply Nat.leb_gt in E2.
        rewrite (proj2 (Z.ltb_ge _ _)) by lia. reflexivity.
    + apply Nat.leb_gt in E1.
      rewrite (proj2 (Z.ltb_ge _ _)) by lia. reflexivity.
  - intros Hpos Hsum Hmax.
    pose proof (joined_length buffers (Z.to_nat nShaderFiles)) as Hl.
    fold text in Hl. subst size.
    assert (0 <= sum) by lia.
    rewrite (wrap_int_small (nShaderFiles * 2)) by lia.
    rewrite wrap_int_small by lia. lia.
Qed.

(** X13.  [BuildSingleLargeBuffer] joins the buffers from the last to
    the first, a line feed after each, the null ones left out, and
    [s_shaderText] is that text: when the block of
    [sum + nShaderFiles * 2] bytes has room for the text and its
    terminator.  When it has not, a [strcat] writes past the end of the
    block.  The block has room when [sum] is at least the length of the
    buffers together: of the two bytes a file, one is for its line feed.
    (The buffers hold no terminator inside.) *)
Theorem BuildSingleLargeBuffer_text (buffers : list (option string))
    (nShaderFiles sum : Z) (st : state) :
  0 <= nShaderFiles <= Z.of_nat (length buffers) ->
  (forall k b, buffers !! k = Some (Some b) -> nul_free b) ->
  let size := wrap_int (sum + wrap_int (nShaderFiles * 2)) in
  let text := joined buffers (Z.to_nat nShaderFiles) in
  BuildSingleLargeBuffer buffers nShaderFiles sum st
  = (if Z.of_nat (String.length text) <? size
     then Some (tt, with_s_shaderText (Some text) st) else None)
  /\ (0 < nShaderFiles ->
      Z.of_nat (text_size buffers (Z.to_nat nShaderFiles)) <= sum ->
      sum + nShaderFiles * 2 <= INT_MAX ->
      Z.of_nat (String.length text) < size).
Proof. apply BuildSingleLargeBuffer_text_run. Qed.

(** ** The loader *)

Lemma wrap_long_small (z : Z) : 0 <= z <= INT_MAX -> wrap_long z = z.
Proof.
  intros Hz. unfold wrap_long, wrap, INT_MAX in *.
  change (2 ^ (64 - 1)) with 9223372036854775808.
  change (2 ^ 64) with 18446744073709551616.
  rewrite Z.mod_small; lia.
Qed.

Lemma string_app_assoc (a b c : string) :
  ((a +:+ b) +:+ c)%string = (a +:+ b +:+ c)%string.
Proof.
  induction a as [|x a IH]; [reflexivity|].
  change (String x ((a +:+ b) +:+ c) = String x (a +:+ b +:+ c)).
  rewrite IH. reflexivity.
Qed.

Lemma joined_ext (l1 l2 : list (option string)) (n1 : nat) :
  (forall k, (k < n1)%nat -> l1 !! k = l2 !! k) ->
  joined l1 n1 = joined l2 n1.
Proof.
  induction n1 as [|n IH]; intros Hk; [reflexivity|]. simpl.
  rewrite (Hk n) by lia. rewrite IH by (intros; apply Hk; lia). reflexivity.
Qed.

Lemma text_size_ext (l1 l2 : list (option string)) (n1 : nat) :
  (forall k, (k < n1)%nat -> l1 !! k = l2 !! k) ->
  text_size l1 n1 = text_size l2 n1.
Proof.
  induction n1 as [|n IH]; intros Hk; [reflexivity|]. simpl.
  rewrite (Hk n) by lia. rewrite IH by (intros; apply Hk; lia). reflexivity.
Qed.

Lemma join_reversed_snoc (bufs : list string) (b : string) :
  join_reversed (bufs ++ [b]) = (b +:+ newline +:+ join_reversed bufs)%string.
Proof.
  induction bufs as [|x bufs IH]; simpl.
  - rewrite string_app_nil_r. reflexivity.
  - rewrite IH, !string_app_assoc. reflexivity.
Qed.

Lemma joined_join_reversed (bufs : list string) (pad : list (option string)) :
  joined ((Some <$> bufs) ++ pad) (length bufs) = join_reversed bufs.
Proof.
  revert pad. induction bufs as [|b bufs IH] using rev_ind; intros pad.
  - reflexivity.
  - rewrite length_app, Nat.add_1_r, fmap_app, <- app_assoc. simpl.
    rewrite lookup_app_r by (rewrite length_fmap; lia).
    rewrite length_fmap, Nat.sub_diag. simpl.
    rewrite IH, join_reversed_snoc. reflexivity.
Qed.

Lemma text_size_total (loaded : list (Z * string))
    (pad : list (option string)) :
  Forall (fun r => Z.of_nat (String.length (snd r)) <= fst r) loaded ->
  Z.of_nat (text_size ((Some ∘ snd <$> loaded) ++ pad) (length loaded))
  <= total_size loaded.
Proof.
  revert pad. induction loaded as [|r loaded IH] using rev_ind;
    intros pad Hall.
  - simpl. lia.
  - apply Forall_app in Hall as [Hl Hr].
    apply (proj1 (Forall_singleton _ _)) in Hr.
    rewrite length_app, Nat.add_1_r, fmap_app, <- app_assoc. simpl.
    rewrite lookup_app_r by (rewrite length_fmap; lia).
    rewrite length_fmap, Nat.sub_diag. simpl.
    specialize (IH ([Some (snd r)] ++ pad) Hl). simpl in IH.
    unfold total_size in *. rewrite foldr_app. simpl.
    assert (Hf : forall (l : list (Z * string)) a,
               foldr (fun r acc => fst r + acc) a l
               = foldr (fun r acc => fst r + acc) 0 l + a).
    { clear. intros l a. induction l as [|x l IHl]; simpl; lia. }
    rewrite Hf. lia.
Qed.

Lemma total_size_nonneg (loaded : list (Z * string)) :
  Forall (fun r => Z.of_nat (String.length (snd r)) <= fst r) loaded ->
  0 <= total_size loaded.
Proof.
  induction 1 as [|r loaded Hr _ IH]; unfold total_size in *; simpl; lia.
Qed.

Lemma total_size_app (l1 l2 : list (Z * string)) :
  total_size (l1 ++ l2) = total_size l1 + total_size l2.
Proof.
  unfold total_size. induction l1 as [|x l1 IH]; simpl; lia.
Qed.

Section LoaderFacts.
Context `{Platform} `{Collaborators} `{Imports}.

(** The check of a file ends, with a tokenizer that moves forward, and
    prints at most one warning. *)
Lemma check_loop_returns (file buffer : string) :
  tokenizer_advances -> skipper_advances ->
  forall fuel p, (String.length p < fuel)%nat ->
    exists log, check_loop fuel file buffer p = Some log
                /\ one_defect file log.
Proof.
  intros Htok Hskip. induction fuel as [|fuel IH]; intros p Hp; [lia|].
  simpl. destruct (R_ParseExt p true) as [token p1] eqn:E1.
  destruct (Htok _ _ _ _ E1) as [_ Hlt].
  destruct token as [|c token]; [exists []; split; [reflexivity|left; reflexivity]|].
  pose proof (Hlt ltac:(discriminate)) as Hp1.
  destruct (R_ParseExt p1 true) as [token2 p2] eqn:E2.
  destruct (Htok _ _ _ _ E2) as [Hle2 _].
  set (shaderName := Q_strncpyz (String c token) 64).
  assert (Hname : (String.length shaderName <= 63)%nat)
    by (apply strn_length).
  destruct (is_opening_brace token2) eqn:Eb.
  - destruct (SkipBracedSection p2 1) as [closed p3] eqn:E3.
    pose proof (Hskip _ _ _ _ E3) as Hle3.
    destruct closed.
    + apply IH. lia.
    + eexists. split; [reflexivity|]. right. right. eauto.
  - eexists. split; [reflexivity|]. right. left.
    exists shaderName, (R_GetCurrentParseLine buffer p1).
    split; [assumption|].
    destruct token2 as [|c2 token2]; [left; reflexivity|].
    right. exists (String c2 token2), (R_GetCurrentParseLine buffer p2).
    split; [discriminate|]. split; [assumption|]. reflexivity.
Qed.

(** [Shader_DoSimpleCheck] returns, with at most one warning. *)
Lemma Shader_DoSimpleCheck_reports_once_run (file p : string)
    (ls : loader_state) :
  tokenizer_advances -> skipper_advances ->
  exists log,
    Shader_DoSimpleCheck file p ls
    = Returned tt (mk_loader (statics ls) (events ls ++ log))
    /\ one_defect file log
    /\ (fst (R_ParseExt p true) = EmptyString -> log = []).
Proof.
  intros Htok Hskip.
  destruct (check_loop_returns file p Htok Hskip (S (String.length p)) p)
    as (log & Hrun & Hshape); [lia|].
  exists log. unfold Shader_DoSimpleCheck. rewrite Hrun.
  split; [reflexivity|]. split; [assumption|].
  intros Hempty. simpl in Hrun.
  destruct (R_ParseExt p true) as [token p1]. simpl in Hempty. subst token.
  congruence.
Qed.


(** The loop that loads the files, over files that can be read: each
    buffer goes to its place in the array, the sizes add up, and the
    statics of the file are not touched. *)
Lemma load_files_prefix :
  tokenizer_advances -> skipper_advances ->
  forall files1 loaded files2 pre m sum ls,
    Forall2 reads_as files1 loaded ->
    (length files1 <= m)%nat ->
    0 <= sum -> sum + total_size loaded <= INT_MAX ->
    exists evs,
      load_files (files1 ++ files2) (length pre) (pre ++ replicate m None)
                 sum ls
      = load_files files2 (length pre + length files1)
          (pre ++ (Some ∘ snd <$> loaded)
               ++ replicate (m - length files1) None)
          (sum + total_size loaded)
          (mk_loader (statics ls) (events ls ++ evs)).
Proof.
  intros Htok Hskip files1 loaded files2 pre m sum ls Hall.
  revert pre m sum ls.
  induction Hall as [|f r files1 loaded Hr Hall IH];
    intros pre m sum ls Hm Hsum Hmax.
  - exists []. simpl. rewrite Nat.add_0_r, Nat.sub_0_r, Z.add_0_r, app_nil_r.
    destruct ls; reflexivity.
  - destruct Hr as (Hread & Hnul & Hsize). simpl in Hm.
    destruct m as [|m]; [lia|].
    change ((f :: files1) ++ files2) with (f :: (files1 ++ files2)).
    cbn [load_files]. unfold Lbind at 1, Lprintf at 1.
    rewrite Hread.
    rewrite (proj2 (Nat.ltb_lt _ _))
      by (rewrite length_app, length_replicate; lia).
    destruct (Shader_DoSimpleCheck_reports_once_run (scripts_filename f) (snd r)
                (mk_loader (statics ls)
                   (events ls ++ [Ev_Printf PRINT_ALL
                                    (Msg_loading (scripts_filename f))]))
                Htok Hskip) as (log & Hcheck & _).
    unfold Lbind at 1. rewrite Hcheck.
    cbn [statics events].
    replace (<[length pre := Some (snd r)]> (pre ++ replicate (S m) None))
      with ((pre ++ [Some (snd r)]) ++ replicate m None).
    2:{ rewrite (insert_app_r_alt pre) by lia. rewrite Nat.sub_diag.
        rewrite <- app_assoc. reflexivity. }
    replace (S (length pre)) with (length (pre ++ [Some (snd r)]))
      by (rewrite length_app; simpl; lia).
    pose proof (total_size_nonneg loaded) as Hnn.
    assert (Hloaded : Forall (fun r => Z.of_nat (String.length (snd r)) <= fst r)
                        loaded).
    { clear -Hall. induction Hall as [|? ? ? ? (_ & _ & ?)]; constructor; auto. }
    specialize (Hnn Hloaded).
    change (total_size (r :: loaded)) with (fst r + total_size loaded) in *.
    rewrite wrap_long_small by lia.
    destruct (IH (pre ++ [Some (snd r)]) m (sum + fst r)
                (mk_loader (statics ls)
                   ((events ls ++ [Ev_Printf PRINT_ALL
                                     (Msg_loading (scripts_filename f))])
                    ++ log))) as [evs Hrest]; [lia|lia|lia|].
    rewrite Hrest. cbn [statics events].
    exists ([Ev_Printf PRINT_ALL (Msg_loading (scripts_filename f))]
            ++ log ++ evs).
    rewrite length_app. simpl length.
    rewrite <- !app_assoc. simpl.
    replace (length pre + 1 + length files1)%nat
      with (length pre + S (length files1))%nat by lia.
    replace (sum + fst r + total_size loaded)
      with (sum + (fst r + total_size loaded)) by lia.
    reflexivity.
Qed.

Lemma load_files_drop (f : string) (post : list string) :
  tokenizer_advances -> skipper_advances ->
  snd (FS_ReadFile (scripts_filename f)) = None ->
  forall pre i buffers sum ls,
    Forall (fun g => exists size b,
                FS_ReadFile (scripts_filename g) = (size, Some b)) pre ->
    (i + length pre < length buffers)%nat ->
    exists evs,
      load_files (pre ++ f :: post) i buffers sum ls
      = Dropped (Err_could_not_load (scripts_filename f))
                (mk_loader (statics ls) (events ls ++ evs)).
Proof.
  intros Htok Hskip Hf pre.
  induction pre as [|g pre IH]; intros i buffers sum ls Hall Hi.
  - simpl in *. unfold Lbind at 1, Lprintf at 1.
    destruct (FS_ReadFile (scripts_filename f)) as [size buffer].
    simpl in Hf. subst buffer.
    rewrite (proj2 (Nat.ltb_lt _ _)) by lia.
    eexists. reflexivity.
  - apply Forall_cons in Hall as [(size & b & Hg) Hall]. simpl in Hi.
    change ((g :: pre) ++ f :: post) with (g :: (pre ++ f :: post)).
    cbn [load_files]. unfold Lbind at 1, Lprintf at 1. rewrite Hg.
    rewrite (proj2 (Nat.ltb_lt _ _)) by lia.
    destruct (Shader_DoSimpleCheck_reports_once_run (scripts_filename g) b
                (mk_loader (statics ls)
                   (events ls ++ [Ev_Printf PRINT_ALL
                                    (Msg_loading (scripts_filename g))]))
                Htok Hskip) as (log & Hcheck & _).
    unfold Lbind at 1. rewrite Hcheck. cbn [statics events].
    destruct (IH (S i) (<[i := Some b]> buffers) (wrap_long (sum + size))
                (mk_loader (statics ls)
                   ((events ls ++ [Ev_Printf PRINT_ALL
                                     (Msg_loading (scripts_filename g))])
                    ++ log)) Hall) as [evs Hrest].
    { rewrite length_insert. lia. }
    rewrite Hrest. cbn [statics events]. rewrite <- !app_assoc.
    eexists. reflexivity.
Qed.

Lemma take_clamped (files : list string) :
  take (Z.to_nat (if Z.of_nat (length files) >? MAX_SHADER_FILES
                  then MAX_SHADER_FILES else Z.of_nat (length files)))
       files
  = take (Z.to_nat MAX_SHADER_FILES) files.
Proof.
  destruct (Z.of_nat (length files) >? MAX_SHADER_FILES) eqn:E;
    [reflexivity|].
  rewrite Nat2Z.id, firstn_all. symmetry. apply take_ge. lia.
Qed.

(** [ScanAndLoadShaderFiles] up to the loop that loads the files, for a
    list that is not empty. *)
Lemma ScanAndLoadShaderFiles_eq (files : list string) (ls : loader_state) :
  FS_ListFiles "scripts" ".shader" = Some files -> files <> [] ->
  exists evs,
    ScanAndLoadShaderFiles ls
    = (let numShaderFiles :=
         if Z.of_nat (length files) >? MAX_SHADER_FILES
         then MAX_SHADER_FILES else Z.of_nat (length files) in
       let+ loaded :=
         load_files (take (Z.to_nat MAX_SHADER_FILES) files) O
                    (replicate (Z.to_nat MAX_SHADER_FILES) None) 0 in
       let '(buffers, sum) := loaded in
       lift (BuildSingleLargeBuffer buffers numShaderFiles (wrap_int sum)) >+>
       let+ text := lift (gets s_shaderText) in
       match text with
       | None => fun _ => Faulted
       | Some text =>
           FunLogging "BuildSingleLargeBuffer.txt" text >+>
           let text := R_Compress text in
           lift (modify (with_s_shaderText (Some text))) >+>
           FunLogging "after_R_Compress.txt" text >+>
           lift SetShaderTextHashTableSizes
       end)
      (mk_loader (statics ls) (events ls ++ evs)).
Proof.
  intros Hlist Hne. unfold ScanAndLoadShaderFiles. rewrite Hlist.
  destruct files as [|f files]; [congruence|].
  unfold Lbind at 1, Lprintf at 1. unfold Lbind at 1.
  rewrite <- take_clamped.
  destruct (Z.of_nat (length (f :: files)) >? MAX_SHADER_FILES).
  - unfold Lbind at 1, Lprintf at 1, Lret. cbn [statics events].
    rewrite <- app_assoc. eexists. reflexivity.
  - unfold Lret. eexists. reflexivity.
Qed.

(** X15.  Without shader files ([ri.FS_ListFiles] gives null, or a list
    of no names) [ScanAndLoadShaderFiles] prints its two lines and
    returns: no text is built and no index.  In a renderer that has no
    index from before, the lookup of any name in the shader text then
    reads through a null pointer. *)
Theorem ScanAndLoadShaderFiles_no_files (ls : loader_state) :
  FS_ListFiles "scripts" ".shader" = None
  \/ FS_ListFiles "scripts" ".shader" = Some [] ->
  ScanAndLoadShaderFiles ls
  = Returned tt
      (mk_loader (statics ls)
         (events ls
          ++ [Ev_Printf PRINT_DEVELOPER Msg_ScanAndLoadShaderFiles;
              Ev_Printf PRINT_WARNING Msg_no_shader_files_found]))
  /\ (shaderTextHashTable (statics ls) = ∅ ->
      forall shadername,
        (ScanAndLoadShaderFiles >+> lift (FindShaderInShaderText shadername))
          ls = Faulted).
Proof.
  intros Hlist.
  assert (Hrun : ScanAndLoadShaderFiles ls
            = Returned tt
                (mk_loader (statics ls)
                   (events ls
                    ++ [Ev_Printf PRINT_DEVELOPER Msg_ScanAndLoadShaderFiles;
                        Ev_Printf PRINT_WARNING Msg_no_shader_files_found]))).
  { unfold ScanAndLoadShaderFiles.
    destruct Hlist as [-> | ->]; unfold Lbind, Lprintf; cbn [statics events];
      rewrite <- app_assoc; reflexivity. }
  split; [exact Hrun|]. intros Hnone shadername.
  unfold Lbind. rewrite Hrun. unfold lift, FindShaderInShaderText.
  cbn [statics]. rewrite Hnone, lookup_empty. reflexivity.
Qed.

(** X16.  A file of the list that cannot be read ends
    [ScanAndLoadShaderFiles] through [ri.Error]: the files in front of it
    have been read and checked, but no text has been built, and the
    statics of the file (the text and the index of an earlier run, the
    cache) are as they were. *)
Theorem ScanAndLoadShaderFiles_unreadable (files pre post : list string)
    (f : string) (ls : loader_state) :
  tokenizer_advances -> skipper_advances ->
  FS_ListFiles "scripts" ".shader" = Some files ->
  take (Z.to_nat MAX_SHADER_FILES) files = pre ++ f :: post ->
  Forall (fun g => exists size b,
              FS_ReadFile (scripts_filename g) = (size, Some b)) pre ->
  snd (FS_ReadFile (scripts_filename f)) = None ->
  exists evs,
    ScanAndLoadShaderFiles ls
    = Dropped (Err_could_not_load (scripts_filename f))
              (mk_loader (statics ls) (events ls ++ evs)).
Proof.
  intros Htok Hskip Hlist Htake Hpre Hf.
  assert (Hne : files <> []).
  { intros ->. rewrite take_nil in Htake. destruct pre; discriminate. }
  destruct (ScanAndLoadShaderFiles_eq files ls Hlist Hne) as [evs0 ->].
  cbv zeta. unfold Lbind at 1. rewrite Htake.
  assert (Hlen : (length (pre ++ f :: post) <= Z.to_nat MAX_SHADER_FILES)%nat).
  { rewrite <- Htake, length_take. lia. }
  rewrite length_app in Hlen. simpl in Hlen.
  destruct (load_files_drop f post Htok Hskip Hf pre O
              (replicate (Z.to_nat MAX_SHADER_FILES) None) 0
              (mk_loader (statics ls) (events ls ++ evs0)) Hpre)
    as [evs Hdrop].
  { rewrite length_replicate. lia. }
  rewrite Hdrop. cbn [statics events]. rewrite <- app_assoc.
  eexists. reflexivity.
Qed.

(** [ScanAndLoadShaderFiles] over files that can be read. *)
Lemma ScanAndLoadShaderFiles_builds_index_run (files : list string)
    (loaded : list (Z * string)) (ls : loader_state) :
  tokenizer_advances -> skipper_advances ->
  FS_ListFiles "scripts" ".shader" = Some files -> files <> [] ->
  Forall2 reads_as (take (Z.to_nat MAX_SHADER_FILES) files) loaded ->
  total_size loaded + 2 * Z.of_nat (length loaded) <= INT_MAX ->
  let text := R_Compress (join_reversed (snd <$> loaded)) in
  exists ds st' evs,
    ScanAndLoadShaderFiles ls
    = Returned tt (mk_loader st' (events ls ++ evs))
    /\ indexed st' text ds
    /\ st' = with_index (shaderTextHashTable st') (hashMem st')
                       (with_s_shaderText (Some text) (statics ls))
    /\ Ev_FunLogging "BuildSingleLargeBuffer.txt"
                     (join_reversed (snd <$> loaded)) ∈ evs
    /\ forall shadername,
         FindShaderInShaderText shadername st'
         = Some (def_body <$> find_definition shadername ds, st').
Proof.
  intros Htok Hskip Hlist Hne Hall Hmax text.
  destruct (ScanAndLoadShaderFiles_eq files ls Hlist Hne) as [evs0 ->].
  cbv zeta.
  pose proof (Forall2_length _ _ _ Hall) as Hlen.
  assert (Hsizes : Forall (fun r => Z.of_nat (String.length (snd r)) <= fst r)
                     loaded).
  { clear -Hall. induction Hall as [|? ? ? ? (_ & _ & ?)]; constructor; auto. }
  assert (Hnul : Forall (fun r => nul_free (snd r)) loaded).
  { clear -Hall. induction Hall as [|? ? ? ? (_ & ? & _)]; constructor; auto. }
  pose proof (total_size_nonneg loaded Hsizes) as Hnn.
  assert (Hn : (length loaded <= Z.to_nat MAX_SHADER_FILES)%nat).
  { rewrite <- Hlen, length_take. lia. }
  assert (Hpos : (0 < length loaded)%nat).
  { rewrite <- Hlen, length_take. destruct files; [congruence|].
    simpl. unfold MAX_SHADER_FILES. lia. }
  assert (Hnum : (if Z.of_nat (length files) >? MAX_SHADER_FILES
                  then MAX_SHADER_FILES else Z.of_nat (length files))
                 = Z.of_nat (length loaded)).
  { rewrite <- Hlen, length_take.
    destruct (Z.of_nat (length files) >? MAX_SHADER_FILES) eqn:E; lia. }
  rewrite Hnum.
  destruct (load_files_prefix Htok Hskip
              (take (Z.to_nat MAX_SHADER_FILES) files) loaded [] []
              (Z.to_nat MAX_SHADER_FILES) 0
              (mk_loader (statics ls) (events ls ++ evs0)) Hall)
    as [evs1 Hload]; [rewrite length_take; lia|lia|lia|].
  rewrite app_nil_r in Hload. cbn [app length] in Hload.
  unfold Lbind at 1. rewrite Hload. clear Hload.
  cbn [load_files]. unfold Lret. cbn [statics events].
  set (buffers := (Some ∘ snd <$> loaded)
                  ++ replicate (Z.to_nat MAX_SHADER_FILES
                                - length (take (Z.to_nat MAX_SHADER_FILES) files))
                               None).
  assert (Hjoined : joined buffers (length loaded)
                    = join_reversed (snd <$> loaded)).
  { subst buffers. rewrite list_fmap_compose.
    rewrite <- (length_fmap snd loaded). apply joined_join_reversed. }
  assert (Hsize : Z.of_nat (text_size buffers (length loaded))
                  <= total_size loaded).
  { subst buffers. apply text_size_total. assumption. }
  assert (Hbuf : forall k b, buffers !! k = Some (Some b) -> nul_free b).
  { subst buffers. intros k b Hk.
    apply lookup_app_Some in Hk as [Hk|[_ Hk]].
    - rewrite list_lookup_fmap in Hk.
      destruct (loaded !! k) as [r|] eqn:Er; [|discriminate].
      injection Hk as <-.
      apply (Forall_lookup_1 _ _ _ _ Hnul Er).
    - apply lookup_replicate in Hk as [Hk _]. discriminate. }
  assert (Hblen : (length loaded <= length buffers)%nat).
  { subst buffers. rewrite length_app, length_fmap. lia. }
  rewrite Z.add_0_l, (wrap_int_small (total_size loaded)) by lia.
  destruct (BuildSingleLargeBuffer_text_run buffers (Z.of_nat (length loaded))
              (total_size loaded) (statics ls)) as [Hbuild Hfits];
    [lia|assumption|].
  cbv zeta in Hbuild, Hfits. rewrite Nat2Z.id in Hbuild, Hfits.
  rewrite (proj2 (Z.ltb_lt _ _)) in Hbuild by (apply Hfits; lia).
  rewrite Hjoined in Hbuild.
  unfold Lbind at 1, lift at 1. cbn [statics events]. rewrite Hbuild.
  unfold Lbind at 1, lift at 1, gets. cbn [statics events s_shaderText with_s_shaderText].
  unfold Lbind at 1, FunLogging at 1. cbn [statics events].
  unfold Lbind at 1, lift at 1, modify. cbn [statics events].
  unfold Lbind at 1, FunLogging at 1. cbn [statics events].
  fold text.
  set (st2 := with_s_shaderText (Some text) _).
  assert (Htext : s_shaderText st2 = Some text) by reflexivity.
  destruct (definitions_returns Htok Hskip (S (String.length text)) text)
    as [ds Hdefs]; [lia|].
  destruct (SetShaderTextHashTableSizes_run st2 text ds Htext Hdefs)
    as (table & mem & Hrun & Hidx).
  unfold lift. cbn [statics events]. rewrite Hrun.
  exists ds, (with_index table mem st2). eexists.
  split; [rewrite <- !app_assoc; reflexivity|].
  split; [assumption|]. split; [reflexivity|]. split.
  - apply elem_of_app. right. apply elem_of_app. right.
    apply elem_of_cons. left. reflexivity.
  - intros shadername.
    destruct (FindShaderInShaderText_indexed _ _ _ shadername Hidx)
      as [-> _]. reflexivity.
Qed.

(** X17.  With files that can be read, [ScanAndLoadShaderFiles] returns
    with the text and its index in place.  The text is what [R_Compress]
    leaves of the texts of the files, joined in the reverse of the order
    of the list, a line feed after each; of a list of more than
    [MAX_SHADER_FILES] names, the first [MAX_SHADER_FILES] are read.
    Every file is part of the text, whatever [Shader_DoSimpleCheck] has
    printed about it.  The index is the one over that text: a lookup
    gives the first definition of the name in it.  Of the statics, the
    text and its index change and nothing else: the cache is not touched.
    (The tokenizer moves forward; the sizes of the files
    together, with two bytes more a file, fit an [int].) *)
Theorem ScanAndLoadShaderFiles_builds_index (files : list string)
    (loaded : list (Z * string)) (ls : loader_state) :
  tokenizer_advances -> skipper_advances ->
  FS_ListFiles "scripts" ".shader" = Some files -> files <> [] ->
  Forall2 reads_as (take (Z.to_nat MAX_SHADER_FILES) files) loaded ->
  total_size loaded + 2 * Z.of_nat (length loaded) <= INT_MAX ->
  let text := R_Compress (join_reversed (snd <$> loaded)) in
  exists ds st' evs,
    ScanAndLoadShaderFiles ls
    = Returned tt (mk_loader st' (events ls ++ evs))
    /\ indexed st' text ds
    /\ st' = with_index (shaderTextHashTable st') (hashMem st')
                       (with_s_shaderText (Some text) (statics ls))
    /\ Ev_FunLogging "BuildSingleLargeBuffer.txt"
                     (join_reversed (snd <$> loaded)) ∈ evs
    /\ forall shadername,
         FindShaderInShaderText shadername st'
         = Some (def_body <$> find_definition shadername ds, st').
Proof. apply ScanAndLoadShaderFiles_builds_index_run. Qed.

(** X18.  The loader and the lookup together.  After
    [ScanAndLoadShaderFiles] has returned over files that can be read, in
    a renderer whose cache is well-formed, [R_FindShader] returns for
    every name, lighting mode and mip flag, with an object of the store
    of that stripped name.  A name that the cache does not hold and that
    the joined, compressed text of the files defines gets its object from
    the first definition of it in that text, when [ParseShader] accepts
    the definition. *)
Theorem ScanAndLoadShaderFiles_then_R_FindShader (files : list string)
    (loaded : list (Z * string)) (ls : loader_state) :
  tokenizer_advances -> skipper_advances ->
  FS_ListFiles "scripts" ".shader" = Some files -> files <> [] ->
  Forall2 reads_as (take (Z.to_nat MAX_SHADER_FILES) files) loaded ->
  total_size loaded + 2 * Z.of_nat (length loaded) <= INT_MAX ->
  registry_ok (statics ls) ->
  let text := R_Compress (join_reversed (snd <$> loaded)) in
  exists ds st' evs,
    ScanAndLoadShaderFiles ls
    = Returned tt (mk_loader st' (events ls ++ evs))
    /\ definitions (S (String.length text)) text = Some ds
    /\ forall given mode mip,
         let N := R_StripExtension given MAX_QPATH in
         let mode' := effective_mode (tr_numLightmaps (statics ls)) mode in
         exists a s st1,
           R_FindShader (Some given) mode mip st' = Some (Some a, st1)
           /\ heap st1 !! a = Some s
           /\ Q_stricmp (name s) N = 0
           /\ registry_ok st1 /\ indexed st1 text ds
           /\ (walk_chain (already_loaded N mode')
                          (length (heap (statics ls))) (heap (statics ls))
                          (hashTable (statics ls)
                             !! generateHashValue N FILE_HASH_SIZE)
               = Some None ->
               forall d, find_definition N ds = Some d ->
                         ParseShader (def_body d) = true ->
                         a = length (heap (statics ls))
                         /\ stages s = ParsedStages (def_body d)
                         /\ defaultShader s = false).
Proof.
  intros Htok Hskip Hlist Hne Hall Hmax Hok text.
  destruct (ScanAndLoadShaderFiles_builds_index_run files loaded ls Htok Hskip
              Hlist Hne Hall Hmax)
    as (ds & st' & evs & Hrun & Hidx & Hst & _).
  fold text in Hidx, Hst.
  assert (Hheap : heap st' = heap (statics ls)) by (rewrite Hst; reflexivity).
  assert (Htab : hashTable st' = hashTable (statics ls))
    by (rewrite Hst; reflexivity).
  assert (Hnum : tr_numLightmaps st' = tr_numLightmaps (statics ls))
    by (rewrite Hst; reflexivity).
  assert (Hok' : registry_ok st') by (apply (registry_ok_same (statics ls)); auto).
  exists ds, st', evs. split; [assumption|].
  split; [apply Hidx|].
  intros given mode mip N mode'.
  destruct (R_FindShader_with_index_run given mode mip st' text ds Hok' Hidx)
    as (a & s & st1 & Hfind & Hs & Hname & _ & Hok1 & Hidx1).
  exists a, s, st1. split; [assumption|]. split; [assumption|].
  split; [assumption|]. split; [assumption|]. split; [assumption|].
  intros Hmiss d Hd Hparse.
  destruct (R_FindShader_resolution_run given mode mip st' text ds Hidx)
    as (s' & st1' & Hfind' & Hh & _ & _ & Hdef).
  { rewrite Hheap, Htab, Hnum. exact Hmiss. }
  rewrite Hfind in Hfind'. injection Hfind' as -> <-.
  rewrite Hh, Hheap, list_lookup_middle in Hs by reflexivity.
  injection Hs as <-. fold N in Hdef. rewrite Hd in Hdef.
  destruct Hdef as (Hflag & Hstages & _). rewrite Hparse in Hflag.
  rewrite Hheap. auto.
Qed.

End LoaderFacts.

(** ** The functions at work in the small world *)

Lemma run_state_after {A : Type} (m : M A) (st : state) (a : A) :
  fst <$> m st = Some a -> m st = Some (a, state_after m st).
Proof.
  unfold state_after. destruct (m st) as [[a' st']|]; simpl; congruence.
Qed.

Lemma posix_path_sep_ok : @path_sep_ok posix.
Proof. left. reflexivity. Qed.

Lemma example_heap : heap example_state = [default_shader_object].
Proof. vm_compute. reflexivity. Qed.

Lemma default_first_single (s : shader_t) :
  next s = None -> default_first [s].
Proof.
  intros Hn a b sa sb (s' & c & Hs & Hc & _) _ _ _.
  destruct a as [|a]; simpl in Hs; [|discriminate].
  injection Hs as <-. congruence.
Qed.

Lemma example_default_first : default_first (heap example_state).
Proof. rewrite example_heap. apply default_first_single. reflexivity. Qed.

Lemma example_registry_ok : @registry_ok posix example_state.
Proof.
  assert (Ht : hashTable example_state
               = {[ @generateHashValue posix "<default>" FILE_HASH_SIZE := O ]})
    by (vm_compute; reflexivity).
  assert (Hchain : forall a b, chain_from (heap example_state) a b ->
                               a = O /\ b = O).
  { rewrite example_heap. intros a b Hc.
    induction Hc as [a s Hs|a c b s Hs Hn _ _].
    - destruct a; [auto | discriminate].
    - destruct a as [|a]; [|discriminate]. injection Hs as <-. discriminate. }
  split.
  - rewrite example_heap. intros a s c Hs Hn.
    destruct a as [|a]; [|discriminate]. injection Hs as <-. discriminate.
  - intros b h. rewrite Ht, example_heap.
    intros [_ <-]%lookup_singleton_Some. simpl. lia.
  - exact example_default_first.
  - intros b a s (h & Hh & Hc) Hs. rewrite Ht in Hh.
    apply lookup_singleton_Some in Hh as [<- <-].
    apply Hchain in Hc as [_ ->]. rewrite example_heap in Hs.
    injection Hs as <-. reflexivity.
Qed.

Lemma example_wall_run :
  @R_FindShader posix example_collaborators (Some "wall.tga") 0 true
                example_state
    = Some (Some 1%nat, example_wall_state).
Proof.
  apply (run_state_after
           (@R_FindShader posix example_collaborators (Some "wall.tga") 0 true)
           example_state (Some 1%nat)).
  vm_compute. reflexivity.
Qed.



Lemma example_missing_run :
  @R_FindShader posix example_collaborators (Some "missing.tga") 0 true
                example_state
    = Some (Some 1%nat, example_missing_state).
Proof.
  apply (run_state_after
           (@R_FindShader posix example_collaborators (Some "missing.tga") 0
                          true) example_state (Some 1%nat)).
  vm_compute. reflexivity.
Qed.


Lemma generateHashValue_bucket_witness :
  @path_sep_ok posix
  /\ differ_only_in_case "MODELS/Rocket" "models/rocket"
  /\ @generateHashValue posix "MODELS/Rocket" FILE_HASH_SIZE
     = @generateHashValue posix "models/rocket" FILE_HASH_SIZE.
Proof.
  assert (Hcase : differ_only_in_case "MODELS/Rocket" "models/rocket")
    by (repeat constructor).
  split; [exact posix_path_sep_ok|]. split; [exact Hcase|].
  exact (proj1 (@generateHashValue_bucket posix posix_path_sep_ok)
               "MODELS/Rocket" "models/rocket" FILE_HASH_SIZE Hcase).
Defined.

Lemma R_FindShader_twice_witness :
  @R_FindShader posix example_collaborators (Some "wall.tga") 0 true
                example_state
    = Some (Some 1%nat, example_wall_state)
  /\ exists st2,
      @R_FindShader posix example_collaborators (Some "wall.tga") 0 true
                    example_wall_state
        = Some (Some 1%nat, st2)
      /\ same_registry example_wall_state st2
      /\ same_world example_wall_state st2.
Proof.
  assert (Hrun : @R_FindShader posix example_collaborators
                   (Some "wall.tga") 0 true example_state
                 = Some (Some 1%nat, example_wall_state)).
  { apply (run_state_after
             (@R_FindShader posix example_collaborators (Some "wall.tga") 0
                            true) example_state (Some 1%nat)).
    vm_compute. reflexivity. }
  split; [exact Hrun|].
  exact (@R_FindShader_twice posix example_collaborators (Some "wall.tga") 0
           true example_state example_wall_state (Some 1%nat) Hrun).
Defined.


Lemma RE_RegisterShader_zero_handle_witness :
  @R_FindShader posix example_collaborators (Some "missing.tga") LIGHTMAP_2D
                true example_state
    = Some (Some 1%nat,
            state_after (@R_FindShader posix example_collaborators
                           (Some "missing.tga") LIGHTMAP_2D true)
                        example_state)
  /\ @RE_RegisterShader posix example_collaborators "missing.tga"
                        example_state
     = Some (0, state_after (@R_FindShader posix example_collaborators
                               (Some "missing.tga") LIGHTMAP_2D true)
                            example_state)
  /\ @RE_RegisterShader posix example_collaborators "missing.tga"
       (state_after (@R_FindShader posix example_collaborators
                       (Some "missing.tga") LIGHTMAP_2D true) example_state)
     = Some (0, state_after (@R_FindShader posix example_collaborators
                               (Some "missing.tga") LIGHTMAP_2D true)
                            example_state).
Proof.
  set (st1 := state_after (@R_FindShader posix example_collaborators
                             (Some "missing.tga") LIGHTMAP_2D true)
                          example_state).
  assert (Hrun : @R_FindShader posix example_collaborators
                   (Some "missing.tga") LIGHTMAP_2D true example_state
                 = Some (Some 1%nat, st1)).
  { apply (run_state_after
             (@R_FindShader posix example_collaborators (Some "missing.tga")
                            LIGHTMAP_2D true) example_state (Some 1%nat)).
    vm_compute. reflexivity. }
  assert (Hd : heap st1 !! 1%nat
               = Some (mk_shader "missing" LIGHTMAP_2D 1 true None 0 None
                                 NoStages)).
  { vm_compute. reflexivity. }
  assert (Hlen : Z.of_nat (String.length "missing.tga") < MAX_QPATH)
    by reflexivity.
  pose proof (proj2 (@RE_RegisterShader_zero_handle posix example_collaborators)
                "missing.tga" true example_state st1 1%nat _ Hlen Hrun Hd
                eq_refl) as (Hfirst & _ & _ & Hagain).
  split; [exact Hrun|]. split; [exact Hfirst | exact Hagain].
Defined.

Lemma clamp_lightmapIndex_modes_witness :
  0 <= 3 /\ tr_numLightmaps boot_state <= 3
  /\ clamp_lightmapIndex "wall" 3 boot_state
     = Some (LIGHTMAP_BY_VERTEX, boot_state).
Proof.
  assert (H0 : 0 <= 3) by lia.
  assert (H1 : tr_numLightmaps boot_state <= 3) by (simpl; lia).
  split; [exact H0|]. split; [exact H1|].
  exact (proj1 (@clamp_lightmapIndex_modes posix example_collaborators "wall"
                  3 true boot_state) H0 H1).
Defined.

(** The mode [LIGHTMAP_NONE] is negative and is not the screen-space
    mode, and it passes the tests as it is, with nothing printed: not
    every negative mode other than [LIGHTMAP_2D] becomes per-vertex-color
    with a warning. *)
Lemma clamp_lightmapIndex_keeps_LIGHTMAP_NONE :
  ~ (forall given mode st,
       mode < 0 -> mode <> LIGHTMAP_2D ->
       exists st',
         clamp_lightmapIndex given mode st = Some (LIGHTMAP_BY_VERTEX, st')
         /\ printed st' <> printed st).
Proof.
  intros Hall.
  destruct (Hall "wall"%string LIGHTMAP_NONE boot_state) as (st' & Hrun & _);
    [reflexivity | discriminate |].
  vm_compute in Hrun. discriminate.
Qed.

Lemma R_FindShader_without_index_witness :
  shaderTextHashTable boot_state = ∅
  /\ hashTable boot_state
       !! @generateHashValue posix (R_StripExtension "wall.tga" MAX_QPATH)
            FILE_HASH_SIZE
     = None
  /\ @R_FindShader posix example_collaborators (Some "wall.tga") 0 true
                   boot_state
     = None.
Proof.
  assert (H0 : shaderTextHashTable boot_state = ∅) by reflexivity.
  assert (H1 : hashTable boot_state
                 !! @generateHashValue posix
                      (R_StripExtension "wall.tga" MAX_QPATH) FILE_HASH_SIZE
               = None) by (vm_compute; reflexivity).
  split; [exact H0|]. split; [exact H1|].
  exact (@R_FindShader_without_index posix example_collaborators "wall.tga" 0
           true boot_state H0 H1).
Defined.


Lemma RE_RemapShader_target_not_found_witness :
  @registry_ok posix example_state
  /\ tr_defaultShader example_state = Some O
  /\ tr_shaders example_state !! O = Some O
  /\ is_Some (heap example_state !! O)
  /\ walk_chain (same_name (R_StripExtension "missing.tga" MAX_QPATH))
       (length (heap example_state)) (heap example_state)
       (hashTable example_state
          !! @generateHashValue posix
               (R_StripExtension "missing.tga" MAX_QPATH) FILE_HASH_SIZE)
     = Some None
  /\ @R_FindShader posix example_collaborators (Some "missing.tga") 0 true
                   example_state
     = Some (Some 1%nat, example_missing_state)
  /\ heap example_missing_state !! 1%nat
     = Some (mk_shader "missing" 0 1 true None 0 None NoStages)
  /\ exists st',
      @RE_RemapShader posix example_collaborators "wall" "missing.tga"
        (Some "1.5"%string) example_state = Some (tt, st')
      /\ (PRINT_WARNING, Msg_remap_not_found "missing.tga") ∈ printed st'
      /\ (forall b a s',
            cached st' b a -> heap st' !! a = Some s' ->
            Q_stricmp (name s') (R_StripExtension "wall" MAX_QPATH) = 0 ->
            remappedShader s' = if bool_decide (a = O) then None else Some O)
      /\ (forall t, Some "1.5"%string = Some t ->
            exists sd', heap st' !! O = Some sd'
                        /\ timeOffset sd' = @atof example_collaborators t).
Proof.
  assert (H1 : tr_defaultShader example_state = Some O)
    by (vm_compute; reflexivity).
  assert (H2 : tr_shaders example_state !! O = Some O)
    by (vm_compute; reflexivity).
  assert (H3 : is_Some (heap example_state !! O))
    by (rewrite example_heap; eexists; reflexivity).
  assert (H4 : walk_chain (same_name (R_StripExtension "missing.tga" MAX_QPATH))
                 (length (heap example_state)) (heap example_state)
                 (hashTable example_state
                    !! @generateHashValue posix
                         (R_StripExtension "missing.tga" MAX_QPATH)
                         FILE_HASH_SIZE)
               = Some None) by (vm_compute; reflexivity).
  assert (H5 : heap example_missing_state !! 1%nat
               = Some (mk_shader "missing" 0 1 true None 0 None NoStages))
    by (vm_compute; reflexivity).
  split; [exact example_registry_ok|]. split; [exact H1|].
  split; [exact H2|]. split; [exact H3|]. split; [exact H4|].
  split; [exact example_missing_run|]. split; [exact H5|].
  exact (@RE_RemapShader_target_not_found posix example_collaborators "wall"
           "missing.tga" (Some "1.5"%string) example_state
           example_missing_state O 1%nat _ example_registry_ok H1 H2 H3 H4
           example_missing_run H5 eq_refl).
Defined.

(** Remapping the name of the default shader onto a name that resolves to
    nothing: the target is absent from the cache, [R_FindShader] gives a
    default-flagged object for it, the call returns, and the default
    shader, which is in the cache under the source name, ends with a null
    remap reference, not with a reference to the default shader. *)
Lemma RE_RemapShader_default_shader_cleared :
  ~ (forall shaderName newShaderName offset st st' d,
       tr_defaultShader st = Some d ->
       walk_chain (same_name (R_StripExtension newShaderName MAX_QPATH))
         (length (heap st)) (heap st)
         (hashTable st
            !! @generateHashValue posix
                 (R_StripExtension newShaderName MAX_QPATH) FILE_HASH_SIZE)
       = Some None ->
       (exists x st1 sx,
           @R_FindShader posix example_collaborators (Some newShaderName) 0
                         true st = Some (Some x, st1)
           /\ heap st1 !! x = Some sx /\ defaultShader sx = true) ->
       @RE_RemapShader posix example_collaborators shaderName newShaderName
                       offset st = Some (tt, st') ->
       forall b a s',
         cached st' b a -> heap st' !! a = Some s' ->
         Q_stricmp (name s') (R_StripExtension shaderName MAX_QPATH) = 0 ->
         remappedShader s' = Some d).
Proof.
  intros Hall.
  set (st' := state_after
                (@RE_RemapShader posix example_collaborators "<default>"
                   "missing.tga" None) example_state).
  assert (Hrun : @RE_RemapShader posix example_collaborators "<default>"
                   "missing.tga" None example_state = Some (tt, st')).
  { apply (run_state_after
             (@RE_RemapShader posix example_collaborators "<default>"
                "missing.tga" None) example_state tt).
    vm_compute. reflexivity. }
  assert (Hs : heap st' !! O = Some default_shader_object)
    by (vm_compute; reflexivity).
  assert (Hcontra : remappedShader default_shader_object = Some O).
  { apply (Hall "<default>"%string "missing.tga"%string None example_state
                  st' O)
      with (b := @generateHashValue posix "<default>" FILE_HASH_SIZE) (a := O).
    - vm_compute. reflexivity.
    - vm_compute. reflexivity.
    - exists 1%nat, example_missing_state,
        (mk_shader "missing" 0 1 true None 0 None NoStages).
      split; [exact example_missing_run|].
      split; [vm_compute|]; reflexivity.
    - exact Hrun.
    - exists O. split; [vm_compute; reflexivity|].
      exact (chain_here _ O _ Hs).
    - exact Hs.
    - vm_compute. reflexivity. }
  discriminate.
Qed.

Lemma R_RegisterShaderFromImage_cache_check_witness :
  R_StripExtension "wall" MAX_QPATH = "wall"%string
  /\ effective_mode (tr_numLightmaps example_wall_state) 0 = 0
  /\ @R_RegisterShaderFromImage posix "wall" 0 7%nat true example_wall_state
     = Some (1, example_wall_state)
  /\ @R_FindShader posix example_collaborators (Some "wall") 0 true
                   example_wall_state
     = Some (Some 1%nat, example_wall_state).
Proof.
  assert (Hstrip : R_StripExtension "wall" MAX_QPATH = "wall"%string)
    by reflexivity.
  assert (Hmode : effective_mode (tr_numLightmaps example_wall_state) 0 = 0)
    by (vm_compute; reflexivity).
  assert (Hwalk : walk_chain (already_loaded "wall" 0)
                    (length (heap example_wall_state))
                    (heap example_wall_state)
                    (hashTable example_wall_state
                       !! @generateHashValue posix "wall" FILE_HASH_SIZE)
                  = Some (Some 1%nat)) by (vm_compute; reflexivity).
  assert (Hs : heap example_wall_state !! 1%nat
               = Some (mk_shader "wall" 0 1 false None 0 None
                                 (DefaultShadingCmds "wall.tga" 7%nat)))
    by (vm_compute; reflexivity).
  assert (Hgen : forall st,
             walk_chain (already_loaded "wall" 0) (length (heap st)) (heap st)
               (hashTable st !! @generateHashValue posix "wall" FILE_HASH_SIZE)
             = Some (Some 1%nat) ->
             heap st !! 1%nat
             = Some (mk_shader "wall" 0 1 false None 0 None
                               (DefaultShadingCmds "wall.tga" 7%nat)) ->
             effective_mode (tr_numLightmaps st) 0 = 0 ->
             @R_RegisterShaderFromImage posix "wall" 0 7%nat true st
             = Some (1, st)
             /\ @R_FindShader posix example_collaborators (Some "wall") 0 true
                              st
                = Some (Some 1%nat, st)).
  { intros st Hw Hst Hm.
    pose proof (proj2 (@R_RegisterShaderFromImage_cache_check posix
                         example_collaborators "wall" 0 7%nat true st))
      as Hcheck.
    rewrite Hw in Hcheck. destruct Hcheck as [(s & Hs' & Hreg) Hfind].
    rewrite Hst in Hs'. injection Hs' as <-.
    split; [exact Hreg | exact (Hfind Hstrip Hm)]. }
  split; [exact Hstrip|]. split; [exact Hmode|].
  exact (Hgen example_wall_state Hwalk Hs Hmode).
Defined.

(** The cache of the example holds the shader "wall" for lighting mode 0.
    Asked for "wall.tga" in that mode, the cache walk of [R_FindShader]
    strips the name and finds that shader; [R_RegisterShaderFromImage]
    does not strip it, finds nothing, and makes a second shader, named
    "wall.tga", with the next index. *)
Lemma R_RegisterShaderFromImage_does_not_strip :
  ~ (forall given mode image mip st a s,
       walk_chain (already_loaded (R_StripExtension given MAX_QPATH) mode)
         (length (heap st)) (heap st)
         (hashTable st
            !! @generateHashValue posix (R_StripExtension given MAX_QPATH)
                 FILE_HASH_SIZE)
       = Some (Some a) ->
       heap st !! a = Some s ->
       @R_RegisterShaderFromImage posix given mode image mip st
       = Some (index s, st)).
Proof.
  intros Hall.
  assert (Hrun : fst <$> @R_RegisterShaderFromImage posix "wall.tga" 0 7%nat
                           true example_wall_state = Some 2)
    by (vm_compute; reflexivity).
  rewrite (Hall "wall.tga"%string 0 7%nat true example_wall_state 1%nat
             (mk_shader "wall" 0 1 false None 0 None
                        (DefaultShadingCmds "wall.tga" 7%nat))) in Hrun.
  - discriminate.
  - vm_compute. reflexivity.
  - vm_compute. reflexivity.
Qed.

Lemma skip_space_length (p : string) :
  (String.length (skip_space p) <= String.length p)%nat.
Proof.
  induction p as [|c p IH]; simpl; [lia|].
  destruct (is_space c); simpl; lia.
Qed.

Lemma read_word_length (p : string) :
  forall w q, read_word p = (w, q) ->
              (String.length w + String.length q = String.length p)%nat.
Proof.
  induction p as [|c p IH]; intros w q; simpl.
  - intros [= <- <-]. reflexivity.
  - destruct (is_space c).
    + intros [= <- <-]. reflexivity.
    + destruct (read_word p) as [w' q'] eqn:E. intros [= <- <-].
      simpl. specialize (IH w' q' eq_refl). lia.
Qed.

Lemma example_tokenizer_advances : @tokenizer_advances example_collaborators.
Proof.
  intros p b token p' Hparse. simpl in Hparse. unfold word_ParseExt in Hparse.
  apply read_word_length in Hparse. pose proof (skip_space_length p).
  split; [lia|]. intros Hne. destruct token; [congruence|]. simpl in *. lia.
Qed.

Lemma word_skip_length (fuel : nat) :
  forall p depth,
    (String.length (snd (word_skip fuel p depth)) <= String.length p)%nat.
Proof.
  induction fuel as [|fuel IH]; intros p depth; simpl; [lia|].
  destruct (word_ParseExt p true) as [token p1] eqn:E.
  destruct (example_tokenizer_advances p true token p1 E) as [Hle _].
  destruct (_ || _); simpl; [lia|].
  etransitivity; [apply IH | exact Hle].
Qed.

Lemma example_skipper_advances : @skipper_advances example_collaborators.
Proof.
  intros p depth ok p' Hskip. simpl in Hskip.
  unfold word_SkipBracedSection in Hskip.
  pose proof (word_skip_length (S (String.length p)) p depth) as Hle.
  rewrite Hskip in Hle. exact Hle.
Qed.

Lemma SetShaderTextHashTableSizes_index_witness :
  @tokenizer_advances example_collaborators
  /\ @skipper_advances example_collaborators
  /\ s_shaderText example_text_state = Some example_text
  /\ exists ds st',
      @definitions example_collaborators (S (String.length example_text))
                   example_text = Some ds
      /\ @SetShaderTextHashTableSizes posix example_collaborators
           example_text_state = Some (tt, st')
      /\ length (hashMem st') = (length ds + buckets)%nat.
Proof.
  assert (Htext : s_shaderText example_text_state = Some example_text)
    by reflexivity.
  split; [exact example_tokenizer_advances|].
  split; [exact example_skipper_advances|]. split; [exact Htext|].
  destruct (@SetShaderTextHashTableSizes_index posix example_collaborators
              example_text_state example_text example_tokenizer_advances
              example_skipper_advances Htext)
    as (ds & st' & Hdefs & Hrun & Hlen & _).
  exists ds, st'. split; [exact Hdefs|]. split; [exact Hrun | exact Hlen].
Defined.

(** The scenario of the design document: no definition of "wall" in the
    text, an image of that name, lightmap 0 asked for; the shader made is
    not default-flagged, has lighting mode 0 and the next free index. *)
Example wall_from_image :
  heap example_wall_state !! 1%nat
  = Some (mk_shader "wall" 0 1 false None 0 None
                    (DefaultShadingCmds "wall.tga" 7%nat))
  /\ tr_shaders example_wall_state = [O; 1%nat].
Proof. split; vm_compute; reflexivity. Qed.

(** A definition of the text is found whatever the case of the name, and
    the cursor returned is the one behind its name. *)
Example glass_definition :
  fst <$> @FindShaderInShaderText posix example_collaborators
            "Textures/GLASS" example_state
  = Some (Some " { map a } models/metal { { x } } bad/one x"%string).
Proof. vm_compute. reflexivity. Qed.

(** ** The further properties at work in the small world *)

Lemma example_indexed :
  @indexed posix example_collaborators example_state example_text
           example_definitions.
Proof.
  assert (Hdefs : @definitions example_collaborators
                    (S (String.length example_text)) example_text
                  = Some example_definitions) by (vm_compute; reflexivity).
  destruct (@SetShaderTextHashTableSizes_run posix example_collaborators
              example_text_state example_text example_definitions
              eq_refl Hdefs) as (table & mem & Hrun & Hidx).
  unfold example_state. rewrite Hrun. exact Hidx.
Qed.

Lemma boot_registry_ok : @registry_ok posix boot_state.
Proof.
  apply (@registry_ok_same posix example_state).
  - rewrite example_heap. reflexivity.
  - vm_compute. reflexivity.
  - exact example_registry_ok.
Qed.

Lemma example_wall_registry_ok : @registry_ok posix example_wall_state.
Proof.
  eapply (@registry_ok_R_FindShader posix example_collaborators);
    [exact example_registry_ok | exact example_wall_run].
Qed.

Lemma R_FindShader_spelling_witness :
  Q_stricmp (R_StripExtension "wall.tga" MAX_QPATH)
            (R_StripExtension "WALL.jpg" MAX_QPATH) = 0
  /\ @R_FindShader posix example_collaborators (Some "wall.tga") 0 true
       example_state = Some (Some 1%nat, example_wall_state)
  /\ exists st2,
      @R_FindShader posix example_collaborators (Some "WALL.jpg") 0 false
        example_wall_state = Some (Some 1%nat, st2)
      /\ same_registry example_wall_state st2.
Proof.
  assert (Hname : Q_stricmp (R_StripExtension "wall.tga" MAX_QPATH)
                            (R_StripExtension "WALL.jpg" MAX_QPATH) = 0)
    by (vm_compute; reflexivity).
  split; [exact Hname|]. split; [exact example_wall_run|].
  destruct (@R_FindShader_spelling posix example_collaborators "wall.tga"
              "WALL.jpg" 0 true false example_state example_wall_state
              (Some 1%nat) Hname example_wall_run) as (st2 & Hrun & Hreg & _).
  exists st2. split; [exact Hrun | exact Hreg].
Defined.

Lemma R_FindShader_frame_witness :
  @R_FindShader posix example_collaborators (Some "wall.tga") 0 true
    example_state = Some (Some 1%nat, example_wall_state)
  /\ (same_registry example_state example_wall_state
      \/ exists s,
           heap example_wall_state = heap example_state ++ [s]
           /\ tr_shaders example_wall_state
              = tr_shaders example_state ++ [length (heap example_state)]
           /\ name s = R_StripExtension "wall.tga" MAX_QPATH
           /\ index s = Z.of_nat (length (tr_shaders example_state))).
Proof.
  split; [exact example_wall_run|].
  destruct (@R_FindShader_frame posix example_collaborators "wall.tga" 0 true
              example_state example_wall_state (Some 1%nat) example_wall_run)
    as [[Hreg _]|(s & _ & Hh & Ht & _ & Hn & _ & Hi & _)].
  - left. exact Hreg.
  - right. exists s. split; [exact Hh|]. split; [exact Ht|].
    split; [exact Hn | exact Hi].
Defined.

Lemma R_FindShader_resolution_witness :
  @indexed posix example_collaborators example_state example_text
           example_definitions
  /\ walk_chain
       (already_loaded (R_StripExtension "Textures/Glass" MAX_QPATH)
          (effective_mode (tr_numLightmaps example_state) 0))
       (length (heap example_state)) (heap example_state)
       (hashTable example_state
          !! @generateHashValue posix
               (R_StripExtension "Textures/Glass" MAX_QPATH) FILE_HASH_SIZE)
     = Some None
  /\ exists s st1,
      @R_FindShader posix example_collaborators (Some "Textures/Glass") 0
        true example_state
      = Some (Some (length (heap example_state)), st1)
      /\ heap st1 = heap example_state ++ [s]
      /\ name s = R_StripExtension "Textures/Glass" MAX_QPATH.
Proof.
  assert (Hmiss : walk_chain
            (already_loaded (R_StripExtension "Textures/Glass" MAX_QPATH)
               (effective_mode (tr_numLightmaps example_state) 0))
            (length (heap example_state)) (heap example_state)
            (hashTable example_state
               !! @generateHashValue posix
                    (R_StripExtension "Textures/Glass" MAX_QPATH)
                    FILE_HASH_SIZE)
          = Some None) by (vm_compute; reflexivity).
  split; [exact example_indexed|]. split; [exact Hmiss|].
  destruct (@R_FindShader_resolution posix example_collaborators
              "Textures/Glass" 0 true example_state example_text
              example_definitions example_indexed Hmiss)
    as (s & st1 & Hrun & Hheap & Hname & _).
  exists s, st1. split; [exact Hrun|]. split; [exact Hheap | exact Hname].
Defined.

Lemma R_FindShader_with_index_witness :
  @registry_ok posix example_state
  /\ @indexed posix example_collaborators example_state example_text
              example_definitions
  /\ exists a s st1,
      @R_FindShader posix example_collaborators (Some "models/metal.md3")
        LIGHTMAP_NONE false example_state = Some (Some a, st1)
      /\ heap st1 !! a = Some s /\ @registry_ok posix st1.
Proof.
  split; [exact example_registry_ok|]. split; [exact example_indexed|].
  destruct (@R_FindShader_with_index posix example_collaborators
              "models/metal.md3" LIGHTMAP_NONE false example_state
              example_text example_definitions example_registry_ok
              example_indexed)
    as (a & s & st1 & Hrun & Hs & _ & _ & Hok & _).
  exists a, s, st1. split; [exact Hrun|]. split; [exact Hs | exact Hok].
Defined.

Lemma example_calls_run :
  @run_calls posix example_collaborators example_calls example_state
  = Some (tt, example_calls_state).
Proof.
  apply (run_state_after
           (@run_calls posix example_collaborators example_calls)
           example_state tt).
  vm_compute. reflexivity.
Qed.

Lemma example_calls_fit : Forall name_fits example_calls.
Proof. repeat constructor. Qed.

Lemma run_calls_keep_registry_ok_witness :
  Forall name_fits example_calls
  /\ @registry_ok posix example_state
  /\ @run_calls posix example_collaborators example_calls example_state
     = Some (tt, example_calls_state)
  /\ @registry_ok posix example_calls_state
  /\ objects_kept (heap example_state) (heap example_calls_state).
Proof.
  split; [exact example_calls_fit|]. split; [exact example_registry_ok|].
  split; [exact example_calls_run|].
  destruct (@run_calls_keep_registry_ok posix example_collaborators
              example_calls example_state example_calls_state
              example_calls_fit example_registry_ok example_calls_run)
    as (Hok & _ & Hkept & _).
  split; [exact Hok | exact Hkept].
Defined.

Lemma example_registered_run :
  @RE_RegisterShader posix example_collaborators "wall.tga" example_state
  = Some (1, example_registered_state).
Proof.
  apply (run_state_after
           (@RE_RegisterShader posix example_collaborators "wall.tga")
           example_state 1).
  vm_compute. reflexivity.
Qed.

Lemma RE_RegisterShaderNoMip_same_handle_witness :
  @RE_RegisterShader posix example_collaborators "wall.tga" example_state
  = Some (1, example_registered_state)
  /\ exists st2,
      @RE_RegisterShaderNoMip posix example_collaborators "wall.tga"
        example_registered_state = Some (1, st2)
      /\ same_registry example_registered_state st2.
Proof.
  split; [exact example_registered_run|].
  destruct (proj1 (@RE_RegisterShaderNoMip_same_handle posix
                     example_collaborators "wall.tga" example_state
                     example_registered_state 1) example_registered_run)
    as (st2 & Hrun & Hreg & _).
  exists st2. split; [exact Hrun | exact Hreg].
Defined.

Lemma example_image_run :
  @R_RegisterShaderFromImage posix "wall" 0 7%nat true example_state
  = Some (1, example_image_state).
Proof.
  apply (run_state_after
           (@R_RegisterShaderFromImage posix "wall" 0 7%nat true)
           example_state 1).
  vm_compute. reflexivity.
Qed.

Lemma R_RegisterShaderFromImage_again_witness :
  Z.of_nat (String.length "wall") < MAX_QPATH
  /\ @R_RegisterShaderFromImage posix "wall" 0 7%nat true example_state
     = Some (1, example_image_state)
  /\ @R_RegisterShaderFromImage posix "wall" 0 9%nat false
       example_image_state
     = Some (1, example_image_state).
Proof.
  assert (Hlen : Z.of_nat (String.length "wall") < MAX_QPATH)
    by (vm_compute; reflexivity).
  split; [exact Hlen|]. split; [exact example_image_run|].
  exact (@R_RegisterShaderFromImage_again posix example_collaborators "wall"
           0 7%nat 9%nat true false example_state example_image_state 1
           Hlen example_image_run).
Defined.

Lemma example_wall_indexed :
  @indexed posix example_collaborators example_wall_state example_text
           example_definitions.
Proof.
  apply (@indexed_same posix example_collaborators example_state);
    [|exact example_indexed].
  apply (@registry_ok_R_FindShader posix example_collaborators
           (Some "wall.tga"%string) 0 true example_state example_wall_state
           (Some 1%nat) example_registry_ok example_wall_run).
Qed.

Lemma R_ClearShaderHashTable_forgets_witness :
  @indexed posix example_collaborators example_wall_state example_text
           example_definitions
  /\ exists st0 st1,
      R_ClearShaderHashTable example_wall_state = Some (tt, st0)
      /\ heap st0 = heap example_wall_state
      /\ @R_FindShader posix example_collaborators (Some "wall.tga") 0 true
           st0
         = Some (Some (length (heap example_wall_state)), st1).
Proof.
  split; [exact example_wall_indexed|].
  destruct (@R_ClearShaderHashTable_forgets posix example_collaborators
              "wall.tga" 0 true example_wall_state example_text
              example_definitions example_wall_indexed)
    as (st0 & st1 & Hclear & Hheap & _ & _ & _ & Hrun & _).
  exists st0, st1. split; [exact Hclear|]. split; [exact Hheap | exact Hrun].
Defined.

Lemma R_UpdateShaderHashTable_enters_witness :
  heap (with_hashTable ∅ boot_state) !! O = Some default_shader_object
  /\ exists st',
      @R_UpdateShaderHashTable posix (Some O) (with_hashTable ∅ boot_state)
      = Some (tt, st')
      /\ @find_in_chain
           (already_loaded (name default_shader_object)
                           (lightmapIndex default_shader_object))
           (@generateHashValue posix (name default_shader_object)
                               FILE_HASH_SIZE) st'
         = Some (Some O, st').
Proof.
  assert (Hs : heap (with_hashTable ∅ boot_state) !! O
               = Some default_shader_object) by reflexivity.
  split; [exact Hs|].
  destruct (@R_UpdateShaderHashTable_enters posix O default_shader_object
              (with_hashTable ∅ boot_state) Hs) as (Hrun & Hfind & _).
  eexists. split; [exact Hrun | exact Hfind].
Defined.

Lemma R_UpdateShaderHashTable_twice_witness :
  heap (with_hashTable ∅ boot_state) !! O = Some default_shader_object
  /\ exists st2,
      (@R_UpdateShaderHashTable posix (Some O)
       >>> @R_UpdateShaderHashTable posix (Some O))
        (with_hashTable ∅ boot_state) = Some (tt, st2)
      /\ heap st2 !! O = Some (set_next (Some O) default_shader_object).
Proof.
  assert (Hs : heap (with_hashTable ∅ boot_state) !! O
               = Some default_shader_object) by reflexivity.
  split; [exact Hs|].
  destruct (@R_UpdateShaderHashTable_twice posix O default_shader_object
              (with_hashTable ∅ boot_state) Hs) as (st2 & Hrun & Hloop & _).
  exists st2. split; [exact Hrun | exact Hloop].
Defined.

Lemma RE_RemapShader_cached_target_witness :
  @registry_ok posix example_wall_state
  /\ walk_chain (same_name (R_StripExtension "wall.tga" MAX_QPATH))
       (length (heap example_wall_state)) (heap example_wall_state)
       (hashTable example_wall_state
          !! @generateHashValue posix (R_StripExtension "wall.tga" MAX_QPATH)
               FILE_HASH_SIZE)
     = Some (Some 1%nat)
  /\ tr_defaultShader example_wall_state <> Some 1%nat
  /\ exists st',
      @RE_RemapShader posix example_collaborators "textures/glass" "wall.tga"
        None example_wall_state = Some (tt, st')
      /\ length (heap st') = length (heap example_wall_state)
      /\ printed st' = printed example_wall_state.
Proof.
  assert (Hwalk : walk_chain
            (same_name (R_StripExtension "wall.tga" MAX_QPATH))
            (length (heap example_wall_state)) (heap example_wall_state)
            (hashTable example_wall_state
               !! @generateHashValue posix
                    (R_StripExtension "wall.tga" MAX_QPATH) FILE_HASH_SIZE)
          = Some (Some 1%nat)) by (vm_compute; reflexivity).
  assert (Hne : tr_defaultShader example_wall_state <> Some 1%nat)
    by (vm_compute; discriminate).
  split; [exact example_wall_registry_ok|]. split; [exact Hwalk|].
  split; [exact Hne|].
  destruct (@RE_RemapShader_cached_target posix example_collaborators
              "textures/glass" "wall.tga" None example_wall_state 1%nat
              example_wall_registry_ok Hwalk Hne)
    as (st' & Hrun & Hlen & _ & _ & Hprinted & _).
  exists st'. split; [exact Hrun|]. split; [exact Hlen | exact Hprinted].
Defined.

Lemma SetShaderTextHashTableSizes_no_definitions_witness :
  s_shaderText example_blank_state = Some "   "%string
  /\ fst (@R_ParseExt example_collaborators "   " true) = EmptyString
  /\ exists st',
      @SetShaderTextHashTableSizes posix example_collaborators
        example_blank_state = Some (tt, st')
      /\ forall shadername,
           @FindShaderInShaderText posix example_collaborators shadername st'
           = Some (None, st').
Proof.
  assert (Htext : s_shaderText example_blank_state = Some "   "%string)
    by reflexivity.
  assert (Htok : fst (@R_ParseExt example_collaborators "   " true)
                 = EmptyString) by reflexivity.
  split; [exact Htext|]. split; [exact Htok|].
  destruct (@SetShaderTextHashTableSizes_no_definitions posix
              example_collaborators example_blank_state "   " Htext Htok)
    as (st' & Hrun & _ & _ & Hfind).
  exists st'. split; [exact Hrun | exact Hfind].
Defined.

Lemma BuildSingleLargeBuffer_text_witness :
  0 <= 3 <= Z.of_nat (length [Some "ab"%string; None; Some "c"%string])
  /\ BuildSingleLargeBuffer [Some "ab"%string; None; Some "c"%string] 3 3
       boot_state
     = Some (tt,
             with_s_shaderText
               (Some ("c" +:+ newline +:+ "ab" +:+ newline)%string)
               boot_state).
Proof.
  assert (Hn : 0 <= 3 <= Z.of_nat (length [Some "ab"%string; None;
                                            Some "c"%string]))
    by (simpl; lia).
  assert (Hnul : forall k b,
             [Some "ab"%string; None; Some "c"%string] !! k = Some (Some b) ->
             nul_free b).
  { intros [|[|[|k]]] b; simpl; intros [= <-]; reflexivity. }
  split; [exact Hn|].
  exact (proj1 (BuildSingleLargeBuffer_text
                  [Some "ab"%string; None; Some "c"%string] 3 3 boot_state
                  Hn Hnul)).
Defined.


Lemma ScanAndLoadShaderFiles_no_files_witness :
  (@FS_ListFiles (example_imports None) "scripts" ".shader" = None
   \/ @FS_ListFiles (example_imports None) "scripts" ".shader" = Some [])
  /\ @ScanAndLoadShaderFiles posix example_collaborators (example_imports None)
       (mk_loader boot_state [])
     = Returned tt
         (mk_loader boot_state
            ([] ++ [Ev_Printf PRINT_DEVELOPER Msg_ScanAndLoadShaderFiles;
                    Ev_Printf PRINT_WARNING Msg_no_shader_files_found])).
Proof.
  assert (Hlist : @FS_ListFiles (example_imports None) "scripts" ".shader"
                  = None
                  \/ @FS_ListFiles (example_imports None) "scripts" ".shader"
                     = Some []) by (left; reflexivity).
  split; [exact Hlist|].
  exact (proj1 (@ScanAndLoadShaderFiles_no_files posix example_collaborators
                  (example_imports None) (mk_loader boot_state []) Hlist)).
Defined.

Lemma ScanAndLoadShaderFiles_unreadable_witness :
  @FS_ListFiles
     (example_imports
        (Some ["glass.shader"; "missing.shader"; "metal.shader"]%string))
     "scripts" ".shader"
  = Some ["glass.shader"; "missing.shader"; "metal.shader"]%string
  /\ snd (@FS_ReadFile
            (example_imports
               (Some ["glass.shader"; "missing.shader";
                      "metal.shader"]%string))
            (scripts_filename "missing.shader")) = None
  /\ exists evs,
      @ScanAndLoadShaderFiles posix example_collaborators
        (example_imports
           (Some ["glass.shader"; "missing.shader"; "metal.shader"]%string))
        (mk_loader boot_state [])
      = Dropped (Err_could_not_load (scripts_filename "missing.shader"))
                (mk_loader boot_state ([] ++ evs)).
Proof.
  set (files := ["glass.shader"; "missing.shader"; "metal.shader"]%string).
  assert (Hlist : @FS_ListFiles (example_imports (Some files)) "scripts"
                    ".shader" = Some files) by reflexivity.
  assert (Hf : snd (@FS_ReadFile (example_imports (Some files))
                      (scripts_filename "missing.shader")) = None)
    by reflexivity.
  assert (Htake : take (Z.to_nat MAX_SHADER_FILES) files
                  = ["glass.shader"%string]
                    ++ "missing.shader"%string :: ["metal.shader"%string])
    by (vm_compute; reflexivity).
  assert (Hpre : Forall (fun g => exists size b,
                     @FS_ReadFile (example_imports (Some files))
                        (scripts_filename g) = (size, Some b))
                   ["glass.shader"%string]).
  { constructor; [|constructor]. eexists _, _. reflexivity. }
  split; [exact Hlist|]. split; [exact Hf|].
  exact (@ScanAndLoadShaderFiles_unreadable posix example_collaborators
           (example_imports (Some files)) files ["glass.shader"%string]
           ["metal.shader"%string] "missing.shader"
           (mk_loader boot_state []) example_tokenizer_advances
           example_skipper_advances Hlist Htake Hpre Hf).
Defined.

Lemma example_listing_reads :
  Forall2 (@reads_as (example_imports (Some example_listing)))
          (take (Z.to_nat MAX_SHADER_FILES) example_listing) example_loaded.
Proof.
  assert (Htake : take (Z.to_nat MAX_SHADER_FILES) example_listing
                  = example_listing) by (vm_compute; reflexivity).
  rewrite Htake.
  repeat (constructor;
          [split; [reflexivity|split; [reflexivity|vm_compute; discriminate]]
          |]).
  constructor.
Qed.

Lemma example_listing_fits :
  total_size example_loaded + 2 * Z.of_nat (length example_loaded) <= INT_MAX.
Proof. vm_compute. discriminate. Qed.

Lemma example_listing_not_empty : example_listing <> [].
Proof. discriminate. Qed.

Lemma ScanAndLoadShaderFiles_builds_index_witness :
  @tokenizer_advances example_collaborators
  /\ @skipper_advances example_collaborators
  /\ @FS_ListFiles (example_imports (Some example_listing)) "scripts"
       ".shader" = Some example_listing
  /\ example_listing <> []
  /\ Forall2 (@reads_as (example_imports (Some example_listing)))
             (take (Z.to_nat MAX_SHADER_FILES) example_listing)
             example_loaded
  /\ total_size example_loaded + 2 * Z.of_nat (length example_loaded)
     <= INT_MAX
  /\ exists ds st' evs,
      @ScanAndLoadShaderFiles posix example_collaborators
        (example_imports (Some example_listing)) (mk_loader boot_state [])
      = Returned tt (mk_loader st' ([] ++ evs))
      /\ @indexed posix example_collaborators st'
           (join_reversed (snd <$> example_loaded)) ds.
Proof.
  split; [exact example_tokenizer_advances|].
  split; [exact example_skipper_advances|].
  split; [reflexivity|]. split; [exact example_listing_not_empty|].
  split; [exact example_listing_reads|].
  split; [exact example_listing_fits|].
  destruct (@ScanAndLoadShaderFiles_builds_index posix example_collaborators
              (example_imports (Some example_listing)) example_listing
              example_loaded (mk_loader boot_state [])
              example_tokenizer_advances example_skipper_advances eq_refl
              example_listing_not_empty example_listing_reads
              example_listing_fits)
    as (ds & st' & evs & Hrun & Hidx & _).
  exists ds, st', evs. split; [exact Hrun | exact Hidx].
Defined.

Lemma ScanAndLoadShaderFiles_then_R_FindShader_witness :
  @tokenizer_advances example_collaborators
  /\ @skipper_advances example_collaborators
  /\ @FS_ListFiles (example_imports (Some example_listing)) "scripts"
       ".shader" = Some example_listing
  /\ example_listing <> []
  /\ Forall2 (@reads_as (example_imports (Some example_listing)))
             (take (Z.to_nat MAX_SHADER_FILES) example_listing)
             example_loaded
  /\ total_size example_loaded + 2 * Z.of_nat (length example_loaded)
     <= INT_MAX
  /\ @registry_ok posix boot_state
  /\ exists st' evs a s st1,
      @ScanAndLoadShaderFiles posix example_collaborators
        (example_imports (Some example_listing)) (mk_loader boot_state [])
      = Returned tt (mk_loader st' ([] ++ evs))
      /\ @R_FindShader posix example_collaborators (Some "models/metal") 0
           true st' = Some (Some a, st1)
      /\ heap st1 !! a = Some s
      /\ Q_stricmp (name s) (R_StripExtension "models/metal" MAX_QPATH) = 0.
Proof.
  split; [exact example_tokenizer_advances|].
  split; [exact example_skipper_advances|].
  split; [reflexivity|]. split; [exact example_listing_not_empty|].
  split; [exact example_listing_reads|].
  split; [exact example_listing_fits|].
  split; [exact boot_registry_ok|].
  destruct (@ScanAndLoadShaderFiles_then_R_FindShader posix
              example_collaborators (example_imports (Some example_listing))
              example_listing example_loaded (mk_loader boot_state [])
              example_tokenizer_advances example_skipper_advances eq_refl
              example_listing_not_empty example_listing_reads
              example_listing_fits boot_registry_ok)
    as (ds & st' & evs & Hrun & _ & Hfind).
  destruct (Hfind "models/metal"%string 0 true)
    as (a & s & st1 & Hf & Hs & Hname & _).
  exists st', evs, a, s, st1. split; [exact Hrun|]. split; [exact Hf|].
  split; [exact Hs | exact Hname].
Defined.

(** The two files of the small world, joined and indexed: the file read
    last comes first in the text, and a lookup finds a definition of
    either file. *)
Example example_files_joined :
  join_reversed (snd <$> example_loaded)
  = ("models/metal { { x } }" +:+ newline
     +:+ "textures/glass { map a }" +:+ newline)%string
  /\ match @ScanAndLoadShaderFiles posix example_collaborators
             (example_imports (Some example_listing))
             (mk_loader boot_state []) with
     | Returned _ ls =>
         fst <$> @FindShaderInShaderText posix example_collaborators
                   "TEXTURES/glass" (statics ls)
         = Some (Some (" { map a }" +:+ newline)%string)
     | _ => False
     end.
Proof. split; vm_compute; reflexivity. Qed.

(** The check of the file "bad.shader" of the small world: the token
    found where the brace should be is printed with its line. *)
Example example_bad_file :
  @check_loop example_collaborators (example_imports None) 10
     "scripts/bad.shader" "bad/one x" "bad/one x"
  = Some [Ev_Printf PRINT_WARNING
            (Msg_missing_opening_brace "scripts/bad.shader" "bad/one" 1);
          Ev_Printf PRINT_WARNING (Msg_found "x" 1);
          Ev_Printf PRINT_WARNING Msg_full_stop].
Proof. vm_compute. reflexivity. Qed.

Lemma R_RegisterShaderFromImage_then_R_FindShader_witness :
  Z.of_nat (String.length "wall") < MAX_QPATH
  /\ Q_stricmp (R_StripExtension "WALL.tga" MAX_QPATH) "wall" = 0
  /\ effective_mode (tr_numLightmaps example_state) 0 = 0
  /\ @R_RegisterShaderFromImage posix "wall" 0 7%nat true example_state
     = Some (1, example_image_state)
  /\ exists a s st2,
      @R_FindShader posix example_collaborators (Some "WALL.tga") 0 false
        example_image_state = Some (Some a, st2)
      /\ heap example_image_state !! a = Some s /\ index s = 1.
Proof.
  assert (Hlen : Z.of_nat (String.length "wall") < MAX_QPATH)
    by (vm_compute; reflexivity).
  assert (Hname : Q_stricmp (R_StripExtension "WALL.tga" MAX_QPATH) "wall"
                  = 0) by (vm_compute; reflexivity).
  assert (Hmode : effective_mode (tr_numLightmaps example_state) 0 = 0)
    by (vm_compute; reflexivity).
  split; [exact Hlen|]. split; [exact Hname|]. split; [exact Hmode|].
  split; [exact example_image_run|].
  destruct (@R_RegisterShaderFromImage_then_R_FindShader posix
              example_collaborators "wall" "WALL.tga" 0 7%nat true false
              example_state example_image_state 1 Hlen Hname Hmode
              example_image_run)
    as (a & s & st2 & Hrun & Hs & Hh & _).
  exists a, s, st2. split; [exact Hrun|]. split; [exact Hs | exact Hh].
Defined.

Lemma example_hidden_run :
  @R_FindShader posix example_collaborators (Some "wall.jpg") LIGHTMAP_2D
    true example_wall_state
  = Some (Some 2%nat, example_hidden_state).
Proof.
  apply (run_state_after
           (@R_FindShader posix example_collaborators (Some "wall.jpg")
                          LIGHTMAP_2D true)
           example_wall_state (Some 2%nat)).
  vm_compute. reflexivity.
Qed.

Lemma R_FindShader_default_hides_witness :
  @registry_ok posix example_wall_state
  /\ Q_stricmp (R_StripExtension "wall.tga" MAX_QPATH)
               (R_StripExtension "wall.jpg" MAX_QPATH) = 0
  /\ heap example_wall_state !! 1%nat
     = Some (mk_shader "wall" 0 1 false None 0 None
                       (DefaultShadingCmds "wall.tga" 7%nat))
  /\ @R_FindShader posix example_collaborators (Some "wall.jpg") LIGHTMAP_2D
       true example_wall_state
     = Some (Some 2%nat, example_hidden_state)
  /\ heap example_hidden_state !! 2%nat
     = Some (mk_shader "wall" LIGHTMAP_2D 2 true None 0 (Some 1%nat)
                       NoStages)
  /\ exists st2,
      @R_FindShader posix example_collaborators (Some "wall.tga") 0 true
        example_hidden_state = Some (Some 2%nat, st2)
      /\ heap st2 !! 1%nat
         = Some (mk_shader "wall" 0 1 false None 0 None
                           (DefaultShadingCmds "wall.tga" 7%nat)).
Proof.
  assert (Hname : Q_stricmp (R_StripExtension "wall.tga" MAX_QPATH)
                            (R_StripExtension "wall.jpg" MAX_QPATH) = 0)
    by (vm_compute; reflexivity).
  assert (Hold : walk_chain
            (already_loaded (R_StripExtension "wall.tga" MAX_QPATH)
               (effective_mode (tr_numLightmaps example_wall_state) 0))
            (length (heap example_wall_state)) (heap example_wall_state)
            (hashTable example_wall_state
               !! @generateHashValue posix
                    (R_StripExtension "wall.tga" MAX_QPATH) FILE_HASH_SIZE)
          = Some (Some 1%nat)) by (vm_compute; reflexivity).
  assert (Hs0 : heap example_wall_state !! 1%nat
                = Some (mk_shader "wall" 0 1 false None 0 None
                                  (DefaultShadingCmds "wall.tga" 7%nat)))
    by (vm_compute; reflexivity).
  assert (Hsd : heap example_hidden_state !! 2%nat
                = Some (mk_shader "wall" LIGHTMAP_2D 2 true None 0
                                  (Some 1%nat) NoStages))
    by (vm_compute; reflexivity).
  split; [exact example_wall_registry_ok|]. split; [exact Hname|].
  split; [exact Hs0|]. split; [exact example_hidden_run|].
  split; [exact Hsd|].
  destruct (@R_FindShader_default_hides posix example_collaborators
              "wall.tga" "wall.jpg" 0 LIGHTMAP_2D true true
              example_wall_state example_hidden_state 1%nat 2%nat _ _
              example_wall_registry_ok Hname Hold Hs0 eq_refl
              example_hidden_run Hsd eq_refl)
    as (st2 & Hrun & _ & Hkept & _).
  exists st2. split; [exact Hrun | exact Hkept].
Defined.

Lemma RE_RemapShader_loads_target_witness :
  @registry_ok posix example_state
  /\ tr_defaultShader example_state = Some O
  /\ is_Some (heap example_state !! O)
  /\ walk_chain (same_name (R_StripExtension "wall.tga" MAX_QPATH))
       (length (heap example_state)) (heap example_state)
       (hashTable example_state
          !! @generateHashValue posix (R_StripExtension "wall.tga" MAX_QPATH)
               FILE_HASH_SIZE)
     = Some None
  /\ @R_FindShader posix example_collaborators (Some "wall.tga") 0 true
       example_state = Some (Some 1%nat, example_wall_state)
  /\ heap example_wall_state !! 1%nat
     = Some (mk_shader "wall" 0 1 false None 0 None
                       (DefaultShadingCmds "wall.tga" 7%nat))
  /\ exists st',
      @RE_RemapShader posix example_collaborators "<default>" "wall.tga"
        (Some "1.5"%string) example_state = Some (tt, st')
      /\ printed st' = printed example_wall_state
      /\ exists sx', heap st' !! 1%nat = Some sx'
                     /\ timeOffset sx'
                        = @atof example_collaborators "1.5".
Proof.
  assert (Hdef : tr_defaultShader example_state = Some O)
    by (vm_compute; reflexivity).
  assert (Hd : is_Some (heap example_state !! O))
    by (rewrite example_heap; eexists; reflexivity).
  assert (Hwalk : walk_chain
            (same_name (R_StripExtension "wall.tga" MAX_QPATH))
            (length (heap example_state)) (heap example_state)
            (hashTable example_state
               !! @generateHashValue posix
                    (R_StripExtension "wall.tga" MAX_QPATH) FILE_HASH_SIZE)
          = Some None) by (vm_compute; reflexivity).
  assert (Hx : heap example_wall_state !! 1%nat
               = Some (mk_shader "wall" 0 1 false None 0 None
                                 (DefaultShadingCmds "wall.tga" 7%nat)))
    by (vm_compute; reflexivity).
  split; [exact example_registry_ok|]. split; [exact Hdef|].
  split; [exact Hd|]. split; [exact Hwalk|].
  split; [exact example_wall_run|]. split; [exact Hx|].
  destruct (@RE_RemapShader_loads_target posix example_collaborators
              "<default>" "wall.tga" (Some "1.5"%string) example_state
              example_wall_state O 1%nat _ example_registry_ok Hdef Hd Hwalk
              example_wall_run Hx eq_refl)
    as (st' & Hrun & _ & _ & Hprinted & _ & Hoff).
  exists st'. split; [exact Hrun|]. split; [exact Hprinted|].
  exact (Hoff "1.5"%string eq_refl).
Defined.
